(** * ftdc-utils: proximity of two sets of metric statistics (compare.go)

    A shallow embedding of [compare.go] -- the metric filter [isCmpMetric],
    the per-metric comparator [compareMetrics] and the aggregation
    [Proximal] -- together with the properties stated about them.

    Go's [float64] is IEEE 754 binary64; it is modelled by [spec_float]
    at precision 53 and maximal exponent 1024, whose operations are the
    executable round-to-nearest-even operations of the standard library.
    Go's [int] is modelled as a 64-bit two's complement integer carried
    by [Z], subtraction wrapping around. *)

From Stdlib Require Import ZArith List String Ascii Bool Lia.
From Stdlib Require Import Floats.SpecFloat.
From Stdlib Require Import DecimalString.
From Stdlib Require Import Sorting.Permutation Sorting.Sorted.
From stdpp Require Import base gmap strings list sorting.

Open Scope Z_scope.

(** ** float64 *)

Module F64.

Definition prec : Z := 53.
Definition emax : Z := 1024.

Abbreviation float := spec_float.

Definition add : float -> float -> float := SFadd prec emax.
Definition sub : float -> float -> float := SFsub prec emax.
Definition mul : float -> float -> float := SFmul prec emax.
Definition div : float -> float -> float := SFdiv prec emax.
Definition sqrt : float -> float := SFsqrt prec emax.
Definition abs : float -> float := SFabs.
Definition eqb : float -> float -> bool := SFeqb.
Definition ltb : float -> float -> bool := SFltb.
Definition leb : float -> float -> bool := SFleb.

(** The constants of the source, as the nearest binary64 values. *)
Definition zero : float := S754_zero false.
Definition one : float := S754_finite false 4503599627370496 (-52).
Definition two : float := S754_finite false 4503599627370496 (-51).
Definition hundred : float := S754_finite false 7036874417766400 (-46).
(** 0.2 is 0x3FC999999999999A and 0.1 is 0x3FB999999999999A. *)
Definition c0_2 : float := S754_finite false 7205759403792794 (-55).
Definition c0_1 : float := S754_finite false 7205759403792794 (-56).

Definition is_nan (x : float) : bool :=
  match x with S754_nan => true | _ => false end.

Definition is_pos_inf (x : float) : bool :=
  match x with S754_infinity false => true | _ => false end.

Definition signbit (x : float) : bool :=
  match x with
  | S754_zero s | S754_infinity s | S754_finite s _ _ => s
  | S754_nan => false
  end.

(** [float64(n)] for an integer [n]: conversion rounds to nearest even. *)
Definition of_int (n : Z) : float := binary_normalize prec emax n 0 false.

(** [int(x)] for a float [x]: truncation towards zero.  Outside the range
    of [int] (and for NaN) the result is implementation-defined in Go; the
    amd64 value is taken here. *)
Definition to_int (x : float) : Z :=
  match x with
  | S754_finite s m e =>
      let a := if 0 <=? e then Z.pos m * 2 ^ e else Z.pos m / 2 ^ (- e) in
      let z := if s then - a else a in
      if (- 2 ^ 63 <=? z) && (z <? 2 ^ 63) then z else - 2 ^ 63
  | S754_zero _ => 0
  | _ => - 2 ^ 63
  end.

(** [math.Max], with its special cases in the order of the Go library. *)
Definition Max (x y : float) : float :=
  if is_pos_inf x || is_pos_inf y then S754_infinity false
  else if is_nan x || is_nan y then S754_nan
  else if eqb x zero && eqb x y then (if signbit x then y else x)
  else if ltb y x then x
  else y.

(** [math.Pow(2, -float64(k))] for an integer [k >= 1]: the library
    computes the power by repeated squaring on (fraction, exponent) pairs
    and scales with [Ldexp]; for base 2 every step is exact, so the result
    is the binary64 nearest to [2^-k] (zero once [k] exceeds 1074). *)
Definition Pow2neg (k : Z) : float :=
  SFldexp prec emax (SFone prec emax) (- k).

End F64.

Import F64.

(** ** Go's int *)

Definition int_min : Z := - 2 ^ 63.
Definition int_max : Z := 2 ^ 63 - 1.

Definition is_int (z : Z) : Prop := int_min <= z <= int_max.

(** Two's complement wrap-around of a mathematical result. *)
Definition wrap (z : Z) : Z := (z + 2 ^ 63) mod 2 ^ 64 - 2 ^ 63.

Definition int_sub (x y : Z) : Z := wrap (x - y).

(** The verb [%d] of [fmt.Sprintf]. *)
Definition fmt_d (z : Z) : string := NilZero.string_of_int (Z.to_int z).

Definition nl : string := String (ascii_of_nat 10) EmptyString.

(** ** Data model *)

(** Modelled from the spec: the declaration of the per-metric summary is
    not part of compare.go.  The spec names its fields [Median] and [MAD];
    compare.go formats both with [%d], converts both with [float64(...)]
    and subtracts them before converting, so they are Go integers. *)
Record MetricStat := { Median : Z; MAD : Z }.

(** Modelled from the spec: the declaration of [Stats] is not part of
    compare.go.  It has an integer sample count [NSamples] and a mapping
    [Metrics] from metric key to summary. *)
Record Stats := { NSamples : Z; Metrics : gmap string MetricStat }.

(** Every integer held by a [Stats] value is a value of Go's [int]. *)
Definition wf_MetricStat (m : MetricStat) : Prop :=
  is_int (Median m) /\ is_int (MAD m).

Definition wf_Stats (s : Stats) : Prop :=
  is_int (NSamples s) /\
  map_Forall (fun _ m => wf_MetricStat m) (Metrics s).

(** Indexing a Go map with an absent key yields the zero value. *)
Definition metric_at (s : Stats) (key : string) : MetricStat :=
  default {| Median := 0; MAD := 0 |} (Metrics s !! key).

(** [var CmpThreshold float64 = 0.2]: a package variable, read by the
    functions below; it is passed to them as the argument [thr]. *)
Definition CmpThreshold : float := c0_2.

Definition cmpMetrics : gmap string bool :=
  list_to_map
    [ ("end", true);
      ("start", true);
      ("serverStatus.start", true);
      ("serverStatus.end", true);
      ("serverStatus.asserts", true);
      ("serverStatus.mem.mapped", true);
      ("serverStatus.mem.mappedWithJournal", true);
      ("serverStatus.mem.resident", true);
      ("serverStatus.mem.supported", true);
      ("serverStatus.mem.virtual", true);
      ("serverStatus.metrics.commands", true);
      ("serverStatus.metrics.cursor.open", true);
      ("serverStatus.metrics.document", true);
      ("serverStatus.metrics.operation", true);
      ("serverStatus.metrics.queryExecutor", true);
      ("serverStatus.metrics.record", true);
      ("serverStatus.metrics.repl", true);
      ("serverStatus.metrics.storage", true);
      ("serverStatus.metrics.ttl", true);
      ("serverStatus.opcounters", true);
      ("serverStatus.opcountersRepl", true);
      ("serverStatus.wiredTiger.LSM", true);
      ("serverStatus.wiredTiger.async", true);
      ("serverStatus.wiredTiger.block-manager", true);
      ("serverStatus.wiredTiger.cache", true);
      ("serverStatus.wiredTiger.concurrentTransactions", true);
      ("serverStatus.wiredTiger.data-handle", true);
      ("serverStatus.wiredTiger.reconciliation", true);
      ("serverStatus.wiredTiger.session", true);
      ("serverStatus.writeBacksQueued", true) ]%string.

Definition badTimePenalty : float := SFopp c0_1.

Record cmpScore := { num : float; msg : string }.

(** [cmpScores.Less]: the order handed to [sort.Sort]. *)
Definition Less (x y : cmpScore) : bool := ltb (num x) (num y).

(** ** The metric filter *)

(** [strings.Split(key, ".")]: always at least one segment. *)
Fixpoint split_dot (key : string) : list string :=
  match key with
  | EmptyString => [EmptyString]
  | String c rest =>
      if Ascii.eqb c "."%char then EmptyString :: split_dot rest
      else match split_dot rest with
           | seg :: segs => String c seg :: segs
           | [] => [String c EmptyString]
           end
  end.

(** [strings.Join(elems, ".")]. *)
Fixpoint join_dot (elems : list string) : string :=
  match elems with
  | [] => EmptyString
  | [x] => x
  | x :: rest => (x ++ "." ++ join_dot rest)%string
  end.

(** The comma-ok lookup [_, ok := cmpMetrics[prefix]]. *)
Definition listed (prefix : string) : bool :=
  bool_decide (is_Some (cmpMetrics !! prefix)).

(** The loop [for i := range s] of [isCmpMetric], [n] iterations left. *)
Fixpoint isCmpMetric_from (s : list string) (i n : nat) : bool :=
  match n with
  | O => false
  | S n' =>
      if listed (join_dot (take (S i) s)) then true
      else isCmpMetric_from s (S i) n'
  end.

Definition isCmpMetric (key : string) : bool :=
  let s := split_dot key in
  isCmpMetric_from s 0 (length s).

(** ** The per-metric comparator *)

Definition pct (thr : float) : Z := to_int (mul thr hundred).

Definition mad_line (key : string) (a b : MetricStat) (thr : float) : string :=
  ("metric '" ++ key ++ "' not proximal: deviations (" ++ fmt_d (MAD a)
   ++ ", " ++ fmt_d (MAD b) ++ ") are not within threshold ("
   ++ fmt_d (pct thr) ++ ")" ++ nl)%string.

Definition median_line (key : string) (a b : MetricStat) (thr : float) : string :=
  ("metric '" ++ key ++ "' not proximal: medians (" ++ fmt_d (Median a)
   ++ ", " ++ fmt_d (Median b) ++ ") are not within threshold ("
   ++ fmt_d (pct thr) ++ ")" ++ nl)%string.

Definition maxmad_of (a b : MetricStat) : float :=
  Max (abs (of_int (MAD a))) (abs (of_int (MAD b))).

Definition maxmed_of (a b : MetricStat) : float :=
  Max (abs (of_int (Median a))) (abs (of_int (Median b))).

Definition relmad_of (a b : MetricStat) : float :=
  div (abs (of_int (int_sub (MAD a) (MAD b)))) (maxmad_of a b).

Definition relmed_of (a b : MetricStat) : float :=
  div (abs (of_int (int_sub (Median a) (Median b)))) (maxmed_of a b).

Definition compareMetrics (thr : float) (sa sb : Stats) (key : string) : cmpScore :=
  let a := metric_at sa key in
  let b := metric_at sb key in
  if Median a =? Median b then {| num := one; msg := "" |}
  else
    let maxmad := maxmad_of a b in
    let maxmed := maxmed_of a b in
    if eqb maxmad zero || eqb maxmed zero then {| num := one; msg := "" |}
    else
      let relmad := relmad_of a b in
      let relmed := relmed_of a b in
      let m1 := if ltb thr relmad then mad_line key a b thr else ""%string in
      let m2 := if ltb thr relmed then median_line key a b thr else ""%string in
      {| num := mul (sub one relmed) (sub one relmad);
         msg := (m1 ++ m2)%string |}.

(** ** Proximal *)

Definition count_line (a b : Stats) (thr : float) : string :=
  ("sample count not proximal: (" ++ fmt_d (NSamples a) ++ ", "
   ++ fmt_d (NSamples b) ++ ") are not within threshold ("
   ++ fmt_d (pct thr) ++ "%)" ++ nl)%string.

(** The sample-count test [diff/max > CmpThreshold]. *)
Definition count_ratio (a b : Stats) : float :=
  let aCount := of_int (NSamples a) in
  let bCount := of_int (NSamples b) in
  div (abs (sub aCount bCount)) (Max aCount bCount).

Definition count_exceeds (thr : float) (a b : Stats) : bool :=
  ltb thr (count_ratio a b).

(** Lines 85-94: the message and the score after the sample-count test. *)
Definition sample_check (thr : float) (a b : Stats) : string * float :=
  if count_exceeds thr a b then (count_line a b thr, badTimePenalty)
  else (EmptyString, zero).

(** The keys that reach [compareMetrics]: present in [b.Metrics] and
    accepted by the filter. *)
Definition compared (b : Stats) (key : string) : bool :=
  bool_decide (is_Some (Metrics b !! key)) && isCmpMetric key.

(** Lines 96-108, [ks] being the order in which [range a.Metrics] yields
    the keys of [a.Metrics].  [sumScores] is accumulated by the source and
    never read; it is left out. *)
Definition collect (thr : float) (a b : Stats) (ks : list string) : list cmpScore :=
  fold_left
    (fun scores key =>
       if compared b key then scores ++ [compareMetrics thr a b key]
       else scores)
    ks [].

(** Lines 113-115: [score += math.Pow(2, -float64(i+1)) * c.num], the
    index [i] counting from its first value.  The product and the sum are
    rounded one after the other, as the amd64 compiler emits them; the
    product by a power of two is exact unless it underflows. *)
Fixpoint weigh_from (i : Z) (score : float) (scores : list cmpScore) : float :=
  match scores with
  | [] => score
  | c :: rest => weigh_from (i + 1) (add score (mul (Pow2neg (i + 1)) (num c))) rest
  end.

Definition weigh (score : float) (scores : list cmpScore) : float :=
  weigh_from 0 score scores.

(** Lines 120-124: the buffer of messages in the order of [scores]. *)
Definition buffer (scores : list cmpScore) : string :=
  fold_left (fun buf c => (buf ++ msg c)%string) scores EmptyString.

(** Lines 109-127, for the slice [sorted] left by [sort.Sort]. *)
Definition finish (thr : float) (start : string * float) (sorted : list cmpScore)
  : string * float * bool :=
  let score := sqrt (weigh (snd start) sorted) in
  ((fst start ++ buffer sorted)%string, score, leb (sub one thr) score).

(** [sort.Sort] promises a permutation of the slice in which no element
    is [Less] than an earlier one; it is not stable, so elements that are
    not ordered by [Less] may come out in any order. *)
Definition ascending (l : list cmpScore) : Prop :=
  StronglySorted (fun x y => Less y x = false) l.

Definition sorted_of (scores sorted : list cmpScore) : Prop :=
  Permutation scores sorted /\ ascending sorted.

(** The order of the keys of a Go map under [range] is unspecified: every
    enumeration of the keys without repetition is possible. *)
Definition range_of (m : gmap string MetricStat) (ks : list string) : Prop :=
  Permutation ks (map fst (map_to_list m)).

(** [Proximal] as a relation between its inputs and each result that an
    execution may return. *)
Definition Proximal_returns (thr : float) (a b : Stats)
           (res : string * float * bool) : Prop :=
  exists ks sorted,
    range_of (Metrics a) ks /\
    sorted_of (collect thr a b ks) sorted /\
    res = finish thr (sample_check thr a b) sorted.

(** One execution: [sort.Sort] sorts short slices by insertion; the same
    procedure is used here for every length. *)
Fixpoint insert_score (c : cmpScore) (l : list cmpScore) : list cmpScore :=
  match l with
  | [] => [c]
  | x :: rest => if Less c x then c :: l else x :: insert_score c rest
  end.

Definition sort_scores (l : list cmpScore) : list cmpScore :=
  fold_left (fun acc c => insert_score c acc) l [].

Definition Proximal (thr : float) (a b : Stats) : string * float * bool :=
  let ks := map fst (map_to_list (Metrics a)) in
  finish thr (sample_check thr a b) (sort_scores (collect thr a b ks)).

(** * Rounding in a binary floating-point format

    The operations of [spec_float] round through [binary_round_aux].  This
    part relates them to integer arithmetic: every valid float has an
    integer [rank], the comparisons of floats are the comparisons of ranks,
    and each operation is a monotone rounding of the exact result. *)

Ltac zbool :=
  repeat match goal with
         | |- context [Z.eqb ?a ?b] => destruct (Z.eqb_spec a b)
         | |- context [Z.leb ?a ?b] => destruct (Z.leb_spec a b)
         | |- context [Z.ltb ?a ?b] => destruct (Z.ltb_spec a b)
         end.

(** ** Binary digits *)

Lemma digits2_pos_log2 (p : positive) :
  Z.pos (digits2_pos p) = Z.log2 (Z.pos p) + 1.
Proof.
  induction p as [p IH|p IH|]; cbn [digits2_pos]; [| | reflexivity].
  - rewrite Pos2Z.inj_succ, IH.
    change (Z.pos p~1) with (2 * Z.pos p + 1).
    rewrite Z.log2_succ_double by lia. lia.
  - rewrite Pos2Z.inj_succ, IH.
    change (Z.pos p~0) with (2 * Z.pos p).
    rewrite Z.log2_double by lia. lia.
Qed.

Lemma Zdigits2_bounds (m : Z) :
  0 < m -> 2 ^ (Zdigits2 m - 1) <= m < 2 ^ Zdigits2 m.
Proof.
  intros Hm. destruct m as [|p|p]; try lia.
  cbn [Zdigits2]. rewrite digits2_pos_log2.
  pose proof (Z.log2_spec (Z.pos p) Hm) as H.
  replace (Z.log2 (Z.pos p) + 1 - 1) with (Z.log2 (Z.pos p)) by lia.
  replace (Z.log2 (Z.pos p) + 1) with (Z.succ (Z.log2 (Z.pos p))) by lia.
  exact H.
Qed.

Lemma Zdigits2_pos (m : Z) : 0 < m -> 0 < Zdigits2 m.
Proof. destruct m; cbn; lia. Qed.

Lemma Zdigits2_nonneg (m : Z) : 0 <= Zdigits2 m.
Proof. destruct m; cbn; lia. Qed.

Lemma Zdigits2_unique (m d : Z) :
  2 ^ (d - 1) <= m < 2 ^ d -> 0 < m -> Zdigits2 m = d.
Proof.
  intros H Hm. destruct m as [|p|p]; try lia.
  cbn [Zdigits2]. rewrite digits2_pos_log2.
  assert (0 < d).
  { destruct (Z_lt_le_dec 0 d) as [|Hd]; [assumption|].
    destruct H as [_ H]. 
    assert (2 ^ d <= 1).
    { destruct (Z.eq_dec d 0) as [->|]; [cbn; lia|].
      rewrite Z.pow_neg_r by lia. lia. }
    lia. }
  rewrite (Z.log2_unique (Z.pos p) (d - 1)); try lia.
  replace (Z.succ (d - 1)) with d by lia. exact H.
Qed.

Lemma Zdigits2_le (m n : Z) : 0 <= m <= n -> Zdigits2 m <= Zdigits2 n.
Proof.
  intros [Hm Hmn]. destruct m as [|p|p]; try lia.
  - apply Zdigits2_nonneg.
  - destruct n as [|q|q]; try lia. cbn [Zdigits2].
    rewrite !digits2_pos_log2.
    pose proof (Z.log2_le_mono (Z.pos p) (Z.pos q) Hmn). lia.
Qed.

Lemma Zdigits2_mul_pow2 (m j : Z) :
  0 < m -> 0 <= j -> Zdigits2 (m * 2 ^ j) = Zdigits2 m + j.
Proof.
  intros Hm Hj. pose proof (Zdigits2_bounds m Hm) as [H1 H2].
  pose proof (Zdigits2_pos m Hm).
  assert (0 < 2 ^ j) by (apply Z.pow_pos_nonneg; lia).
  apply Zdigits2_unique; [| nia].
  replace (Zdigits2 m + j - 1) with ((Zdigits2 m - 1) + j) by lia.
  rewrite !Z.pow_add_r by lia. nia.
Qed.

Lemma Zdigits2_div_pow2 (m j : Z) :
  0 < m -> 0 <= j < Zdigits2 m -> Zdigits2 (m / 2 ^ j) = Zdigits2 m - j.
Proof.
  intros Hm Hj. pose proof (Zdigits2_bounds m Hm) as [H1 H2].
  assert (Hp : 0 < 2 ^ j) by (apply Z.pow_pos_nonneg; lia).
  assert (E1 : 2 ^ (Zdigits2 m - 1) = 2 ^ (Zdigits2 m - j - 1) * 2 ^ j).
  { rewrite <- Z.pow_add_r by lia. f_equal; lia. }
  assert (E2 : 2 ^ (Zdigits2 m) = 2 ^ (Zdigits2 m - j) * 2 ^ j).
  { rewrite <- Z.pow_add_r by lia. f_equal; lia. }
  assert (L : 2 ^ (Zdigits2 m - j - 1) <= m / 2 ^ j).
  { apply Z.div_le_lower_bound; [lia|]. rewrite Z.mul_comm, <- E1. exact H1. }
  assert (U : m / 2 ^ j < 2 ^ (Zdigits2 m - j)).
  { apply Z.div_lt_upper_bound; [lia|]. rewrite Z.mul_comm, <- E2. exact H2. }
  assert (0 < 2 ^ (Zdigits2 m - j - 1)) by (apply Z.pow_pos_nonneg; lia).
  apply Zdigits2_unique; [split; assumption | lia].
Qed.

(** ** Right shifts with rounding information *)

Definition b2z (b : bool) : Z := if b then 1 else 0.

(** A shift record as a position in quarters: the mantissa counts four,
    the round bit two, the sticky bit one. *)
Definition code (mrs : shr_record) : Z :=
  4 * shr_m mrs + 2 * b2z (shr_r mrs) + b2z (shr_s mrs).

Definition loc_code (l : location) : Z :=
  match l with
  | loc_Exact => 0
  | loc_Inexact Lt => 1
  | loc_Inexact Eq => 2
  | loc_Inexact Gt => 3
  end.

Definition shrn (n : Z) (mrs : shr_record) : shr_record :=
  match n with
  | Z.pos p => Pos.iter shr_1 mrs p
  | _ => mrs
  end.

Lemma iter_pos_iter {A : Type} (f : A -> A) (p : positive) (x : A) :
  SpecFloat.iter_pos f p x = Pos.iter f x p.
Proof.
  revert x; induction p as [p IH|p IH|]; intros x; cbn [SpecFloat.iter_pos Pos.iter].
  - rewrite !IH. rewrite <- Pos.iter_swap. f_equal. apply Pos.iter_swap.
  - now rewrite !IH.
  - reflexivity.
Qed.

Lemma shr_shrn (mrs : shr_record) (e n : Z) :
  0 <= n -> shr mrs e n = (shrn n mrs, e + n).
Proof.
  intros Hn. destruct n as [|p|p]; cbn [shr shrn]; try lia.
  - now rewrite Z.add_0_r.
  - now rewrite iter_pos_iter.
Qed.

Lemma shrn_0 (mrs : shr_record) : shrn 0 mrs = mrs.
Proof. reflexivity. Qed.

Lemma shrn_succ (n : Z) (mrs : shr_record) :
  0 <= n -> shrn (Z.succ n) mrs = shr_1 (shrn n mrs).
Proof.
  intros Hn. destruct n as [|p|p]; try lia; [reflexivity|].
  rewrite <- Pos2Z.inj_succ. cbn [shrn]. apply Pos.iter_succ.
Qed.

Lemma shrn_add (a b : Z) (mrs : shr_record) :
  0 <= a -> 0 <= b -> shrn (a + b) mrs = shrn a (shrn b mrs).
Proof.
  intros Ha Hb. revert a Ha. apply natlike_ind.
  - now rewrite Z.add_0_l.
  - intros a Ha IH. replace (Z.succ a + b) with (Z.succ (a + b)) by lia.
    rewrite !shrn_succ by lia. now rewrite IH.
Qed.

Lemma code_of_loc (m : Z) (l : location) :
  code (shr_record_of_loc m l) = 4 * m + loc_code l.
Proof. destruct l as [|[]]; unfold code; cbn [shr_record_of_loc shr_m shr_r shr_s b2z loc_code]; lia. Qed.

Lemma loc_code_range (l : location) : 0 <= loc_code l <= 3.
Proof. destruct l as [|[]]; cbn; lia. Qed.

Lemma shr_m_shr_1 (mrs : shr_record) :
  0 <= shr_m mrs -> shr_m (shr_1 mrs) = shr_m mrs / 2.
Proof.
  destruct mrs as [m r s]; cbn [shr_m]; intros Hm.
  destruct m as [|[p|p|]|p]; try lia; cbn [shr_1 shr_m]; try reflexivity.
  - apply (Z.div_unique _ 2 _ 1); lia.
  - apply (Z.div_unique _ 2 _ 0); lia.
Qed.

Lemma code_shr_1 (mrs : shr_record) :
  0 <= shr_m mrs ->
  code (shr_1 mrs) = 2 * (code mrs / 4) + (if code mrs mod 4 =? 0 then 0 else 1).
Proof.
  destruct mrs as [m r s]; unfold code; cbn [shr_m shr_r shr_s]; intros Hm.
  assert (Hq : (4 * m + 2 * b2z r + b2z s) / 4 = m).
  { symmetry. apply (Z.div_unique _ 4 m (2 * b2z r + b2z s)); [|lia].
    left; destruct r, s; cbn; lia. }
  assert (Hr : (4 * m + 2 * b2z r + b2z s) mod 4 = 2 * b2z r + b2z s).
  { symmetry. apply (Z.mod_unique _ 4 m (2 * b2z r + b2z s)); [|lia].
    left; destruct r, s; cbn; lia. }
  rewrite Hq, Hr.
  destruct m as [|[p|p|]|p]; try lia; destruct r, s;
    cbn [shr_1 shr_m shr_r shr_s b2z orb]; zbool; lia.
Qed.

Lemma code_shr_1_mono (x y : shr_record) :
  0 <= shr_m x -> 0 <= shr_m y -> code x <= code y ->
  code (shr_1 x) <= code (shr_1 y).
Proof.
  intros Hx Hy Hxy. rewrite !code_shr_1 by assumption.
  pose proof (Z.div_mod (code x) 4 ltac:(lia)).
  pose proof (Z.div_mod (code y) 4 ltac:(lia)).
  pose proof (Z.mod_pos_bound (code x) 4 ltac:(lia)).
  pose proof (Z.mod_pos_bound (code y) 4 ltac:(lia)).
  destruct (Z.eqb_spec (code x mod 4) 0), (Z.eqb_spec (code y mod 4) 0); lia.
Qed.

Lemma shr_m_shrn_nonneg (n : Z) (mrs : shr_record) :
  0 <= n -> 0 <= shr_m mrs -> 0 <= shr_m (shrn n mrs).
Proof.
  intros Hn Hm. revert n Hn. apply natlike_ind; [exact Hm|].
  intros n Hn IH. rewrite shrn_succ, shr_m_shr_1 by assumption.
  apply Z.div_pos; lia.
Qed.

Lemma shr_m_shrn (n : Z) (mrs : shr_record) :
  0 <= n -> 0 <= shr_m mrs -> shr_m (shrn n mrs) = shr_m mrs / 2 ^ n.
Proof.
  intros Hn Hm. revert n Hn. apply natlike_ind.
  - now rewrite shrn_0, Z.pow_0_r, Z.div_1_r.
  - intros n Hn IH. rewrite shrn_succ by assumption.
    rewrite shr_m_shr_1 by (apply shr_m_shrn_nonneg; assumption).
    rewrite IH, Z.pow_succ_r by assumption.
    rewrite Z.div_div by (try apply Z.pow_pos_nonneg; lia).
    f_equal; lia.
Qed.

Lemma code_shrn_mono (n : Z) (x y : shr_record) :
  0 <= n -> 0 <= shr_m x -> 0 <= shr_m y -> code x <= code y ->
  code (shrn n x) <= code (shrn n y).
Proof.
  intros Hn Hx Hy Hxy. revert n Hn. apply natlike_ind; [exact Hxy|].
  intros n Hn IH. rewrite !shrn_succ by assumption.
  apply code_shr_1_mono; try apply shr_m_shrn_nonneg; assumption.
Qed.

Lemma shrn_exact (n m : Z) :
  0 <= n -> 0 <= m ->
  shrn n (Build_shr_record (m * 2 ^ n) false false) = Build_shr_record m false false.
Proof.
  intros Hn Hm. revert n Hn m Hm. apply (natlike_ind (fun n => forall m, 0 <= m -> _)).
  - intros m Hm. now rewrite shrn_0, Z.pow_0_r, Z.mul_1_r.
  - intros n Hn IH m Hm. rewrite shrn_succ by assumption.
    rewrite Z.pow_succ_r by assumption.
    replace (m * (2 * 2 ^ n)) with ((2 * m) * 2 ^ n) by lia.
    rewrite IH by lia.
    destruct m as [|p|p]; try lia; reflexivity.
Qed.

(** ** Rounding to nearest, ties to even *)

(** Rounding of a position given in quarters. *)
Definition rne (c : Z) : Z :=
  let q := c / 4 in
  let r := c mod 4 in
  if r <? 2 then q
  else if r =? 2 then (if Z.even q then q else q + 1)
  else q + 1.

Lemma code_div_mod (mrs : shr_record) :
  code mrs / 4 = shr_m mrs /\
  code mrs mod 4 = 2 * b2z (shr_r mrs) + b2z (shr_s mrs).
Proof.
  destruct mrs as [m r s]; unfold code; cbn [shr_m shr_r shr_s].
  assert (0 <= 2 * b2z r + b2z s < 4) by (destruct r, s; cbn [b2z]; lia).
  split; symmetry.
  - apply (Z.div_unique _ 4 m (2 * b2z r + b2z s)); [left; lia | lia].
  - apply (Z.mod_unique _ 4 m (2 * b2z r + b2z s)); [left; lia | lia].
Qed.

Lemma round_nearest_even_rne (mrs : shr_record) :
  round_nearest_even (shr_m mrs) (loc_of_shr_record mrs) = rne (code mrs).
Proof.
  unfold rne. destruct (code_div_mod mrs) as [-> ->].
  destruct mrs as [m [] []]; cbn [shr_m shr_r shr_s b2z loc_of_shr_record round_nearest_even];
    zbool; try lia; reflexivity.
Qed.

Lemma rne_bounds (c : Z) : c / 4 <= rne c <= c / 4 + 1.
Proof. unfold rne. zbool; try lia. destruct (Z.even (c / 4)); lia. Qed.

Lemma rne_mono (c1 c2 : Z) : c1 <= c2 -> rne c1 <= rne c2.
Proof.
  intros H.
  pose proof (Z.div_mod c1 4 ltac:(lia)).
  pose proof (Z.div_mod c2 4 ltac:(lia)).
  pose proof (Z.mod_pos_bound c1 4 ltac:(lia)).
  pose proof (Z.mod_pos_bound c2 4 ltac:(lia)).
  destruct (Z.eq_dec (c1 / 4) (c2 / 4)) as [E|N].
  - unfold rne. rewrite E. zbool; try lia; destruct (Z.even (c2 / 4)); lia.
  - pose proof (rne_bounds c1). pose proof (rne_bounds c2). lia.
Qed.

Lemma rne_exact (m : Z) : rne (4 * m) = m.
Proof.
  unfold rne.
  assert (Hq : (4 * m) / 4 = m) by (rewrite Z.mul_comm; apply Z.div_mul; lia).
  assert (Hr : (4 * m) mod 4 = 0) by (rewrite Z.mul_comm; apply Z.mod_mul; lia).
  rewrite Hq, Hr. reflexivity.
Qed.

Section Rounding.

Variables prec emax : Z.
Hypothesis Hprec : 1 < prec.
Hypothesis Hemax : prec < emax.

Set Default Proof Using "Hprec Hemax".

Local Abbreviation emin := (SpecFloat.emin prec emax).
Local Abbreviation fexp := (SpecFloat.fexp prec emax).

(** The exponent at which a mantissa [m] given at exponent [e] is rounded. *)
Definition tgt (m e : Z) : Z := fexp (Zdigits2 m + e).

(** The rounded mantissa at exponent [tgt m e]. *)
Definition rnd_n (m e : Z) (l : location) : Z :=
  rne (code (shrn (tgt m e - e) (shr_record_of_loc m l))).

(** The float with mantissa [n <= 2^prec] at exponent [E]. *)
Definition mk_float (s : bool) (n E : Z) : spec_float :=
  if n =? 0 then S754_zero s
  else if n <? 2 ^ prec then
    (if E <=? emax - prec then S754_finite s (Z.to_pos n) E else S754_infinity s)
  else
    (if E + 1 <=? emax - prec then S754_finite s (Z.to_pos (2 ^ (prec - 1))) (E + 1)
     else S754_infinity s).

Lemma emin_eq : emin = 3 - emax - prec.
Proof. reflexivity. Qed.

Lemma fexp_eq (e : Z) : fexp e = Z.max (e - prec) emin.
Proof. reflexivity. Qed.

Lemma fexp_ge_emin (e : Z) : emin <= fexp e.
Proof. rewrite fexp_eq. lia. Qed.

Lemma fexp_mono (e1 e2 : Z) : e1 <= e2 -> fexp e1 <= fexp e2.
Proof. rewrite !fexp_eq. lia. Qed.

Lemma tgt_ge_emin (m e : Z) : emin <= tgt m e.
Proof. apply fexp_ge_emin. Qed.

Lemma shr_m_of_loc (m : Z) (l : location) : shr_m (shr_record_of_loc m l) = m.
Proof. destruct l as [|[]]; reflexivity. Qed.

(** The mantissa left by the first shift has at most [prec] digits, and
    exactly [prec] above the subnormal range. *)
Lemma shifted_bounds (m e : Z) :
  0 <= m -> e <= tgt m e ->
  let m' := m / 2 ^ (tgt m e - e) in
  0 <= m' < 2 ^ prec /\ (emin < tgt m e -> 2 ^ (prec - 1) <= m').
Proof.
  intros Hm He. cbv zeta. unfold tgt in *. rewrite fexp_eq in *.
  set (d := Zdigits2 m) in *. set (E := Z.max (d + e - prec) emin) in *.
  assert (Hk : 0 <= E - e) by lia.
  assert (Hp : 0 < 2 ^ (E - e)) by (apply Z.pow_pos_nonneg; lia).
  assert (H2p : 0 < 2 ^ prec) by (apply Z.pow_pos_nonneg; lia).
  destruct (Z.eq_dec m 0) as [->|Hm0].
  - rewrite Zdiv_0_l. split; [lia|].
    intros HE. subst d. cbn [Zdigits2] in E. subst E. lia.
  - assert (Hmp : 0 < m) by lia.
    pose proof (Zdigits2_bounds m Hmp) as [Hlo Hhi]. fold d in Hlo, Hhi.
    pose proof (Zdigits2_pos m Hmp) as Hd. fold d in Hd.
    split; [split|].
    + apply Z.div_pos; lia.
    + apply Z.div_lt_upper_bound; [lia|].
      apply Z.lt_le_trans with (1 := Hhi).
      rewrite <- Z.pow_add_r by lia. apply Z.pow_le_mono_r; lia.
    + intros HE. assert (HEd : E = d + e - prec) by lia.
      apply Z.div_le_lower_bound; [lia|].
      rewrite Z.mul_comm, <- Z.pow_add_r by lia.
      replace (prec - 1 + (E - e)) with (d - 1) by lia. exact Hlo.
Qed.

Lemma rnd_n_bounds (m e : Z) (l : location) :
  0 <= m -> e <= tgt m e ->
  0 <= rnd_n m e l <= 2 ^ prec /\ (emin < tgt m e -> 2 ^ (prec - 1) <= rnd_n m e l).
Proof.
  intros Hm He. unfold rnd_n.
  set (mrs := shrn (tgt m e - e) (shr_record_of_loc m l)).
  pose proof (rne_bounds (code mrs)) as Hb.
  destruct (code_div_mod mrs) as [Hq _]. rewrite Hq in Hb.
  assert (Hs : shr_m mrs = m / 2 ^ (tgt m e - e)).
  { subst mrs. rewrite shr_m_shrn; rewrite ?shr_m_of_loc; lia. }
  destruct (shifted_bounds m e Hm He) as [H1 H2]. rewrite <- Hs in H1, H2.
  split; [lia|]. intros HE. specialize (H2 HE). lia.
Qed.

Lemma binary_round_aux_spec (s : bool) (m e : Z) (l : location) :
  0 <= m -> e <= tgt m e ->
  binary_round_aux prec emax s m e l = mk_float s (rnd_n m e l) (tgt m e).
Proof.
  intros Hm He.
  destruct (rnd_n_bounds m e l Hm He) as [[Hn0 Hn1] Hn2].
  pose proof (tgt_ge_emin m e) as HE.
  unfold binary_round_aux, shr_fexp. fold (tgt m e).
  rewrite shr_shrn by lia.
  replace (e + (tgt m e - e)) with (tgt m e) by lia.
  rewrite round_nearest_even_rne. fold (rnd_n m e l).
  set (n := rnd_n m e l) in *. set (E := tgt m e) in *.
  assert (H2p : 2 ^ prec = 2 * 2 ^ (prec - 1)).
  { rewrite <- Z.pow_succ_r by lia. f_equal; lia. }
  assert (H2q : 0 < 2 ^ (prec - 1)) by (apply Z.pow_pos_nonneg; lia).
  unfold mk_float. destruct (Z.eqb_spec n 0) as [Hz|Hz].
  - rewrite Hz. cbn [Zdigits2]. rewrite Z.add_0_l.
    assert (Hk : fexp E - E <= 0) by (rewrite fexp_eq; lia).
    destruct (fexp E - E) as [|p|p] eqn:Hd; try lia; reflexivity.
  - assert (Hnp : 0 < n) by lia.
    pose proof (Zdigits2_bounds n Hnp) as [Hlo Hhi].
    destruct (Z.ltb_spec n (2 ^ prec)) as [Hlt|Hge].
    + assert (Hd : Zdigits2 n <= prec).
      { destruct (Z_le_gt_dec (Zdigits2 n) prec) as [|Hgt]; [assumption|].
        assert (2 ^ prec <= 2 ^ (Zdigits2 n - 1)) by (apply Z.pow_le_mono_r; lia).
        lia. }
      assert (Hk : fexp (Zdigits2 n + E) - E <= 0) by (rewrite fexp_eq; lia).
      destruct (fexp (Zdigits2 n + E) - E) as [|p|p] eqn:Hdd; try lia;
        cbn [shr shr_record_of_loc shr_m]; destruct n as [|q|q]; try lia; reflexivity.
    + assert (Hn : n = 2 ^ prec) by lia.
      assert (Hd : Zdigits2 n = prec + 1).
      { apply Zdigits2_unique; [|lia].
        replace (prec + 1 - 1) with prec by lia.
        rewrite Z.pow_add_r, Z.pow_1_r by lia. lia. }
      rewrite Hd.
      assert (Hk : fexp (prec + 1 + E) - E = 1) by (rewrite fexp_eq; lia).
      rewrite Hk. cbn [shr SpecFloat.iter_pos shr_record_of_loc].
      rewrite Hn, H2p.
      replace (2 * 2 ^ (prec - 1)) with (2 ^ (prec - 1) * 2 ^ 1) by (rewrite Z.pow_1_r; lia).
      change (shr_1 {| shr_m := 2 ^ (prec - 1) * 2 ^ 1; shr_r := false; shr_s := false |})
        with (shrn 1 {| shr_m := 2 ^ (prec - 1) * 2 ^ 1; shr_r := false; shr_s := false |}).
      rewrite shrn_exact by lia. cbn [shr_m].
      destruct (2 ^ (prec - 1)) as [|q|q] eqn:Hq; try lia. reflexivity.
Qed.

(** *** Order of floats through an integer rank *)

Definition INF : Z := 2 ^ (emax - emin).

(** The value of a float in units of the smallest subnormal; infinities
    rank just beyond the largest finite float. *)
Definition rank (x : spec_float) : Z :=
  match x with
  | S754_zero _ => 0
  | S754_nan => 0
  | S754_infinity s => if s then - INF else INF
  | S754_finite s m e =>
      if s then - (Z.pos m * 2 ^ (e - emin)) else Z.pos m * 2 ^ (e - emin)
  end.

(** A number: a valid float that is not NaN. *)
Definition number (x : spec_float) : Prop :=
  valid_binary prec emax x = true /\ x <> S754_nan.

Definition finite (x : spec_float) : Prop :=
  valid_binary prec emax x = true /\
  match x with S754_zero _ | S754_finite _ _ _ => True | _ => False end.

Lemma finite_number (x : spec_float) : finite x -> number x.
Proof. intros [Hv Hf]; split; [exact Hv|]. destruct x; [discriminate .. | contradiction | discriminate]. Qed.

Lemma INF_pos : 0 < INF.
Proof. apply Z.pow_pos_nonneg; [lia | rewrite emin_eq; lia]. Qed.

Lemma pow2_pos (a : Z) : 0 <= a -> 0 < 2 ^ a.
Proof. intros; apply Z.pow_pos_nonneg; lia. Qed.

Lemma pow2_split (a b : Z) : 0 <= b <= a -> 2 ^ a = 2 ^ (a - b) * 2 ^ b.
Proof. intros H. rewrite <- Z.pow_add_r by lia. f_equal; lia. Qed.

Lemma bounded_facts (m : positive) (e : Z) :
  bounded prec emax m e = true ->
  emin <= e <= emax - prec /\ Zdigits2 (Z.pos m) <= prec /\
  (emin < e -> Zdigits2 (Z.pos m) = prec) /\ tgt (Z.pos m) e = e.
Proof.
  unfold bounded, canonical_mantissa. intros H.
  apply andb_true_iff in H as [H1 H2].
  apply Z.eqb_eq in H1. apply Z.leb_le in H2.
  change (Z.pos (digits2_pos m)) with (Zdigits2 (Z.pos m)) in H1.
  unfold tgt. rewrite fexp_eq in *. lia.
Qed.

Lemma finite_rank_bounds (s : bool) (m : positive) (e : Z) :
  bounded prec emax m e = true ->
  0 < Z.pos m * 2 ^ (e - emin) < INF.
Proof.
  intros H. destruct (bounded_facts m e H) as (He & Hd & _ & _).
  pose proof (Zdigits2_bounds (Z.pos m) ltac:(lia)) as [_ Hm].
  pose proof (pow2_pos (e - emin) ltac:(lia)) as Hp.
  split; [nia|].
  assert (Z.pos m < 2 ^ prec).
  { apply Z.lt_le_trans with (1 := Hm). apply Z.pow_le_mono_r; lia. }
  unfold INF.
  assert (2 ^ prec * 2 ^ (e - emin) <= 2 ^ (emax - emin)).
  { rewrite <- Z.pow_add_r by lia. apply Z.pow_le_mono_r; lia. }
  nia.
Qed.

Lemma rank_abs_le_INF (x : spec_float) : number x -> - INF <= rank x <= INF.
Proof.
  intros [Hv Hn]. pose proof INF_pos.
  destruct x as [s|s| |s m e]; cbn [rank]; try destruct s; try lia.
  - pose proof (finite_rank_bounds true m e Hv). lia.
  - pose proof (finite_rank_bounds false m e Hv). lia.
Qed.

(** Two canonical mantissas at different exponents. *)
Lemma canonical_exp_lt (m1 m2 : positive) (e1 e2 : Z) :
  bounded prec emax m1 e1 = true -> bounded prec emax m2 e2 = true ->
  e1 < e2 -> Z.pos m1 * 2 ^ (e1 - emin) < Z.pos m2 * 2 ^ (e2 - emin).
Proof.
  intros H1 H2 He.
  destruct (bounded_facts m1 e1 H1) as (He1 & Hd1 & _ & _).
  destruct (bounded_facts m2 e2 H2) as (He2 & _ & Hd2 & _).
  specialize (Hd2 ltac:(lia)).
  pose proof (Zdigits2_bounds (Z.pos m1) ltac:(lia)) as [_ Hm1].
  pose proof (Zdigits2_bounds (Z.pos m2) ltac:(lia)) as [Hm2 _].
  rewrite Hd2 in Hm2.
  assert (Z.pos m1 < 2 ^ prec).
  { apply Z.lt_le_trans with (1 := Hm1). apply Z.pow_le_mono_r; lia. }
  pose proof (pow2_pos (e1 - emin) ltac:(lia)) as Hp1.
  pose proof (pow2_pos (prec - 1) ltac:(lia)) as Hp2.
  assert (E2 : 2 ^ (e2 - emin) = 2 ^ (e2 - e1 - 1) * 2 ^ (e1 - emin + 1)).
  { rewrite <- Z.pow_add_r by lia. f_equal; lia. }
  assert (E1 : 2 ^ (e1 - emin + 1) = 2 * 2 ^ (e1 - emin)).
  { rewrite Z.pow_add_r, Z.pow_1_r by lia. lia. }
  assert (E3 : 2 ^ prec = 2 * 2 ^ (prec - 1)).
  { rewrite <- Z.pow_succ_r by lia. f_equal; lia. }
  pose proof (pow2_pos (e2 - e1 - 1) ltac:(lia)) as Hp3.
  rewrite E2, E1.
  assert (Z.pos m1 * 2 ^ (e1 - emin) < 2 ^ (prec - 1) * (2 * 2 ^ (e1 - emin))) by nia.
  assert (2 ^ (prec - 1) * (2 * 2 ^ (e1 - emin)) <= Z.pos m2 * (2 * 2 ^ (e1 - emin))) by nia.
  assert (Z.pos m2 * (2 * 2 ^ (e1 - emin)) <=
          Z.pos m2 * (2 ^ (e2 - e1 - 1) * (2 * 2 ^ (e1 - emin)))) by nia.
  lia.
Qed.

Lemma compare_finite_pos (m1 m2 : positive) (e1 e2 : Z) :
  bounded prec emax m1 e1 = true -> bounded prec emax m2 e2 = true ->
  match e1 ?= e2 with
  | Lt => Lt
  | Gt => Gt
  | Eq => Pos.compare_cont Eq m1 m2
  end = (Z.pos m1 * 2 ^ (e1 - emin) ?= Z.pos m2 * 2 ^ (e2 - emin)).
Proof.
  intros H1 H2. symmetry.
  destruct (Z.compare_spec e1 e2) as [->|Hlt|Hgt].
  - destruct (bounded_facts m2 e2 H2) as (He2 & _).
    pose proof (pow2_pos (e2 - emin) ltac:(lia)) as Hp.
    change (Pos.compare_cont Eq m1 m2) with (Z.pos m1 ?= Z.pos m2).
    destruct (Z.compare_spec (Z.pos m1) (Z.pos m2)) as [E|L|G].
    + rewrite E. apply Z.compare_refl.
    + apply Z.compare_lt_iff. nia.
    + apply Z.compare_gt_iff. nia.
  - apply Z.compare_lt_iff. now apply canonical_exp_lt.
  - apply Z.compare_gt_iff. now apply canonical_exp_lt.
Qed.

Lemma SFcompare_rank (x y : spec_float) :
  number x -> number y -> SFcompare x y = Some (rank x ?= rank y).
Proof.
  intros [Hx Nx] [Hy Ny]. pose proof INF_pos as HI.
  destruct x as [sx|sx| |sx mx ex]; try congruence;
    destruct y as [sy|sy| |sy my ey]; try congruence;
    cbn [SFcompare rank valid_binary] in *;
    try pose proof (finite_rank_bounds sx mx ex Hx) as Bx;
    try pose proof (finite_rank_bounds sy my ey Hy) as By;
    f_equal; symmetry.
  all: try (destruct sx); try (destruct sy).
  all: try (apply Z.compare_refl).
  all: try (apply Z.compare_lt_iff; lia).
  all: try (apply Z.compare_gt_iff; lia).
  - rewrite Z.compare_opp, Z.compare_antisym.
    rewrite <- (compare_finite_pos mx my ex ey Hx Hy).
    destruct (ex ?= ey); reflexivity.
  - symmetry. apply compare_finite_pos; assumption.
Qed.

Lemma SFleb_rank (x y : spec_float) :
  number x -> number y -> SFleb x y = (rank x <=? rank y).
Proof.
  intros Hx Hy. unfold SFleb. rewrite (SFcompare_rank x y Hx Hy).
  unfold Z.leb. destruct (rank x ?= rank y); reflexivity.
Qed.

Lemma SFltb_rank (x y : spec_float) :
  number x -> number y -> SFltb x y = (rank x <? rank y).
Proof.
  intros Hx Hy. unfold SFltb. rewrite (SFcompare_rank x y Hx Hy).
  unfold Z.ltb. destruct (rank x ?= rank y); reflexivity.
Qed.

Lemma SFeqb_rank (x y : spec_float) :
  number x -> number y -> SFeqb x y = (rank x =? rank y).
Proof.
  intros Hx Hy. unfold SFeqb. rewrite (SFcompare_rank x y Hx Hy).
  destruct (Z.compare_spec (rank x) (rank y)); symmetry;
    [apply Z.eqb_eq | apply Z.eqb_neq | apply Z.eqb_neq]; lia.
Qed.

(** *** The float built from a rounded mantissa *)

(** The conditions under which [mk_float] is used: [n] is a rounded
    mantissa for the exponent [E]. *)
Definition rounded (n E : Z) : Prop :=
  emin <= E /\ 0 <= n <= 2 ^ prec /\ (emin < E -> 2 ^ (prec - 1) <= n).

Lemma pow2_prec : 2 ^ prec = 2 * 2 ^ (prec - 1).
Proof. rewrite <- Z.pow_succ_r by lia. f_equal; lia. Qed.

Lemma digits_below_prec (n : Z) : 0 < n < 2 ^ prec -> Zdigits2 n <= prec.
Proof.
  intros [Hn0 Hn]. pose proof (Zdigits2_bounds n Hn0) as [Hlo _].
  destruct (Z_le_gt_dec (Zdigits2 n) prec) as [|Hgt]; [assumption|].
  assert (2 ^ prec <= 2 ^ (Zdigits2 n - 1)) by (apply Z.pow_le_mono_r; lia).
  lia.
Qed.

Lemma digits_at_prec (n : Z) : 2 ^ (prec - 1) <= n < 2 ^ prec -> Zdigits2 n = prec.
Proof.
  intros H. pose proof (pow2_pos (prec - 1) ltac:(lia)).
  apply Zdigits2_unique; [exact H | lia].
Qed.

Lemma mk_float_valid (s : bool) (n E : Z) :
  rounded n E -> number (mk_float s n E).
Proof.
  intros (HE & [Hn0 Hn1] & Hn2). unfold mk_float.
  pose proof (pow2_pos (prec - 1) ltac:(lia)) as Hq. pose proof pow2_prec as Hp.
  destruct (Z.eqb_spec n 0); [split; [reflexivity | discriminate]|].
  destruct (Z.ltb_spec n (2 ^ prec)) as [Hlt|Hge].
  - destruct (Z.leb_spec E (emax - prec)); [|split; [reflexivity | discriminate]].
    split; [|discriminate]. cbn [valid_binary]. unfold bounded, canonical_mantissa.
    apply andb_true_iff; split; [|apply Z.leb_le; lia].
    apply Z.eqb_eq.
    change (Z.pos (digits2_pos (Z.to_pos n))) with (Zdigits2 (Z.pos (Z.to_pos n))).
    rewrite Z2Pos.id by lia. rewrite fexp_eq.
    pose proof (digits_below_prec n ltac:(lia)).
    destruct (Z.eq_dec E emin) as [->|]; [lia|].
    rewrite (digits_at_prec n) by (split; [apply Hn2|]; lia). lia.
  - destruct (Z.leb_spec (E + 1) (emax - prec)); [|split; [reflexivity | discriminate]].
    split; [|discriminate]. cbn [valid_binary]. unfold bounded, canonical_mantissa.
    apply andb_true_iff; split; [|apply Z.leb_le; lia].
    apply Z.eqb_eq.
    change (Z.pos (digits2_pos (Z.to_pos (2 ^ (prec - 1)))))
      with (Zdigits2 (Z.pos (Z.to_pos (2 ^ (prec - 1))))).
    rewrite Z2Pos.id by lia. rewrite fexp_eq.
    rewrite (digits_at_prec (2 ^ (prec - 1))) by lia. lia.
Qed.

Lemma rank_mk_float (n E : Z) :
  rounded n E ->
  rank (mk_float false n E) = Z.min (n * 2 ^ (E - emin)) INF /\
  rank (mk_float true n E) = - Z.min (n * 2 ^ (E - emin)) INF.
Proof.
  intros (HE & [Hn0 Hn1] & Hn2). unfold mk_float.
  pose proof (pow2_pos (prec - 1) ltac:(lia)) as Hq. pose proof pow2_prec as Hp.
  pose proof (pow2_pos (E - emin) ltac:(lia)) as Hpe.
  pose proof INF_pos as HI.
  destruct (Z.eqb_spec n 0) as [->|Hnz]; [cbn [rank]; lia|].
  assert (Hlim : emin <= emax - prec) by (rewrite emin_eq; lia).
  destruct (Z.ltb_spec n (2 ^ prec)) as [Hlt|Hge].
  - destruct (Z.leb_spec E (emax - prec)) as [Hle|Hgt]; cbn [rank].
    + rewrite Z2Pos.id by lia.
      assert (n * 2 ^ (E - emin) < INF).
      { unfold INF. rewrite (pow2_split (emax - emin) (E - emin)) by lia.
        assert (2 ^ prec <= 2 ^ (emax - emin - (E - emin))) by (apply Z.pow_le_mono_r; lia).
        nia. }
      lia.
    + specialize (Hn2 ltac:(lia)).
      assert (INF <= n * 2 ^ (E - emin)).
      { unfold INF. 
        assert (2 ^ (emax - emin) <= 2 ^ (prec - 1 + (E - emin))) by (apply Z.pow_le_mono_r; lia).
        rewrite Z.pow_add_r in * by lia. nia. }
      lia.
  - assert (Hn : n = 2 ^ prec) by lia.
    assert (Hv : n * 2 ^ (E - emin) = 2 ^ (prec - 1) * 2 ^ (E + 1 - emin)).
    { rewrite Hn, Hp. replace (E + 1 - emin) with (E - emin + 1) by lia.
      rewrite Z.pow_add_r, Z.pow_1_r by lia. lia. }
    destruct (Z.leb_spec (E + 1) (emax - prec)) as [Hle|Hgt]; cbn [rank].
    + rewrite Z2Pos.id by lia. rewrite <- Hv.
      assert (n * 2 ^ (E - emin) < INF).
      { rewrite Hn. unfold INF. rewrite <- Z.pow_add_r by lia.
        apply Z.pow_lt_mono_r; lia. }
      lia.
    + assert (INF <= n * 2 ^ (E - emin)).
      { rewrite Hn. unfold INF. rewrite <- Z.pow_add_r by lia.
        apply Z.pow_le_mono_r; lia. }
      lia.
Qed.

Lemma rounded_rnd_n (m e : Z) (l : location) :
  0 <= m -> e <= tgt m e -> rounded (rnd_n m e l) (tgt m e).
Proof.
  intros Hm He. destruct (rnd_n_bounds m e l Hm He) as [H1 H2].
  split; [apply tgt_ge_emin | split; assumption].
Qed.

(** The unbounded value to which a located mantissa rounds. *)
Definition rval (m e : Z) (l : location) : Z :=
  rnd_n m e l * 2 ^ (tgt m e - emin).

Lemma rank_binary_round_aux (m e : Z) (l : location) :
  0 <= m -> e <= tgt m e ->
  rank (binary_round_aux prec emax false m e l) = Z.min (rval m e l) INF /\
  rank (binary_round_aux prec emax true m e l) = - Z.min (rval m e l) INF.
Proof.
  intros Hm He. rewrite !binary_round_aux_spec by assumption.
  apply rank_mk_float, rounded_rnd_n; assumption.
Qed.

Lemma binary_round_aux_number (s : bool) (m e : Z) (l : location) :
  0 <= m -> e <= tgt m e -> number (binary_round_aux prec emax s m e l).
Proof.
  intros Hm He. rewrite binary_round_aux_spec by assumption.
  apply mk_float_valid, rounded_rnd_n; assumption.
Qed.

(** *** Monotonicity of rounding *)

Lemma tgt_mono (m1 m2 e : Z) : 0 <= m1 <= m2 -> tgt m1 e <= tgt m2 e.
Proof.
  intros H. unfold tgt. apply fexp_mono.
  pose proof (Zdigits2_le m1 m2 H). lia.
Qed.

(** Rounding into a lower binade stays below rounding into a higher one. *)
Lemma rval_tgt_lt (m1 e1 m2 e2 : Z) (l1 l2 : location) :
  0 <= m1 -> e1 <= tgt m1 e1 -> 0 <= m2 -> e2 <= tgt m2 e2 ->
  tgt m1 e1 < tgt m2 e2 -> rval m1 e1 l1 <= rval m2 e2 l2.
Proof.
  intros Hm1 He1 Hm2 He2 Hlt. unfold rval.
  destruct (rnd_n_bounds m1 e1 l1 Hm1 He1) as [[_ Hn1] _].
  destruct (rnd_n_bounds m2 e2 l2 Hm2 He2) as [_ Hn2].
  pose proof (tgt_ge_emin m1 e1) as HE1.
  specialize (Hn2 ltac:(lia)).
  pose proof (pow2_pos (tgt m1 e1 - emin) ltac:(lia)) as Hp1.
  pose proof (pow2_pos (prec - 1) ltac:(lia)) as Hq.
  assert (Hp2 : 2 * 2 ^ (tgt m1 e1 - emin) <= 2 ^ (tgt m2 e2 - emin)).
  { rewrite <- Z.pow_succ_r by lia. apply Z.pow_le_mono_r; lia. }
  pose proof pow2_prec as Hp.
  assert (rnd_n m1 e1 l1 * 2 ^ (tgt m1 e1 - emin) <= 2 ^ (prec - 1) * (2 * 2 ^ (tgt m1 e1 - emin))) by nia.
  assert (2 ^ (prec - 1) * (2 * 2 ^ (tgt m1 e1 - emin)) <= 2 ^ (prec - 1) * 2 ^ (tgt m2 e2 - emin)) by nia.
  assert (0 <= 2 ^ (tgt m2 e2 - emin)) by lia.
  nia.
Qed.

(** At one exponent, rounding is monotone in the located mantissa. *)
Lemma rval_mono (m1 m2 e : Z) (l1 l2 : location) :
  0 <= m1 -> e <= tgt m1 e -> 0 <= m2 -> e <= tgt m2 e ->
  4 * m1 + loc_code l1 <= 4 * m2 + loc_code l2 ->
  rval m1 e l1 <= rval m2 e l2.
Proof.
  intros Hm1 He1 Hm2 He2 Hc.
  pose proof (loc_code_range l1). pose proof (loc_code_range l2).
  assert (Hm : m1 <= m2) by lia.
  pose proof (tgt_mono m1 m2 e ltac:(lia)) as Ht.
  destruct (Z.eq_dec (tgt m1 e) (tgt m2 e)) as [Heq|Hne].
  - unfold rval, rnd_n. rewrite <- Heq.
    pose proof (tgt_ge_emin m1 e).
    pose proof (pow2_pos (tgt m1 e - emin) ltac:(lia)).
    apply Z.mul_le_mono_nonneg_r; [lia|].
    apply rne_mono, code_shrn_mono; rewrite ?shr_m_of_loc, ?code_of_loc; lia.
  - apply rval_tgt_lt; try assumption. lia.
Qed.

(** *** Rounding depends on the value only *)

Lemma tgt_scale (m e j : Z) :
  0 < m -> 0 <= j -> tgt (m * 2 ^ j) (e - j) = tgt m e.
Proof.
  intros Hm Hj. unfold tgt. rewrite Zdigits2_mul_pow2 by assumption.
  f_equal; lia.
Qed.

Lemma rnd_n_scale (m e j : Z) :
  0 < m -> 0 <= j -> e <= tgt m e ->
  rnd_n (m * 2 ^ j) (e - j) loc_Exact = rnd_n m e loc_Exact.
Proof.
  intros Hm Hj He. unfold rnd_n. rewrite tgt_scale by assumption.
  replace (tgt m e - (e - j)) with ((tgt m e - e) + j) by lia.
  rewrite shrn_add by lia. cbn [shr_record_of_loc].
  rewrite shrn_exact by lia. reflexivity.
Qed.

Lemma rval_scale (m e j : Z) :
  0 < m -> 0 <= j -> e <= tgt m e ->
  rval (m * 2 ^ j) (e - j) loc_Exact = rval m e loc_Exact.
Proof.
  intros Hm Hj He. unfold rval.
  rewrite rnd_n_scale, tgt_scale by assumption. reflexivity.
Qed.

(** The rounded value of the positive dyadic [m * 2^e]. *)
Definition dval (m e : Z) : Z :=
  let ez := Z.min e (tgt m e) in
  rval (m * 2 ^ (e - ez)) ez loc_Exact.

Lemma dval_any (m e e0 : Z) :
  0 < m -> e0 <= e -> e0 <= tgt m e ->
  rval (m * 2 ^ (e - e0)) e0 loc_Exact = dval m e.
Proof.
  intros Hm H1 H2. unfold dval. set (ez := Z.min e (tgt m e)).
  assert (Hz : e0 <= ez) by lia.
  assert (Hez : ez <= e) by lia.
  pose proof (pow2_pos (e - ez) ltac:(lia)) as Hp.
  replace (m * 2 ^ (e - e0)) with ((m * 2 ^ (e - ez)) * 2 ^ (ez - e0)).
  2:{ rewrite <- Z.mul_assoc, <- Z.pow_add_r by lia. do 2 f_equal; lia. }
  replace e0 with (ez - (ez - e0)) at 2 by lia.
  apply rval_scale; [nia | lia |].
  replace ez with (e - (e - ez)) at 1 3 by lia.
  rewrite tgt_scale by lia. lia.
Qed.

Lemma dval_scale (m e j : Z) :
  0 < m -> 0 <= j -> dval (m * 2 ^ j) (e - j) = dval m e.
Proof.
  intros Hm Hj.
  set (e0 := Z.min (e - j) (tgt m e)).
  pose proof (pow2_pos j Hj) as Hp.
  rewrite <- (dval_any m e e0) by lia.
  rewrite <- (dval_any (m * 2 ^ j) (e - j) e0);
    [| nia | lia | rewrite tgt_scale by assumption; lia].
  f_equal. rewrite <- Z.mul_assoc, <- Z.pow_add_r by lia. do 2 f_equal; lia.
Qed.

Lemma dval_nonneg (m e : Z) : 0 < m -> 0 <= dval m e.
Proof.
  intros Hm. unfold dval, rval. set (ez := Z.min e (tgt m e)).
  pose proof (pow2_pos (e - ez) ltac:(lia)) as Hp.
  assert (Ht : tgt (m * 2 ^ (e - ez)) ez = tgt m e).
  { replace ez with (e - (e - ez)) at 2 by lia. apply tgt_scale; lia. }
  destruct (rnd_n_bounds (m * 2 ^ (e - ez)) ez loc_Exact) as [[H0 _] _]; [nia | lia |].
  pose proof (tgt_ge_emin (m * 2 ^ (e - ez)) ez).
  pose proof (pow2_pos (tgt (m * 2 ^ (e - ez)) ez - emin) ltac:(lia)).
  nia.
Qed.

Lemma dval_mono (m1 e1 m2 e2 e0 : Z) :
  0 < m1 -> 0 < m2 -> e0 <= e1 -> e0 <= e2 ->
  m1 * 2 ^ (e1 - e0) <= m2 * 2 ^ (e2 - e0) ->
  dval m1 e1 <= dval m2 e2.
Proof.
  intros Hm1 Hm2 H1 H2 Hle.
  set (e00 := Z.min e0 (Z.min (tgt m1 e1) (tgt m2 e2))).
  rewrite <- (dval_any m1 e1 e00), <- (dval_any m2 e2 e00) by lia.
  pose proof (pow2_pos (e1 - e00) ltac:(lia)).
  pose proof (pow2_pos (e2 - e00) ltac:(lia)).
  pose proof (pow2_pos (e0 - e00) ltac:(lia)).
  assert (E1 : 2 ^ (e1 - e00) = 2 ^ (e1 - e0) * 2 ^ (e0 - e00)).
  { rewrite <- Z.pow_add_r by lia. f_equal; lia. }
  assert (E2 : 2 ^ (e2 - e00) = 2 ^ (e2 - e0) * 2 ^ (e0 - e00)).
  { rewrite <- Z.pow_add_r by lia. f_equal; lia. }
  apply rval_mono.
  - nia.
  - replace e00 with (e1 - (e1 - e00)) at 1 3 by lia. rewrite tgt_scale by lia. lia.
  - nia.
  - replace e00 with (e2 - (e2 - e00)) at 1 3 by lia. rewrite tgt_scale by lia. lia.
  - cbn [loc_code]. rewrite E1, E2. nia.
Qed.

(** The rounded value of the dyadic [z * 2^e] for any integer [z]. *)
Definition nval (z e : Z) : Z :=
  match z with
  | 0 => 0
  | Z.pos _ => Z.min (dval z e) INF
  | Z.neg _ => - Z.min (dval (- z) e) INF
  end.

Lemma nval_pos (p : positive) (e : Z) :
  nval (Z.pos p) e = Z.min (dval (Z.pos p) e) INF.
Proof. reflexivity. Qed.

Lemma nval_opp (z e : Z) : nval (- z) e = - nval z e.
Proof.
  destruct z as [|p|p]; [reflexivity | |].
  - change (- Z.pos p) with (Z.neg p). cbn [nval].
    change (- Z.neg p) with (Z.pos p). lia.
  - change (- Z.neg p) with (Z.pos p). cbn [nval].
    change (- Z.neg p) with (Z.pos p). lia.
Qed.

Lemma nval_sign (z e : Z) : (0 <= z -> 0 <= nval z e) /\ (z <= 0 -> nval z e <= 0).
Proof.
  pose proof INF_pos.
  destruct z as [|p|p]; cbn [nval]; split; intros; try lia.
  - pose proof (dval_nonneg (Z.pos p) e ltac:(lia)). lia.
  - pose proof (dval_nonneg (- Z.neg p) e ltac:(lia)). lia.
Qed.

Lemma nval_scale (z e j : Z) : 0 <= j -> nval (z * 2 ^ j) (e - j) = nval z e.
Proof.
  intros Hj. pose proof (pow2_pos j Hj) as Hp.
  destruct z as [|p|p].
  - reflexivity.
  - assert (0 < Z.pos p * 2 ^ j) by nia.
    destruct (Z.pos p * 2 ^ j) as [|q|q] eqn:E; try lia.
    cbn [nval]. rewrite <- E, dval_scale by lia. reflexivity.
  - assert (Z.neg p * 2 ^ j < 0) by nia.
    destruct (Z.neg p * 2 ^ j) as [|q|q] eqn:E; try lia.
    cbn [nval]. rewrite <- E.
    replace (- (Z.neg p * 2 ^ j)) with ((- Z.neg p) * 2 ^ j) by lia.
    rewrite dval_scale by lia. reflexivity.
Qed.

Lemma nval_mono_gen (z1 e1 z2 e2 e0 : Z) :
  e0 <= e1 -> e0 <= e2 ->
  z1 * 2 ^ (e1 - e0) <= z2 * 2 ^ (e2 - e0) ->
  nval z1 e1 <= nval z2 e2.
Proof.
  intros H1 H2 Hle.
  pose proof (pow2_pos (e1 - e0) ltac:(lia)). pose proof (pow2_pos (e2 - e0) ltac:(lia)).
  pose proof (nval_sign z1 e1) as [P1 N1]. pose proof (nval_sign z2 e2) as [P2 N2].
  destruct (Z_lt_le_dec z1 0) as [Hn1|Hp1]; destruct (Z_lt_le_dec 0 z2) as [Hp2|Hn2]; try lia.
  - destruct (Z.eq_dec z2 0) as [->|]; [lia|].
    destruct z1 as [|p1|p1]; try lia. destruct z2 as [|p2|p2]; try lia.
    cbn [nval].
    assert (dval (- Z.neg p2) e2 <= dval (- Z.neg p1) e1).
    { apply (dval_mono _ _ _ _ e0); lia. }
    lia.
  - destruct (Z.eq_dec z1 0) as [->|]; [lia|].
    destruct z1 as [|p1|p1]; try lia. destruct z2 as [|p2|p2]; try lia.
    cbn [nval].
    assert (dval (Z.pos p1) e1 <= dval (Z.pos p2) e2).
    { apply (dval_mono _ _ _ _ e0); lia. }
    lia.
Qed.

Lemma nval_mono (z1 z2 e : Z) : z1 <= z2 -> nval z1 e <= nval z2 e.
Proof.
  intros H. apply (nval_mono_gen _ _ _ _ e); try lia.
  rewrite Z.sub_diag, Z.pow_0_r. lia.
Qed.

(** *** [binary_round] and [binary_normalize] *)

Lemma pos_iter_xO (m d : positive) :
  Z.pos (Pos.iter xO m d) = Z.pos m * 2 ^ Z.pos d.
Proof.
  induction d as [|d IH] using Pos.peano_ind.
  - cbn [Pos.iter]. rewrite Z.pow_1_r. lia.
  - rewrite Pos.iter_succ, Pos2Z.inj_succ, Z.pow_succ_r by lia.
    rewrite Pos2Z.inj_xO, IH. lia.
Qed.

Lemma shl_align_spec (m : positive) (e e' : Z) :
  let ez := Z.min e e' in
  snd (shl_align m e e') = ez /\
  Z.pos (fst (shl_align m e e')) = Z.pos m * 2 ^ (e - ez).
Proof.
  cbv zeta. unfold shl_align.
  destruct (e' - e) as [|d|d] eqn:Hd; cbn [fst snd].
  - replace (Z.min e e') with e by lia. rewrite Z.sub_diag, Z.pow_0_r. lia.
  - replace (Z.min e e') with e by lia. rewrite Z.sub_diag, Z.pow_0_r. lia.
  - replace (Z.min e e') with e' by lia. split; [reflexivity|].
    rewrite pos_iter_xO. do 2 f_equal. lia.
Qed.

Lemma binary_round_spec (s : bool) (m : positive) (e : Z) :
  let ez := Z.min e (tgt (Z.pos m) e) in
  binary_round prec emax s m e =
  mk_float s (rnd_n (Z.pos m * 2 ^ (e - ez)) ez loc_Exact) (tgt (Z.pos m) e).
Proof.
  cbv zeta. unfold binary_round.
  change (fexp (Z.pos (digits2_pos m) + e)) with (tgt (Z.pos m) e).
  destruct (shl_align_spec m e (tgt (Z.pos m) e)) as [H1 H2].
  destruct (shl_align m e (tgt (Z.pos m) e)) as [mz ez']. cbn [fst snd] in H1, H2.
  rewrite H1, H2. set (ez := Z.min e (tgt (Z.pos m) e)).
  pose proof (pow2_pos (e - ez) ltac:(lia)) as Hp.
  assert (Ht : tgt (Z.pos m * 2 ^ (e - ez)) ez = tgt (Z.pos m) e).
  { replace ez with (e - (e - ez)) at 2 by lia. apply tgt_scale; lia. }
  rewrite binary_round_aux_spec; [| nia | lia].
  rewrite Ht. reflexivity.
Qed.

Lemma binary_round_number (s : bool) (m : positive) (e : Z) :
  number (binary_round prec emax s m e).
Proof.
  rewrite binary_round_spec. set (ez := Z.min e (tgt (Z.pos m) e)).
  pose proof (pow2_pos (e - ez) ltac:(lia)) as Hp.
  assert (Ht : tgt (Z.pos m * 2 ^ (e - ez)) ez = tgt (Z.pos m) e).
  { replace ez with (e - (e - ez)) at 2 by lia. apply tgt_scale; lia. }
  apply mk_float_valid. rewrite <- Ht. apply rounded_rnd_n; [nia | lia].
Qed.

Lemma rank_binary_round (m : positive) (e : Z) :
  rank (binary_round prec emax false m e) = Z.min (dval (Z.pos m) e) INF /\
  rank (binary_round prec emax true m e) = - Z.min (dval (Z.pos m) e) INF.
Proof.
  rewrite !binary_round_spec. set (ez := Z.min e (tgt (Z.pos m) e)).
  pose proof (pow2_pos (e - ez) ltac:(lia)) as Hp.
  assert (Ht : tgt (Z.pos m * 2 ^ (e - ez)) ez = tgt (Z.pos m) e).
  { replace ez with (e - (e - ez)) at 2 by lia. apply tgt_scale; lia. }
  unfold dval, rval. fold ez. rewrite Ht.
  apply rank_mk_float. rewrite <- Ht. apply rounded_rnd_n; [nia | lia].
Qed.

Lemma binary_normalize_number (z e : Z) (sz : bool) :
  number (binary_normalize prec emax z e sz).
Proof.
  destruct z; cbn [binary_normalize]; try apply binary_round_number.
  split; [reflexivity | discriminate].
Qed.

Lemma rank_binary_normalize (z e : Z) (sz : bool) :
  rank (binary_normalize prec emax z e sz) = nval z e.
Proof.
  destruct z as [|p|p]; cbn [binary_normalize nval]; [reflexivity | |].
  - apply rank_binary_round.
  - change (- Z.neg p) with (Z.pos p). apply rank_binary_round.
Qed.

(** A representable value rounds to itself. *)
Lemma binary_round_exact (s : bool) (m : positive) (e : Z) :
  bounded prec emax m e = true ->
  binary_round prec emax s m e = S754_finite s m e.
Proof.
  intros Hb. destruct (bounded_facts m e Hb) as (He & Hd & _ & Ht).
  rewrite binary_round_spec, Ht.
  replace (Z.min e e) with e by lia.
  rewrite Z.sub_diag, Z.pow_0_r, Z.mul_1_r.
  unfold rnd_n. rewrite Ht, Z.sub_diag, shrn_0. cbn [shr_record_of_loc].
  change (code {| shr_m := Z.pos m; shr_r := false; shr_s := false |})
    with (4 * Z.pos m + 2 * 0 + 0).
  replace (4 * Z.pos m + 2 * 0 + 0) with (4 * Z.pos m) by lia.
  rewrite rne_exact. unfold mk_float.
  pose proof (Zdigits2_bounds (Z.pos m) ltac:(lia)) as [_ Hm].
  assert (Z.pos m < 2 ^ prec).
  { apply Z.lt_le_trans with (1 := Hm). apply Z.pow_le_mono_r; lia. }
  zbool; try lia; reflexivity.
Qed.

Lemma dval_exact (m : positive) (e : Z) :
  bounded prec emax m e = true ->
  dval (Z.pos m) e = Z.pos m * 2 ^ (e - emin).
Proof.
  intros Hb. pose proof (proj1 (rank_binary_round m e)) as H.
  rewrite (binary_round_exact false m e Hb) in H. cbn [rank] in H.
  pose proof (finite_rank_bounds false m e Hb). lia.
Qed.

Lemma nval_exact (x : spec_float) : finite x -> nval (rank x) emin = rank x.
Proof.
  intros [Hv Hf]. destruct x as [s| | |s m e]; try contradiction; [reflexivity|].
  cbn [valid_binary] in Hv. destruct (bounded_facts m e Hv) as (He & _).
  pose proof (finite_rank_bounds s m e Hv) as Hb.
  pose proof (dval_exact m e Hv) as Hd.
  assert (Hs : nval (Z.pos m * 2 ^ (e - emin)) emin = Z.pos m * 2 ^ (e - emin)).
  { replace emin with (e - (e - emin)) at 2 by lia.
    rewrite nval_scale by lia. cbn [nval]. lia. }
  destruct s; cbn [rank]; [rewrite nval_opp|]; rewrite Hs; reflexivity.
Qed.

(** *** Negation and absolute value *)

Lemma number_SFopp (x : spec_float) : number x -> number (SFopp x).
Proof. intros [Hv Hn]; destruct x; try congruence; split; try discriminate; exact Hv. Qed.

Lemma number_SFabs (x : spec_float) : number x -> number (SFabs x).
Proof. intros [Hv Hn]; destruct x; try congruence; split; try discriminate; exact Hv. Qed.

Lemma finite_SFopp (x : spec_float) : finite x -> finite (SFopp x).
Proof. intros [Hv Hn]; destruct x; try contradiction; split; try exact I; exact Hv. Qed.

Lemma finite_SFabs (x : spec_float) : finite x -> finite (SFabs x).
Proof. intros [Hv Hn]; destruct x; try contradiction; split; try exact I; exact Hv. Qed.

Lemma rank_SFopp (x : spec_float) : rank (SFopp x) = - rank x.
Proof. destruct x as [s|s| |s m e]; cbn [SFopp rank]; try destruct s; cbn [negb]; lia. Qed.

Lemma rank_SFabs (x : spec_float) : number x -> rank (SFabs x) = Z.abs (rank x).
Proof.
  intros [Hv _]. pose proof INF_pos.
  destruct x as [s|s| |s m e]; cbn [SFabs rank]; try destruct s; lia.
Qed.

(** *** Addition and subtraction *)

Lemma aligned_sum (sx sy : bool) (mx my : positive) (ex ey : Z) (op : Z -> Z -> Z) :
  (forall a b c, op a b * c = op (a * c) (b * c)) ->
  emin <= ex -> emin <= ey ->
  let ez := Z.min ex ey in
  op (cond_Zopp sx (Z.pos (fst (shl_align mx ex ez))))
     (cond_Zopp sy (Z.pos (fst (shl_align my ey ez)))) * 2 ^ (ez - emin) =
  op (rank (S754_finite sx mx ex)) (rank (S754_finite sy my ey)).
Proof.
  intros Hop Hx Hy ez. rewrite Hop.
  destruct (shl_align_spec mx ex ez) as [_ ->].
  destruct (shl_align_spec my ey ez) as [_ ->].
  replace (Z.min ex ez) with ez by lia. replace (Z.min ey ez) with ez by lia.
  assert (Ex : Z.pos mx * 2 ^ (ex - ez) * 2 ^ (ez - emin) = Z.pos mx * 2 ^ (ex - emin)).
  { rewrite <- Z.mul_assoc, <- Z.pow_add_r by lia. do 2 f_equal; lia. }
  assert (Ey : Z.pos my * 2 ^ (ey - ez) * 2 ^ (ez - emin) = Z.pos my * 2 ^ (ey - emin)).
  { rewrite <- Z.mul_assoc, <- Z.pow_add_r by lia. do 2 f_equal; lia. }
  cbn [rank]. f_equal.
  - destruct sx; cbn [cond_Zopp]; lia.
  - destruct sy; cbn [cond_Zopp]; lia.
Qed.

Lemma SFadd_finite (x y : spec_float) :
  finite x -> finite y ->
  number (SFadd prec emax x y) /\
  rank (SFadd prec emax x y) = nval (rank x + rank y) emin.
Proof.
  intros Fx Fy. pose proof (nval_exact x Fx) as Nx. pose proof (nval_exact y Fy) as Ny.
  pose proof (finite_number x Fx) as Mx. pose proof (finite_number y Fy) as My.
  destruct Fx as [Hx Fx], Fy as [Hy Fy].
  destruct x as [sx| | |sx mx ex]; try contradiction;
    destruct y as [sy| | |sy my ey]; try contradiction.
  - split; [|destruct sx, sy; reflexivity].
    destruct sx, sy; split; try reflexivity; discriminate.
  - cbn [SFadd]. split; [exact My|].
    change (rank (S754_zero sx)) with 0. rewrite Z.add_0_l, Ny. reflexivity.
  - cbn [SFadd]. split; [exact Mx|].
    change (rank (S754_zero sy)) with 0. rewrite Z.add_0_r, Nx. reflexivity.
  - cbn [SFadd]. split; [apply binary_normalize_number|].
    rewrite rank_binary_normalize.
    cbn [valid_binary] in Hx, Hy.
    destruct (bounded_facts mx ex Hx) as (Hex & _).
    destruct (bounded_facts my ey Hy) as (Hey & _).
    rewrite <- (aligned_sum sx sy mx my ex ey Z.add) by (intros; lia).
    set (ez := Z.min ex ey).
    replace emin with (ez - (ez - emin)) at 2 by lia.
    rewrite nval_scale by lia. reflexivity.
Qed.

Lemma SFsub_finite (x y : spec_float) :
  finite x -> finite y ->
  number (SFsub prec emax x y) /\
  rank (SFsub prec emax x y) = nval (rank x - rank y) emin.
Proof.
  intros Fx Fy. pose proof (nval_exact x Fx) as Nx. pose proof (nval_exact y Fy) as Ny.
  pose proof (finite_number x Fx) as Mx. pose proof (finite_number y Fy) as My.
  destruct Fx as [Hx Fx], Fy as [Hy Fy].
  destruct x as [sx| | |sx mx ex]; try contradiction;
    destruct y as [sy| | |sy my ey]; try contradiction.
  - split; [|destruct sx, sy; reflexivity].
    destruct sx, sy; split; try reflexivity; discriminate.
  - cbn [SFsub]. split; [apply (number_SFopp _ My)|].
    change (rank (S754_zero sx)) with 0. rewrite Z.sub_0_l, nval_opp, Ny.
    apply (rank_SFopp (S754_finite sy my ey)).
  - cbn [SFsub]. split; [exact Mx|].
    change (rank (S754_zero sy)) with 0. rewrite Z.sub_0_r, Nx. reflexivity.
  - cbn [SFsub]. split; [apply binary_normalize_number|].
    rewrite rank_binary_normalize.
    cbn [valid_binary] in Hx, Hy.
    destruct (bounded_facts mx ex Hx) as (Hex & _).
    destruct (bounded_facts my ey Hy) as (Hey & _).
    rewrite <- (aligned_sum sx sy mx my ex ey Z.sub) by (intros; lia).
    set (ez := Z.min ex ey).
    replace emin with (ez - (ez - emin)) at 2 by lia.
    rewrite nval_scale by lia. reflexivity.
Qed.

(** *** Multiplication *)

Lemma Zdigits2_pow2 (k : Z) : 0 <= k -> Zdigits2 (2 ^ k) = k + 1.
Proof.
  intros Hk. pose proof (pow2_pos k Hk).
  apply Zdigits2_unique; [|lia].
  replace (k + 1 - 1) with k by lia. rewrite Z.pow_add_r, Z.pow_1_r by lia. lia.
Qed.

Lemma mul_well_formed (mx my : positive) (ex ey : Z) :
  bounded prec emax mx ex = true -> bounded prec emax my ey = true ->
  ex + ey <= tgt (Z.pos mx * Z.pos my) (ex + ey).
Proof.
  intros Hx Hy.
  destruct (bounded_facts mx ex Hx) as (Hex & Hdx & Hnx & _).
  destruct (bounded_facts my ey Hy) as (Hey & Hdy & Hny & _).
  pose proof (Zdigits2_bounds (Z.pos mx) ltac:(lia)) as [Lx _].
  pose proof (Zdigits2_bounds (Z.pos my) ltac:(lia)) as [Ly _].
  pose proof (Zdigits2_pos (Z.pos mx) ltac:(lia)) as Px.
  pose proof (Zdigits2_pos (Z.pos my) ltac:(lia)) as Py.
  set (dx := Zdigits2 (Z.pos mx)) in *. set (dy := Zdigits2 (Z.pos my)) in *.
  assert (HD : dx + dy - 1 <= Zdigits2 (Z.pos mx * Z.pos my)).
  { replace (dx + dy - 1) with (Zdigits2 (2 ^ (dx + dy - 2)))
      by (rewrite Zdigits2_pow2; lia).
    apply Zdigits2_le.
    pose proof (pow2_pos (dx - 1) ltac:(lia)). pose proof (pow2_pos (dy - 1) ltac:(lia)).
    replace (dx + dy - 2) with ((dx - 1) + (dy - 1)) by lia.
    rewrite Z.pow_add_r by lia. split; nia. }
  assert (Hemin : emin <= 0) by (rewrite emin_eq; lia).
  unfold tgt. rewrite fexp_eq.
  destruct (Z.eq_dec ex emin) as [E1|N1]; destruct (Z.eq_dec ey emin) as [E2|N2].
  - lia.
  - specialize (Hny ltac:(lia)). lia.
  - specialize (Hnx ltac:(lia)). lia.
  - specialize (Hnx ltac:(lia)). lia.
Qed.

Lemma SFmul_finite (x y : spec_float) :
  finite x -> finite y ->
  number (SFmul prec emax x y) /\
  rank (SFmul prec emax x y) = nval (rank x * rank y) (2 * emin).
Proof.
  intros [Hx Fx] [Hy Fy].
  destruct x as [sx| | |sx mx ex]; try contradiction;
    destruct y as [sy| | |sy my ey]; try contradiction;
    cbn [SFmul rank].
  1-3: rewrite ?Z.mul_0_l, ?Z.mul_0_r; split; [split; [reflexivity|discriminate]|reflexivity].
  cbn [valid_binary] in Hx, Hy.
  pose proof (mul_well_formed mx my ex ey Hx Hy) as Hwf.
  destruct (bounded_facts mx ex Hx) as (Hex & _).
  destruct (bounded_facts my ey Hy) as (Hey & _).
  rewrite Pos2Z.inj_mul.
  split; [apply binary_round_aux_number; [lia | exact Hwf]|].
  destruct (rank_binary_round_aux (Z.pos mx * Z.pos my) (ex + ey) loc_Exact ltac:(lia) Hwf)
    as [Rp Rn].
  assert (Hd : rval (Z.pos mx * Z.pos my) (ex + ey) loc_Exact = dval (Z.pos mx * Z.pos my) (ex + ey)).
  { rewrite <- (dval_any _ (ex + ey) (ex + ey)) by lia.
    rewrite Z.sub_diag, Z.pow_0_r, Z.mul_1_r. reflexivity. }
  rewrite Hd in Rp, Rn.
  assert (Hs : forall z, nval (z * 2 ^ (ex + ey - 2 * emin)) (2 * emin) = nval z (ex + ey)).
  { intros z. replace (2 * emin) with (ex + ey - (ex + ey - 2 * emin)) at 2 by lia.
    apply nval_scale; lia. }
  assert (Hpw : 2 ^ (ex - emin) * 2 ^ (ey - emin) = 2 ^ (ex + ey - 2 * emin)).
  { rewrite <- Z.pow_add_r by lia. f_equal; lia. }
  assert (Hpp : nval (Z.pos mx * Z.pos my) (ex + ey) = Z.min (dval (Z.pos mx * Z.pos my) (ex + ey)) INF).
  { reflexivity. }
  destruct sx, sy; cbn [xorb].
  - rewrite Rp. replace (- (Z.pos mx * 2 ^ (ex - emin)) * - (Z.pos my * 2 ^ (ey - emin)))
      with ((Z.pos mx * Z.pos my) * 2 ^ (ex + ey - 2 * emin)) by (rewrite <- Hpw; lia).
    rewrite Hs, Hpp. reflexivity.
  - rewrite Rn. replace (- (Z.pos mx * 2 ^ (ex - emin)) * (Z.pos my * 2 ^ (ey - emin)))
      with ((- (Z.pos mx * Z.pos my)) * 2 ^ (ex + ey - 2 * emin)) by (rewrite <- Hpw; lia).
    rewrite Hs, nval_opp, Hpp. reflexivity.
  - rewrite Rn. replace ((Z.pos mx * 2 ^ (ex - emin)) * - (Z.pos my * 2 ^ (ey - emin)))
      with ((- (Z.pos mx * Z.pos my)) * 2 ^ (ex + ey - 2 * emin)) by (rewrite <- Hpw; lia).
    rewrite Hs, nval_opp, Hpp. reflexivity.
  - rewrite Rp. replace ((Z.pos mx * 2 ^ (ex - emin)) * (Z.pos my * 2 ^ (ey - emin)))
      with ((Z.pos mx * Z.pos my) * 2 ^ (ex + ey - 2 * emin)) by (rewrite <- Hpw; lia).
    rewrite Hs, Hpp. reflexivity.
Qed.

(** *** Division *)

Lemma new_location_zero (nb : Z) : new_location nb 0 = loc_Exact.
Proof.
  unfold new_location, new_location_even, new_location_odd.
  destruct (Z.even nb); reflexivity.
Qed.

Lemma shift_match (m s : Z) :
  0 <= s ->
  match s with Z.pos _ => Z.shiftl m s | 0 => m | Z.neg _ => 0 end = m * 2 ^ s.
Proof.
  intros Hs.
  destruct s as [|p|p];
    [rewrite Z.pow_0_r; lia | apply Z.shiftl_mul_pow2; lia | lia].
Qed.

(** What the division core returns for two positive mantissas. *)
Lemma SFdiv_core_binary_spec (mx my : positive) (ex ey : Z) :
  exists q r e',
    SFdiv_core_binary prec emax (Z.pos mx) ex (Z.pos my) ey = (q, e', new_location (Z.pos my) r) /\
    e' = Z.min (fexp (Zdigits2 (Z.pos mx) + ex - (Zdigits2 (Z.pos my) + ey))) (ex - ey) /\
    Z.pos mx * 2 ^ (ex - ey - e') = Z.pos my * q + r /\
    0 <= r < Z.pos my /\ 0 <= q /\ e' <= tgt q e'.
Proof.
  unfold SFdiv_core_binary.
  set (d1 := Zdigits2 (Z.pos mx)). set (d2 := Zdigits2 (Z.pos my)).
  set (e' := Z.min (fexp (d1 + ex - (d2 + ey))) (ex - ey)).
  set (s := ex - ey - e').
  assert (Hs : 0 <= s) by (subst s; lia).
  set (m' := match s with Z.pos _ => Z.shiftl (Z.pos mx) s | 0 => Z.pos mx | Z.neg _ => 0 end).
  assert (Hm' : m' = Z.pos mx * 2 ^ s).
  { subst m'. apply shift_match. exact Hs. }
  pose proof (Z_div_mod m' (Z.pos my) ltac:(lia)) as Hdm.
  destruct (Z.div_eucl m' (Z.pos my)) as [q r]. destruct Hdm as [Hdm Hr].
  pose proof (pow2_pos s Hs) as Hps.
  assert (Hq : 0 <= q) by nia.
  exists q, r, e'. repeat split; try lia.
  - rewrite <- Hdm, Hm'. reflexivity.
  - unfold tgt. apply Z.le_trans with (fexp (d1 + ex - (d2 + ey))); [lia|].
    apply fexp_mono.
    pose proof (Zdigits2_nonneg q) as Hdq.
    destruct (Z_le_gt_dec (d1 - d2 + s) 0) as [Hk|Hk]; [lia|].
    pose proof (Zdigits2_bounds (Z.pos mx) ltac:(lia)) as [Lx _]. fold d1 in Lx.
    pose proof (Zdigits2_bounds (Z.pos my) ltac:(lia)) as [_ Uy]. fold d2 in Uy.
    pose proof (Zdigits2_pos (Z.pos mx) ltac:(lia)) as P1. fold d1 in P1.
    pose proof (Zdigits2_pos (Z.pos my) ltac:(lia)) as P2. fold d2 in P2.
    assert (Hql : 2 ^ (d1 - d2 + s - 1) <= q).
    { destruct (Z_le_gt_dec (2 ^ (d1 - d2 + s - 1)) q) as [|Hlt]; [assumption|exfalso].
      assert (H1 : Z.pos my * (q + 1) <= Z.pos my * 2 ^ (d1 - d2 + s - 1)) by nia.
      pose proof (pow2_pos (d1 - d2 + s - 1) ltac:(lia)) as Hpk.
      assert (H2 : Z.pos my * 2 ^ (d1 - d2 + s - 1) < 2 ^ d2 * 2 ^ (d1 - d2 + s - 1)) by nia.
      rewrite <- Z.pow_add_r in H2 by lia.
      replace (d2 + (d1 - d2 + s - 1)) with ((d1 - 1) + s) in H2 by lia.
      rewrite Z.pow_add_r in H2 by lia.
      assert (H3 : 2 ^ (d1 - 1) * 2 ^ s <= Z.pos mx * 2 ^ s) by nia.
      nia. }
    pose proof (pow2_pos (d1 - d2 + s - 1) ltac:(lia)) as Hpk.
    assert (Hdq2 : d1 - d2 + s <= Zdigits2 q).
    { replace (d1 - d2 + s) with (Zdigits2 (2 ^ (d1 - d2 + s - 1)))
        by (rewrite Zdigits2_pow2; lia).
      apply Zdigits2_le; lia. }
    subst s. lia.
Qed.

(** A quotient does not exceed a representable bound on the exact ratio. *)
Lemma SFdiv_upper (x b : spec_float) (my : positive) (ey : Z) :
  finite x -> 0 <= rank x -> rank x <> 0 \/ x = S754_zero false ->
  bounded prec emax my ey = true ->
  finite b -> 0 < rank b ->
  rank x * 2 ^ (- emin) <= rank b * (Z.pos my * 2 ^ (ey - emin)) ->
  number (SFdiv prec emax x (S754_finite false my ey)) /\
  0 <= rank (SFdiv prec emax x (S754_finite false my ey)) <= rank b.
Proof.
  intros [Hx Fx] Hx0 Hxs Hy [Hb Fb] Hb0 Hle.
  destruct x as [sx| | |sx mx ex]; try contradiction.
  { cbn [SFdiv rank]. split; [split; [reflexivity|discriminate]|lia]. }
  destruct b as [sb| | |sb mb eb]; try contradiction; [cbn [rank] in Hb0; lia|].
  cbn [valid_binary] in Hx, Hb.
  pose proof (finite_rank_bounds sx mx ex Hx) as Bx.
  pose proof (finite_rank_bounds sb mb eb Hb) as Bb.
  destruct sx; [cbn [rank] in Hx0; lia|].
  destruct sb; [cbn [rank] in Hb0; lia|].
  cbn [rank] in Hle.
  destruct (bounded_facts mx ex Hx) as (Hex & Hdx & _ & _).
  destruct (bounded_facts my ey Hy) as (Hey & Hdy & _ & _).
  destruct (bounded_facts mb eb Hb) as (Heb & Hdb & _ & Htb).
  cbn [SFdiv].
  destruct (SFdiv_core_binary_spec mx my ex ey) as (q & r & e' & Hc & He' & Hqr & Hr & Hq & Hwf).
  rewrite Hc. cbn [xorb].
  split; [apply binary_round_aux_number; assumption|].
  destruct (rank_binary_round_aux q e' (new_location (Z.pos my) r) Hq Hwf) as [-> _].
  pose proof INF_pos as HI.
  assert (Hemin : emin <= 0) by (rewrite emin_eq; lia).
  set (d1 := Zdigits2 (Z.pos mx)) in *. set (d2 := Zdigits2 (Z.pos my)) in *.
  set (db := Zdigits2 (Z.pos mb)) in *.
  pose proof (Zdigits2_bounds (Z.pos mx) ltac:(lia)) as [Lx _]. fold d1 in Lx.
  pose proof (Zdigits2_bounds (Z.pos my) ltac:(lia)) as [_ Uy]. fold d2 in Uy.
  pose proof (Zdigits2_bounds (Z.pos mb) ltac:(lia)) as [_ Ub]. fold db in Ub.
  pose proof (Zdigits2_pos (Z.pos mx) ltac:(lia)) as P1. fold d1 in P1.
  pose proof (Zdigits2_pos (Z.pos my) ltac:(lia)) as P2. fold d2 in P2.
  pose proof (Zdigits2_pos (Z.pos mb) ltac:(lia)) as P3. fold db in P3.
  (* the magnitudes *)
  assert (Hmag : d1 + ex - (d2 + ey) <= db + eb).
  { assert (H1 : 2 ^ (d1 - 1) * 2 ^ (ex - emin) * 2 ^ (- emin) <=
                 Z.pos mx * 2 ^ (ex - emin) * 2 ^ (- emin)).
    { pose proof (pow2_pos (ex - emin) ltac:(lia)). pose proof (pow2_pos (- emin) ltac:(lia)).
      apply Z.mul_le_mono_nonneg_r; [lia|].
      apply Z.mul_le_mono_nonneg_r; [lia | exact Lx]. }
    assert (H2 : Z.pos mb * 2 ^ (eb - emin) * (Z.pos my * 2 ^ (ey - emin)) <
                 2 ^ db * 2 ^ (eb - emin) * (2 ^ d2 * 2 ^ (ey - emin))).
    { pose proof (pow2_pos (eb - emin) ltac:(lia)). pose proof (pow2_pos (ey - emin) ltac:(lia)).
      apply Z.mul_lt_mono_nonneg.
      - apply Z.mul_nonneg_nonneg; lia.
      - apply Z.mul_lt_mono_pos_r; [lia | exact Ub].
      - apply Z.mul_nonneg_nonneg; lia.
      - apply Z.mul_lt_mono_pos_r; [lia | exact Uy]. }
    rewrite <- !Z.pow_add_r in H1 by lia. rewrite <- !Z.pow_add_r in H2 by lia.
    assert (H3 : 2 ^ (d1 - 1 + (ex - emin) + - emin) < 2 ^ (db + (eb - emin) + (d2 + (ey - emin)))) by lia.
    apply Z.pow_lt_mono_r_iff in H3; lia. }
  assert (He'b : e' <= eb).
  { unfold tgt in Htb. rewrite <- Htb. fold db. rewrite He'.
    apply Z.le_trans with (fexp (d1 + ex - (d2 + ey))); [lia|].
    apply fexp_mono. lia. }
  set (M := Z.pos mb * 2 ^ (eb - e')).
  pose proof (pow2_pos (eb - e') ltac:(lia)) as HpM.
  assert (HM : 0 < M) by (subst M; apply Z.mul_pos_pos; lia).
  (* the exact inequality at the exponent of the quotient *)
  assert (Hlin : Z.pos my * q + r <= M * Z.pos my).
  { rewrite <- Hqr. subst M.
    set (t := ey + e' - 2 * emin).
    assert (Ht : 0 <= t).
    { subst t. rewrite He'. pose proof (fexp_ge_emin (d1 + ex - (d2 + ey))). lia. }
    pose proof (pow2_pos t Ht) as Hpt.
    assert (E1 : Z.pos mx * 2 ^ (ex - emin) * 2 ^ (- emin) = Z.pos mx * 2 ^ (ex - ey - e') * 2 ^ t).
    { rewrite <- !Z.mul_assoc, <- !Z.pow_add_r by (subst t; lia).
      do 2 f_equal. subst t. lia. }
    assert (E2 : Z.pos mb * 2 ^ (eb - emin) * (Z.pos my * 2 ^ (ey - emin)) =
                 Z.pos mb * 2 ^ (eb - e') * Z.pos my * 2 ^ t).
    { replace (Z.pos mb * 2 ^ (eb - emin) * (Z.pos my * 2 ^ (ey - emin)))
        with (Z.pos mb * Z.pos my * (2 ^ (eb - emin) * 2 ^ (ey - emin))) by lia.
      replace (Z.pos mb * 2 ^ (eb - e') * Z.pos my * 2 ^ t)
        with (Z.pos mb * Z.pos my * (2 ^ (eb - e') * 2 ^ t)) by lia.
      rewrite <- !Z.pow_add_r by (subst t; lia).
      do 2 f_equal. subst t. lia. }
    rewrite E1, E2 in Hle.
    apply (proj2 (Z.mul_le_mono_pos_r _ _ (2 ^ t) Hpt)). exact Hle. }
  assert (Hcode : 4 * q + loc_code (new_location (Z.pos my) r) <= 4 * M + loc_code loc_Exact).
  { pose proof (loc_code_range (new_location (Z.pos my) r)) as Hl. cbn [loc_code].
    destruct (Z.eq_dec q M) as [->|Hne].
    - assert (r = 0) by lia. subst r. rewrite new_location_zero. cbn [loc_code]. lia.
    - assert (q <= M).
      { apply (proj2 (Z.mul_le_mono_pos_l q M (Z.pos my) ltac:(lia))). lia. }
      lia. }
  assert (HwM : e' <= tgt M e').
  { subst M. replace e' with (eb - (eb - e')) at 1 3 by lia.
    rewrite tgt_scale by lia. lia. }
  pose proof (rval_mono q M e' _ loc_Exact Hq Hwf ltac:(lia) HwM Hcode) as Hmono.
  assert (HvM : rval M e' loc_Exact = Z.pos mb * 2 ^ (eb - emin)).
  { subst M. rewrite dval_any; [apply dval_exact; exact Hb | lia | lia | lia]. }
  assert (0 <= rval q e' (new_location (Z.pos my) r)).
  { unfold rval. destruct (rnd_n_bounds q e' (new_location (Z.pos my) r) Hq Hwf) as [[H0 _] _].
    pose proof (tgt_ge_emin q e'). pose proof (pow2_pos (tgt q e' - emin) ltac:(lia)).
    apply Z.mul_nonneg_nonneg; lia. }
  cbn [rank]. lia.
Qed.

(** *** Square root *)

Definition sqrt_loc (q r : Z) : location :=
  if r =? 0 then loc_Exact else loc_Inexact (if r <=? q then Lt else Gt).

Lemma sqrt_loc_mono (q r1 r2 : Z) :
  0 <= r1 <= r2 -> loc_code (sqrt_loc q r1) <= loc_code (sqrt_loc q r2).
Proof. intros H. unfold sqrt_loc. zbool; cbn [loc_code]; lia. Qed.

Lemma SFsqrt_core_binary_spec (m : positive) (e : Z) :
  bounded prec emax m e = true ->
  exists q r e',
    SFsqrt_core_binary prec emax (Z.pos m) e = (q, e', sqrt_loc q r) /\
    e' = fexp ((Zdigits2 (Z.pos m) + e + 1) / 2) /\
    0 <= e - 2 * e' /\
    Z.pos m * 2 ^ (e - 2 * e') = q * q + r /\ 0 <= r <= 2 * q /\
    0 < q /\ tgt q e' = e'.
Proof.
  intros Hb. destruct (bounded_facts m e Hb) as (He & Hd & _ & _).
  assert (Hemin : emin < 0) by (rewrite emin_eq; lia).
  pose proof (Zdigits2_pos (Z.pos m) ltac:(lia)) as Pd.
  pose proof (Zdigits2_bounds (Z.pos m) ltac:(lia)) as [Lm Um].
  unfold SFsqrt_core_binary. rewrite !Z.div2_div.
  set (d := Zdigits2 (Z.pos m)) in *.
  set (j := (d + e + 1) / 2).
  assert (He' : Z.min (fexp j) (e / 2) = fexp j).
  { rewrite fexp_eq. subst j. Z.to_euclidean_division_equations. lia. }
  rewrite He'. set (e' := fexp j).
  assert (Hs : 0 <= e - 2 * e').
  { subst e'. rewrite fexp_eq. subst j. Z.to_euclidean_division_equations. lia. }
  rewrite (shift_match (Z.pos m) (e - 2 * e') Hs).
  set (s := e - 2 * e') in *. set (m' := Z.pos m * 2 ^ s).
  pose proof (pow2_pos s Hs) as Hps.
  assert (Hm' : 0 < m') by (subst m'; nia).
  pose proof (Z.sqrtrem_spec m' ltac:(lia)) as Hsq.
  destruct (Z.sqrtrem m') as [q r]. destruct Hsq as [Hsq Hr].
  set (D := d + s).
  set (h := (D + 1) / 2).
  assert (Hh : 1 <= h /\ D <= 2 * h /\ 2 * h - 2 <= D - 1).
  { subst h D. Z.to_euclidean_division_equations. lia. }
  assert (LD : 2 ^ (D - 1) <= m').
  { subst D m'. replace (d + s - 1) with ((d - 1) + s) by lia.
    rewrite Z.pow_add_r by lia. nia. }
  assert (UD : m' < 2 ^ D).
  { subst D m'. rewrite Z.pow_add_r by lia. nia. }
  assert (Hq0 : 0 <= q) by lia.
  pose proof (pow2_pos (h - 1) ltac:(lia)) as Hph.
  assert (Hqu : q < 2 ^ h).
  { destruct (Z_lt_le_dec q (2 ^ h)) as [|Hge]; [assumption|exfalso].
    assert (2 ^ h * 2 ^ h <= q * q) by (apply Z.mul_le_mono_nonneg; lia).
    rewrite <- Z.pow_add_r in H by lia.
    assert (2 ^ D <= 2 ^ (h + h)) by (apply Z.pow_le_mono_r; lia).
    nia. }
  assert (Hql : 2 ^ (h - 1) <= q).
  { destruct (Z_le_gt_dec (2 ^ (h - 1)) q) as [|Hlt]; [assumption|exfalso].
    assert ((q + 1) * (q + 1) <= 2 ^ (h - 1) * 2 ^ (h - 1))
      by (apply Z.mul_le_mono_nonneg; lia).
    rewrite <- Z.pow_add_r in H by lia.
    assert (2 ^ (h - 1 + (h - 1)) <= 2 ^ (D - 1)) by (apply Z.pow_le_mono_r; lia).
    nia. }
  exists q, r, e'. split; [reflexivity|]. split; [reflexivity|].
  split; [exact Hs|]. split; [exact Hsq|]. split; [exact Hr|]. split; [lia|].
  unfold tgt. rewrite (Zdigits2_unique q h) by lia.
  assert (Hj : h + e' = j).
  { assert (Es : s = e - 2 * e') by reflexivity.
    assert (Eh : h = (d + s + 1) / 2) by reflexivity.
    assert (Ej : j = (d + e + 1) / 2) by reflexivity.
    clearbody h j s. clear - Es Eh Ej.
    Z.to_euclidean_division_equations. lia. }
  rewrite Hj. reflexivity.
Qed.

Lemma SFsqrt_finite_pos (m : positive) (e : Z) :
  bounded prec emax m e = true ->
  exists q r e',
    e' = fexp ((Zdigits2 (Z.pos m) + e + 1) / 2) /\
    0 <= e - 2 * e' /\
    Z.pos m * 2 ^ (e - 2 * e') = q * q + r /\ 0 <= r <= 2 * q /\
    0 < q /\ tgt q e' = e' /\
    number (SFsqrt prec emax (S754_finite false m e)) /\
    rank (SFsqrt prec emax (S754_finite false m e)) = Z.min (rval q e' (sqrt_loc q r)) INF.
Proof.
  intros Hb.
  destruct (SFsqrt_core_binary_spec m e Hb) as (q & r & e' & Hc & He' & Hs & Hqr & Hr & Hq & Ht).
  exists q, r, e'. repeat split; try assumption; try lia; cbn [SFsqrt]; rewrite Hc.
  - apply (binary_round_aux_number false q e' (sqrt_loc q r)); lia.
  - destruct (binary_round_aux_number false q e' (sqrt_loc q r)); [lia | lia | assumption].
  - apply rank_binary_round_aux; lia.
Qed.

Lemma rval_nonneg (m e : Z) (l : location) :
  0 <= m -> e <= tgt m e -> 0 <= rval m e l.
Proof.
  intros Hm He. unfold rval. destruct (rnd_n_bounds m e l Hm He) as [[H0 _] _].
  pose proof (tgt_ge_emin m e). pose proof (pow2_pos (tgt m e - emin) ltac:(lia)). nia.
Qed.

Lemma SFsqrt_mono_finite (m1 m2 : positive) (e1 e2 : Z) :
  bounded prec emax m1 e1 = true -> bounded prec emax m2 e2 = true ->
  Z.pos m1 * 2 ^ (e1 - emin) <= Z.pos m2 * 2 ^ (e2 - emin) ->
  rank (SFsqrt prec emax (S754_finite false m1 e1)) <=
  rank (SFsqrt prec emax (S754_finite false m2 e2)).
Proof.
  intros H1 H2 Hle.
  destruct (SFsqrt_finite_pos m1 e1 H1) as (q1 & r1 & e1' & He1' & Hs1 & Hqr1 & Hr1 & Hq1 & Ht1 & _ & ->).
  destruct (SFsqrt_finite_pos m2 e2 H2) as (q2 & r2 & e2' & He2' & Hs2 & Hqr2 & Hr2 & Hq2 & Ht2 & _ & ->).
  apply Z.min_le_compat_r.
  destruct (bounded_facts m1 e1 H1) as (Hb1 & _).
  destruct (bounded_facts m2 e2 H2) as (Hb2 & _).
  set (d1 := Zdigits2 (Z.pos m1)) in *. set (d2 := Zdigits2 (Z.pos m2)) in *.
  pose proof (Zdigits2_bounds (Z.pos m1) ltac:(lia)) as [L1 _]. fold d1 in L1.
  pose proof (Zdigits2_bounds (Z.pos m2) ltac:(lia)) as [_ U2]. fold d2 in U2.
  pose proof (Zdigits2_pos (Z.pos m1) ltac:(lia)) as P1. fold d1 in P1.
  pose proof (Zdigits2_pos (Z.pos m2) ltac:(lia)) as P2. fold d2 in P2.
  assert (Hmag : d1 + e1 <= d2 + e2).
  { assert (A : 2 ^ (d1 - 1) * 2 ^ (e1 - emin) <= Z.pos m1 * 2 ^ (e1 - emin)).
    { pose proof (pow2_pos (e1 - emin) ltac:(lia)). nia. }
    assert (B : Z.pos m2 * 2 ^ (e2 - emin) < 2 ^ d2 * 2 ^ (e2 - emin)).
    { pose proof (pow2_pos (e2 - emin) ltac:(lia)). nia. }
    rewrite <- Z.pow_add_r in A, B by lia.
    assert (C : 2 ^ (d1 - 1 + (e1 - emin)) < 2 ^ (d2 + (e2 - emin))) by lia.
    apply Z.pow_lt_mono_r_iff in C; lia. }
  assert (He12 : e1' <= e2').
  { rewrite He1', He2'. apply fexp_mono. apply Z.div_le_mono; lia. }
  destruct (Z.eq_dec e1' e2') as [Heq|Hne].
  - rewrite <- Heq in *. clear Heq He12.
    assert (Hm : q1 * q1 + r1 <= q2 * q2 + r2).
    { rewrite <- Hqr1, <- Hqr2.
      destruct (Z_le_gt_dec (2 * e1') emin) as [Hc|Hc].
      - assert (E1 : 2 ^ (e1 - 2 * e1') = 2 ^ (e1 - emin) * 2 ^ (emin - 2 * e1')).
        { rewrite <- Z.pow_add_r by lia. f_equal; lia. }
        assert (E2 : 2 ^ (e2 - 2 * e1') = 2 ^ (e2 - emin) * 2 ^ (emin - 2 * e1')).
        { rewrite <- Z.pow_add_r by lia. f_equal; lia. }
        pose proof (pow2_pos (emin - 2 * e1') ltac:(lia)).
        rewrite E1, E2. nia.
      - assert (E1 : 2 ^ (e1 - emin) = 2 ^ (e1 - 2 * e1') * 2 ^ (2 * e1' - emin)).
        { rewrite <- Z.pow_add_r by lia. f_equal; lia. }
        assert (E2 : 2 ^ (e2 - emin) = 2 ^ (e2 - 2 * e1') * 2 ^ (2 * e1' - emin)).
        { rewrite <- Z.pow_add_r by lia. f_equal; lia. }
        pose proof (pow2_pos (2 * e1' - emin) ltac:(lia)).
        rewrite E1, E2 in Hle. nia. }
    assert (Hq : q1 <= q2) by nia.
    apply rval_mono; try lia.
    pose proof (loc_code_range (sqrt_loc q1 r1)). pose proof (loc_code_range (sqrt_loc q2 r2)).
    destruct (Z.eq_dec q1 q2) as [->|]; [|lia].
    pose proof (sqrt_loc_mono q2 r1 r2 ltac:(lia)). lia.
  - apply rval_tgt_lt; lia.
Qed.

Lemma SFsqrt_sign (x : spec_float) :
  SFltb (SFsqrt prec emax x) (S754_zero false) = false.
Proof.
  destruct x as [s|[]| |[] m e]; try reflexivity.
  cbn [SFsqrt]. destruct (SFsqrt_core_binary prec emax (Z.pos m) e) as [[q e'] l].
  unfold binary_round_aux.
  destruct (shr_fexp prec emax q e' l) as [mrs1 e1].
  destruct (shr_fexp prec emax _ e1 loc_Exact) as [mrs2 e2].
  destruct (shr_m mrs2); try reflexivity.
  destruct (e2 <=? emax - prec); reflexivity.
Qed.

Lemma SFsqrt_mono (x1 x2 : spec_float) :
  number x1 -> number x2 -> 0 <= rank x1 <= rank x2 ->
  number (SFsqrt prec emax x1) /\ number (SFsqrt prec emax x2) /\
  0 <= rank (SFsqrt prec emax x1) <= rank (SFsqrt prec emax x2).
Proof.
  intros N1 N2 [H0 H12]. pose proof INF_pos as HI.
  assert (Hn : forall x, number x -> 0 <= rank x ->
                 number (SFsqrt prec emax x) /\ 0 <= rank (SFsqrt prec emax x) /\
                 (forall s, x = S754_zero s -> rank (SFsqrt prec emax x) = 0) /\
                 (x = S754_infinity false -> rank (SFsqrt prec emax x) = INF)).
  { intros x [Hv Hn] Hr. destruct x as [s|s| |s m e]; try congruence.
    - repeat split; try discriminate; cbn [SFsqrt rank]; lia.
    - destruct s; [cbn [rank] in Hr; lia|].
      repeat split; try discriminate; cbn [SFsqrt rank]; lia.
    - cbn [valid_binary] in Hv. pose proof (finite_rank_bounds s m e Hv).
      destruct s; [cbn [rank] in Hr; lia|].
      destruct (SFsqrt_finite_pos m e Hv) as (q & r & e' & _ & _ & _ & _ & Hq & Ht & Hnum & Hrk).
      split; [exact Hnum|]. split; [|split; [discriminate..]].
      { rewrite Hrk. pose proof (rval_nonneg q e' (sqrt_loc q r) ltac:(lia) ltac:(lia)). lia. } }
  destruct (Hn x1 N1 H0) as (M1 & R1 & Z1 & I1).
  destruct (Hn x2 N2 ltac:(lia)) as (M2 & R2 & Z2 & I2).
  split; [exact M1|]. split; [exact M2|]. split; [exact R1|].
  pose proof (rank_abs_le_INF _ M1) as B1.
  destruct N1 as [V1 NN1], N2 as [V2 NN2].
  destruct x1 as [s1|s1| |s1 m1 e1]; try congruence.
  - rewrite (Z1 s1 eq_refl). exact R2.
  - destruct s1; [cbn [rank] in H0; lia|].
    destruct x2 as [s2|s2| |s2 m2 e2]; try congruence; cbn [rank] in H12; try lia.
    + destruct s2; [lia|]. lia.
    + cbn [valid_binary] in V2. pose proof (finite_rank_bounds s2 m2 e2 V2).
      destruct s2; lia.
  - cbn [valid_binary] in V1. pose proof (finite_rank_bounds s1 m1 e1 V1).
    destruct s1; [cbn [rank] in H0; lia|].
    destruct x2 as [s2|s2| |s2 m2 e2]; try congruence; cbn [rank] in H12; try lia.
    + destruct s2; [lia|]. rewrite (I2 eq_refl). lia.
    + cbn [valid_binary] in V2. pose proof (finite_rank_bounds s2 m2 e2 V2).
      destruct s2; [lia|].
      apply SFsqrt_mono_finite; assumption.
Qed.

End Rounding.

Unset Default Proof Using.


(** * binary64 *)

Section Binary64.

Lemma prec_gt_1 : 1 < prec.
Proof. reflexivity. Qed.

Lemma prec_lt_emax : prec < emax.
Proof. reflexivity. Qed.

Local Abbreviation rk := (rank prec emax).
Local Abbreviation num64 := (number prec emax).
Local Abbreviation fin64 := (finite prec emax).
Local Abbreviation inf64 := (INF prec emax).
Local Abbreviation emin64 := (SpecFloat.emin prec emax).

Lemma leb_rank (x y : float) : num64 x -> num64 y -> leb x y = (rk x <=? rk y).
Proof. apply (SFleb_rank prec emax prec_gt_1 prec_lt_emax). Qed.

Lemma ltb_rank (x y : float) : num64 x -> num64 y -> ltb x y = (rk x <? rk y).
Proof. apply (SFltb_rank prec emax prec_gt_1 prec_lt_emax). Qed.

Lemma eqb_rank (x y : float) : num64 x -> num64 y -> eqb x y = (rk x =? rk y).
Proof. apply (SFeqb_rank prec emax prec_gt_1 prec_lt_emax). Qed.

Lemma rk_range (x : float) : num64 x -> - inf64 <= rk x <= inf64.
Proof. apply (rank_abs_le_INF prec emax prec_gt_1 prec_lt_emax). Qed.

Lemma fin64_num64 (x : float) : fin64 x -> num64 x.
Proof. apply (finite_number prec emax prec_gt_1 prec_lt_emax). Qed.

Lemma fin64_range (x : float) : fin64 x -> - inf64 < rk x < inf64.
Proof.
  intros [Hv Hf]. pose proof (INF_pos prec emax prec_gt_1 prec_lt_emax).
  destruct x as [s| | |s m e]; try contradiction; cbn [rank]; [lia|].
  pose proof (finite_rank_bounds prec emax prec_gt_1 prec_lt_emax s m e Hv).
  destruct s; lia.
Qed.

Lemma num64_fin64 (x : float) : num64 x -> - inf64 < rk x < inf64 -> fin64 x.
Proof.
  intros [Hv Hn] Hr. split; [exact Hv|].
  destruct x as [s|s| |s m e]; try congruence; try exact I.
  destruct s; cbn [rank] in Hr; lia.
Qed.

(** A number of rank zero is a zero. *)
Lemma rk_zero_inv (x : float) : num64 x -> rk x = 0 -> exists s, x = S754_zero s.
Proof.
  intros [Hv Hn] Hr. pose proof (INF_pos prec emax prec_gt_1 prec_lt_emax).
  destruct x as [s|s| |s m e]; try congruence.
  - now exists s.
  - destruct s; cbn [rank] in Hr; lia.
  - pose proof (finite_rank_bounds prec emax prec_gt_1 prec_lt_emax s m e Hv).
    destruct s; cbn [rank] in Hr; lia.
Qed.

Lemma add_finite (x y : float) :
  fin64 x -> fin64 y ->
  num64 (add x y) /\ rk (add x y) = nval prec emax (rk x + rk y) emin64.
Proof. apply (SFadd_finite prec emax prec_gt_1 prec_lt_emax). Qed.

Lemma sub_finite (x y : float) :
  fin64 x -> fin64 y ->
  num64 (sub x y) /\ rk (sub x y) = nval prec emax (rk x - rk y) emin64.
Proof. apply (SFsub_finite prec emax prec_gt_1 prec_lt_emax). Qed.

Lemma mul_finite (x y : float) :
  fin64 x -> fin64 y ->
  num64 (mul x y) /\ rk (mul x y) = nval prec emax (rk x * rk y) (2 * emin64).
Proof. apply (SFmul_finite prec emax prec_gt_1 prec_lt_emax). Qed.

Lemma nval64_mono (z1 z2 e : Z) : z1 <= z2 -> nval prec emax z1 e <= nval prec emax z2 e.
Proof. apply (nval_mono prec emax prec_gt_1 prec_lt_emax). Qed.

Lemma nval64_exact (x : float) : fin64 x -> nval prec emax (rk x) emin64 = rk x.
Proof. apply (nval_exact prec emax prec_gt_1 prec_lt_emax). Qed.

(** Addition of a finite term to a number is monotone in both arguments. *)
Lemma add_mono (a1 a2 x1 x2 : float) :
  num64 a1 -> num64 a2 -> fin64 x1 -> fin64 x2 ->
  rk a1 <= rk a2 -> rk x1 <= rk x2 ->
  num64 (add a1 x1) /\ num64 (add a2 x2) /\ rk (add a1 x1) <= rk (add a2 x2).
Proof.
  intros N1 N2 F1 F2 Ha Hx.
  pose proof (INF_pos prec emax prec_gt_1 prec_lt_emax) as HI.
  pose proof (fin64_range x1 F1) as R1. pose proof (fin64_range x2 F2) as R2.
  assert (Hinf : forall s x, fin64 x -> add (S754_infinity s) x = S754_infinity s).
  { intros s x [_ Fx]. destruct x; try contradiction; reflexivity. }
  assert (Hni : forall s, num64 (S754_infinity s)) by (intros; split; [reflexivity|discriminate]).
  assert (Hcase : forall a, num64 a -> (exists s, a = S754_infinity s) \/ fin64 a).
  { intros a [Hv Hn]. destruct a as [s|s| |s m e]; try congruence.
    - right; split; [exact Hv | exact I].
    - left; now exists s.
    - right; split; [exact Hv | exact I]. }
  assert (Hfin : forall a x, fin64 a -> fin64 x -> - inf64 <= rk (add a x) <= inf64).
  { intros a x Fa Fx. apply rk_range. apply (add_finite a x Fa Fx). }
  destruct (Hcase a1 N1) as [[s1 ->]|Fa1]; destruct (Hcase a2 N2) as [[s2 ->]|Fa2].
  - rewrite !Hinf by assumption. repeat split; try apply Hni; try discriminate.
    exact Ha.
  - pose proof (fin64_range a2 Fa2). rewrite Hinf by assumption.
    destruct (add_finite a2 x2 Fa2 F2) as [M2 _].
    split; [apply Hni|]. split; [exact M2|].
    destruct s1; cbn [rank] in *; [|lia].
    pose proof (Hfin a2 x2 Fa2 F2). lia.
  - pose proof (fin64_range a1 Fa1). rewrite Hinf by assumption.
    destruct (add_finite a1 x1 Fa1 F1) as [M1 _].
    split; [exact M1|]. split; [apply Hni|].
    destruct s2; cbn [rank] in *; [lia|].
    pose proof (Hfin a1 x1 Fa1 F1). lia.
  - destruct (add_finite a1 x1 Fa1 F1) as [M1 E1].
    destruct (add_finite a2 x2 Fa2 F2) as [M2 E2].
    split; [exact M1|]. split; [exact M2|].
    rewrite E1, E2. apply nval64_mono. lia.
Qed.

End Binary64.

(** ** Comparison of arbitrary floats *)

(** [SFltb] compares sign, exponent and mantissa lexicographically, which
    makes it transitive and asymmetric on all of [spec_float]. *)
Lemma compare_cont_eq (p q : positive) : Pos.compare_cont Eq p q = (p ?= q)%positive.
Proof. reflexivity. Qed.

Ltac float_order :=
  repeat match goal with
         | H : context [Pos.compare_cont Eq ?p ?q] |- _ => rewrite (compare_cont_eq p q) in H
         | |- context [Pos.compare_cont Eq ?p ?q] => rewrite (compare_cont_eq p q)
         end;
  repeat match goal with
         | H : context [Z.compare ?a ?b] |- _ => destruct (Z.compare_spec a b)
         | |- context [Z.compare ?a ?b] => destruct (Z.compare_spec a b)
         | H : context [Pos.compare ?a ?b] |- _ => destruct (Pos.compare_spec a b)
         | |- context [Pos.compare ?a ?b] => destruct (Pos.compare_spec a b)
         end;
  cbn [CompOpp] in *; try discriminate; try reflexivity; try (exfalso; lia).

Lemma SFltb_trans (x y z : spec_float) :
  SFltb x y = true -> SFltb y z = true -> SFltb x z = true.
Proof.
  unfold SFltb.
  destruct x as [sx|sx| |sx mx ex], y as [sy|sy| |sy my ey], z as [sz|sz| |sz mz ez];
    cbn [SFcompare]; try discriminate;
    try destruct sx; try destruct sy; try destruct sz;
    try discriminate; try reflexivity; intros H1 H2; float_order.
Qed.

Lemma SFltb_asym (x y : spec_float) : SFltb x y = true -> SFltb y x = false.
Proof.
  unfold SFltb.
  destruct x as [sx|sx| |sx mx ex], y as [sy|sy| |sy my ey];
    cbn [SFcompare]; try discriminate;
    try destruct sx; try destruct sy;
    try discriminate; try reflexivity; intros H1; float_order.
Qed.

(** ** More on rounding: doubling *)

Lemma Zpow2_pos (a : Z) : 0 <= a -> 0 < 2 ^ a.
Proof. intros; apply Z.pow_pos_nonneg; lia. Qed.

Section Doubling.

Variables prec emax : Z.
Hypothesis Hprec : 1 < prec.
Hypothesis Hemax : prec < emax.

Set Default Proof Using "Hprec Hemax".

Local Abbreviation emin := (SpecFloat.emin prec emax).

Lemma tgt_align (m e e0 : Z) :
  0 < m -> e0 <= e -> tgt prec emax (m * 2 ^ (e - e0)) e0 = tgt prec emax m e.
Proof.
  intros Hm H0. replace e0 with (e - (e - e0)) at 2 by lia.
  apply tgt_scale; lia.
Qed.

Lemma dval_double (m e : Z) :
  0 < m -> emin <= e -> dval prec emax m (e + 1) = 2 * dval prec emax m e.
Proof.
  intros Hm He.
  pose proof (Zdigits2_pos m Hm) as Pd.
  destruct (Z_le_gt_dec emin (Zdigits2 m + e - prec)) as [Hn|Hs].
  - (* normal range *)
    assert (T0 : tgt prec emax m e = Zdigits2 m + e - prec).
    { unfold tgt. rewrite fexp_eq by assumption. lia. }
    assert (T1 : tgt prec emax m (e + 1) = tgt prec emax m e + 1).
    { unfold tgt in *. rewrite !fexp_eq in * by assumption. lia. }
    set (e0 := Z.min e (tgt prec emax m e)).
    pose proof (Zpow2_pos (e - e0) ltac:(lia)) as Hp.
    rewrite <- (dval_any prec emax Hprec Hemax m e e0) by lia.
    rewrite <- (dval_any prec emax Hprec Hemax m (e + 1) (e0 + 1)) by lia.
    replace (e + 1 - (e0 + 1)) with (e - e0) by lia.
    set (M := m * 2 ^ (e - e0)).
    assert (HM : 0 < M) by (subst M; nia).
    assert (TM0 : tgt prec emax M e0 = tgt prec emax m e).
    { subst M. apply tgt_align; lia. }
    assert (TM1 : tgt prec emax M (e0 + 1) = tgt prec emax m e + 1).
    { rewrite <- T1. subst M. replace (e - e0) with ((e + 1) - (e0 + 1)) by lia.
      apply tgt_align; lia. }
    unfold rval, rnd_n. rewrite TM0, TM1.
    replace (tgt prec emax m e + 1 - (e0 + 1)) with (tgt prec emax m e - e0) by lia.
    pose proof (tgt_ge_emin prec emax Hprec Hemax m e).
    replace (tgt prec emax m e + 1 - emin) with (Z.succ (tgt prec emax m e - emin)) by lia.
    rewrite Z.pow_succ_r by lia. lia.
  - (* subnormal range *)
    assert (T0 : tgt prec emax m e = emin).
    { unfold tgt. rewrite fexp_eq by assumption. lia. }
    assert (T1 : tgt prec emax m (e + 1) = emin).
    { unfold tgt. rewrite fexp_eq by assumption. lia. }
    rewrite <- (dval_any prec emax Hprec Hemax m e emin) by lia.
    rewrite <- (dval_any prec emax Hprec Hemax m (e + 1) emin) by lia.
    pose proof (Zpow2_pos (e - emin) ltac:(lia)) as Hp.
    assert (Hx : forall M, 0 < M -> tgt prec emax M emin = emin ->
                   rval prec emax M emin loc_Exact = M).
    { intros M HM HT. unfold rval, rnd_n. rewrite HT, Z.sub_diag, shrn_0.
      rewrite code_of_loc. cbn [loc_code]. rewrite Z.add_0_r, rne_exact.
      rewrite Z.pow_0_r. lia. }
    rewrite !Hx.
    + replace (e + 1 - emin) with (Z.succ (e - emin)) by lia.
      rewrite Z.pow_succ_r by lia. lia.
    + nia.
    + rewrite tgt_align by lia. exact T0.
    + pose proof (Zpow2_pos (e + 1 - emin) ltac:(lia)). nia.
    + rewrite tgt_align by lia. exact T1.
Qed.

Lemma nval_double_le (z e : Z) :
  0 <= z -> emin <= e -> nval prec emax (2 * z) e <= 2 * nval prec emax z e.
Proof.
  intros Hz He.
  replace (2 * z) with (z * 2 ^ 1) by (rewrite Z.pow_1_r; lia).
  replace e with ((e + 1) - 1) at 1 by lia.
  rewrite nval_scale by (assumption || lia).
  pose proof (INF_pos prec emax Hprec Hemax) as HI.
  destruct z as [|p|p]; try lia; cbn [nval]; [lia|].
  rewrite dval_double by lia.
  pose proof (dval_nonneg prec emax Hprec Hemax (Z.pos p) e ltac:(lia)). lia.
Qed.

End Doubling.

Unset Default Proof Using.

(** ** Conversions, maxima and quotients in binary64 *)

Section Binary64Ops.

Local Abbreviation rk := (rank prec emax).
Local Abbreviation num64 := (number prec emax).
Local Abbreviation fin64 := (finite prec emax).
Local Abbreviation inf64 := (INF prec emax).
Local Abbreviation emin64 := (SpecFloat.emin prec emax).
Local Abbreviation nv := (nval prec emax).

(** A finite float that is not negative: a positive zero or a positive
    finite float. *)
Definition nonneg_fin (x : float) : Prop := fin64 x /\ signbit x = false.

Lemma nonneg_fin_rk (x : float) : nonneg_fin x -> 0 <= rk x.
Proof.
  intros [[Hv Hf] Hs]. destruct x as [s| | |s m e]; try contradiction;
    cbn [signbit] in Hs; subst s; cbn [rank]; lia.
Qed.

Lemma num64_of_int (n : Z) : num64 (of_int n).
Proof. apply (binary_normalize_number prec emax prec_gt_1 prec_lt_emax). Qed.

Lemma rk_of_int (n : Z) : rk (of_int n) = nv n 0.
Proof. apply (rank_binary_normalize prec emax prec_gt_1 prec_lt_emax). Qed.

Lemma of_int_mono (n1 n2 : Z) : n1 <= n2 -> rk (of_int n1) <= rk (of_int n2).
Proof. intros H. rewrite !rk_of_int. now apply nval64_mono. Qed.

Lemma is_int_bounds (n : Z) : is_int n -> - 2 ^ 63 <= n <= 2 ^ 63.
Proof. unfold is_int, int_min, int_max. lia. Qed.

Lemma fin64_of_int (n : Z) : is_int n -> fin64 (of_int n).
Proof.
  intros Hn. apply is_int_bounds in Hn. apply num64_fin64; [apply num64_of_int|].
  pose proof (of_int_mono (- 2 ^ 63) n ltac:(lia)) as L.
  pose proof (of_int_mono n (2 ^ 63) ltac:(lia)) as U.
  assert (A : - inf64 < rk (of_int (- 2 ^ 63))) by (vm_compute; reflexivity).
  assert (B : rk (of_int (2 ^ 63)) < inf64) by (vm_compute; reflexivity).
  lia.
Qed.

Lemma rk_of_int_sign (n : Z) :
  (0 < n -> 0 < rk (of_int n)) /\ (n < 0 -> rk (of_int n) < 0) /\ (n = 0 -> rk (of_int n) = 0).
Proof.
  assert (A : 0 < rk (of_int 1)) by (vm_compute; reflexivity).
  assert (B : rk (of_int (- 1)) < 0) by (vm_compute; reflexivity).
  repeat split; intros H.
  - pose proof (of_int_mono 1 n ltac:(lia)). lia.
  - pose proof (of_int_mono n (- 1) ltac:(lia)). lia.
  - subst n. reflexivity.
Qed.

Lemma abs_of_int (n : Z) :
  is_int n -> nonneg_fin (abs (of_int n)) /\ rk (abs (of_int n)) = nv (Z.abs n) 0.
Proof.
  intros Hn. pose proof (fin64_of_int n Hn) as Hf. split.
  - split; [apply finite_SFabs; [apply prec_gt_1 | apply prec_lt_emax | exact Hf]|].
    destruct (of_int n); reflexivity.
  - unfold abs. rewrite (rank_SFabs prec emax prec_gt_1 prec_lt_emax) by apply num64_of_int.
    rewrite rk_of_int.
    pose proof (nval_sign prec emax prec_gt_1 prec_lt_emax n 0) as [P N].
    destruct (Z_le_gt_dec 0 n).
    + rewrite !Z.abs_eq by lia. reflexivity.
    + rewrite !Z.abs_neq by lia.
      symmetry. apply (nval_opp prec emax prec_gt_1 prec_lt_emax).
Qed.

(** [math.Max] of two non-negative finite floats is the one of larger rank. *)
Lemma Max_nonneg (x y : float) :
  nonneg_fin x -> nonneg_fin y ->
  nonneg_fin (Max x y) /\ rk (Max x y) = Z.max (rk x) (rk y).
Proof.
  intros Hx Hy. pose proof (nonneg_fin_rk x Hx) as Rx. pose proof (nonneg_fin_rk y Hy) as Ry.
  pose proof (fin64_num64 x (proj1 Hx)) as Nx. pose proof (fin64_num64 y (proj1 Hy)) as Ny.
  assert (Nz : num64 zero) by (split; [reflexivity | discriminate]).
  unfold Max.
  assert (Ix : is_pos_inf x = false /\ is_nan x = false).
  { destruct Hx as [[_ F] _]. destruct x; try contradiction; split; reflexivity. }
  assert (Iy : is_pos_inf y = false /\ is_nan y = false).
  { destruct Hy as [[_ F] _]. destruct y; try contradiction; split; reflexivity. }
  destruct Ix as [-> ->], Iy as [-> ->]. cbn [orb].
  rewrite (eqb_rank x zero Nx Nz), (eqb_rank x y Nx Ny), (ltb_rank y x Ny Nx).
  change (rk zero) with 0.
  destruct (Z.eqb_spec (rk x) 0) as [E0|N0]; cbn [andb].
  - destruct (Z.eqb_spec (rk x) (rk y)) as [E1|N1].
    + destruct Hx as [Fx Sx]. rewrite Sx. split; [split; assumption | lia].
    + destruct (Z.ltb_spec (rk y) (rk x)); [split; [assumption | lia] | split; [assumption | lia]].
  - destruct (Z.ltb_spec (rk y) (rk x)); [split; [assumption | lia] | split; [assumption | lia]].
Qed.

Lemma wrap_range (z : Z) : is_int (wrap z).
Proof.
  unfold is_int, int_min, int_max, wrap.
  change (2 ^ 63) with 9223372036854775808 in *.
  change (2 ^ 64) with 18446744073709551616 in *.
  Z.to_euclidean_division_equations. lia.
Qed.

Lemma wrap_abs (u v : Z) :
  is_int u -> is_int v -> Z.abs (wrap (u - v)) <= 2 * Z.max (Z.abs u) (Z.abs v).
Proof.
  unfold is_int, int_min, int_max, wrap. intros Hu Hv.
  change (2 ^ 63) with 9223372036854775808 in *.
  change (2 ^ 64) with 18446744073709551616 in *.
  Z.to_euclidean_division_equations. lia.
Qed.

Lemma wrap_exact (z : Z) : is_int z -> wrap z = z.
Proof.
  unfold is_int, int_min, int_max, wrap. intros Hz.
  change (2 ^ 63) with 9223372036854775808 in *.
  change (2 ^ 64) with 18446744073709551616 in *.
  Z.to_euclidean_division_equations. lia.
Qed.

Lemma fin64_two : fin64 two.
Proof. split; [reflexivity | exact I]. Qed.

Lemma fin64_one : fin64 one.
Proof. split; [reflexivity | exact I]. Qed.

Lemma fin64_zero : fin64 zero.
Proof. split; [reflexivity | exact I]. Qed.

(** The relative deviation of two integers: the float quotient of the
    wrapped difference by the larger magnitude lies between 0 and 2. *)
Lemma relative_deviation_range (u v : Z) :
  is_int u -> is_int v ->
  let M := Max (abs (of_int u)) (abs (of_int v)) in
  eqb M zero = false ->
  let r := div (abs (of_int (int_sub u v))) M in
  fin64 r /\ 0 <= rk r <= rk two.
Proof.
  intros Hu Hv M HM r.
  destruct (abs_of_int u Hu) as [Au Ru]. destruct (abs_of_int v Hv) as [Av Rv].
  destruct (Max_nonneg _ _ Au Av) as [AM RM]. fold M in AM, RM.
  pose proof (wrap_range (u - v)) as Hw.
  destruct (abs_of_int (int_sub u v) Hw) as [Ax Rx].
  set (x := abs (of_int (int_sub u v))) in *.
  assert (Nz : num64 zero) by (split; [reflexivity | discriminate]).
  rewrite (eqb_rank M zero (fin64_num64 M (proj1 AM)) Nz) in HM.
  change (rk zero) with 0 in HM. apply Z.eqb_neq in HM.
  pose proof (nonneg_fin_rk M AM) as HM0.
  (* the divisor is a positive finite float *)
  destruct AM as [[VM FM] SM].
  destruct M as [sM| | |sM my ey] eqn:EM; try contradiction;
    try (cbn [rank] in HM; lia).
  cbn [signbit] in SM. subst sM. cbn [valid_binary] in VM.
  (* the dividend is at most twice the divisor *)
  set (K := Z.max (Z.abs u) (Z.abs v)).
  assert (HK : rk (S754_finite false my ey) = nv K 0).
  { rewrite RM, Ru, Rv. subst K.
    destruct (Z.max_spec (Z.abs u) (Z.abs v)) as [[H ->]|[H ->]].
    - pose proof (nval64_mono (Z.abs u) (Z.abs v) 0 ltac:(lia)). lia.
    - pose proof (nval64_mono (Z.abs v) (Z.abs u) 0 ltac:(lia)). lia. }
  assert (Hx2 : rk x <= 2 * rk (S754_finite false my ey)).
  { rewrite Rx, HK. unfold int_sub.
    apply Z.le_trans with (nv (2 * K) 0).
    - apply nval64_mono. apply wrap_abs; assumption.
    - apply (nval_double_le prec emax prec_gt_1 prec_lt_emax); [subst K; lia|].
      vm_compute. discriminate. }
  assert (Hx0 : 0 <= rk x) by (apply nonneg_fin_rk; exact Ax).
  assert (Hxs : rk x <> 0 \/ x = S754_zero false).
  { destruct Ax as [[Vx Fx] Sx]. destruct x as [s| | |s m e]; try contradiction.
    - right. cbn [signbit] in Sx. now subst s.
    - left. cbn [valid_binary] in Vx.
      pose proof (finite_rank_bounds prec emax prec_gt_1 prec_lt_emax s m e Vx).
      cbn [signbit] in Sx. subst s. cbn [rank]. lia. }
  assert (Htwo : rk two = 2 * 2 ^ (- emin64)) by (vm_compute; reflexivity).
  destruct (SFdiv_upper prec emax prec_gt_1 prec_lt_emax x two my ey
              (proj1 Ax) Hx0 Hxs VM fin64_two) as [Nr Rr].
  - vm_compute. reflexivity.
  - rewrite Htwo. cbn [rank] in Hx2.
    pose proof (Zpow2_pos (- emin64) ltac:(vm_compute; discriminate)). nia.
  - fold (div x (S754_finite false my ey)) in Nr, Rr. fold r in Nr, Rr.
    split; [|exact Rr].
    apply num64_fin64; [exact Nr|].
    pose proof (fin64_range two fin64_two). lia.
Qed.

End Binary64Ops.

(** ** Scores and weights in binary64 *)

Section Scores.

Local Abbreviation rk := (rank prec emax).
Local Abbreviation num64 := (number prec emax).
Local Abbreviation fin64 := (finite prec emax).
Local Abbreviation inf64 := (INF prec emax).
Local Abbreviation emin64 := (SpecFloat.emin prec emax).
Local Abbreviation nv := (nval prec emax).

(** A float between -1 and 1. *)
Definition unit_range (x : float) : Prop :=
  fin64 x /\ - rk one <= rk x <= rk one.

Lemma unit_range_one : unit_range one.
Proof. split; [apply fin64_one|]. vm_compute. split; discriminate. Qed.

Lemma one_minus_range (r : float) :
  fin64 r -> 0 <= rk r <= rk two -> unit_range (sub one r).
Proof.
  intros Fr Hr. destruct (sub_finite one r fin64_one Fr) as [N E].
  assert (L : nv (rk one - rk two) emin64 = - rk one).
  { destruct (sub_finite one two fin64_one fin64_two) as [_ <-]. vm_compute. reflexivity. }
  assert (Z0 : rk zero = 0) by reflexivity.
  assert (U : nv (rk one - rk zero) emin64 = rk one).
  { destruct (sub_finite one zero fin64_one fin64_zero) as [_ <-]. vm_compute. reflexivity. }
  pose proof (nval64_mono (rk one - rk two) (rk one - rk r) emin64 ltac:(lia)) as H1.
  pose proof (nval64_mono (rk one - rk r) (rk one - rk zero) emin64 ltac:(lia)) as H2.
  assert (B : - rk one <= rk (sub one r) <= rk one) by lia.
  split; [|exact B].
  apply num64_fin64; [exact N|].
  pose proof (fin64_range one fin64_one). lia.
Qed.

Lemma mul_unit_range (x y : float) :
  unit_range x -> unit_range y -> unit_range (mul x y).
Proof.
  intros [Fx Rx] [Fy Ry]. destruct (mul_finite x y Fx Fy) as [N E].
  assert (U : nv (rk one * rk one) (2 * emin64) = rk one).
  { destruct (mul_finite one one fin64_one fin64_one) as [_ <-]. vm_compute. reflexivity. }
  assert (R1 : 0 < rk one) by (vm_compute; reflexivity).
  assert (H1 : - (rk one * rk one) <= rk x * rk y <= rk one * rk one) by nia.
  pose proof (nval64_mono (- (rk one * rk one)) (rk x * rk y) (2 * emin64) ltac:(lia)) as L.
  pose proof (nval64_mono (rk x * rk y) (rk one * rk one) (2 * emin64) ltac:(lia)) as V.
  rewrite (nval_opp prec emax prec_gt_1 prec_lt_emax) in L.
  assert (B : - rk one <= rk (mul x y) <= rk one) by lia.
  split; [|exact B].
  apply num64_fin64; [exact N|].
  pose proof (fin64_range one fin64_one). lia.
Qed.

Lemma mul_mono_r (w x1 x2 : float) :
  fin64 w -> 0 <= rk w -> fin64 x1 -> fin64 x2 -> rk x1 <= rk x2 ->
  rk (mul w x1) <= rk (mul w x2).
Proof.
  intros Fw Hw F1 F2 H.
  destruct (mul_finite w x1 Fw F1) as [_ ->]. destruct (mul_finite w x2 Fw F2) as [_ ->].
  apply nval64_mono. nia.
Qed.

Lemma mul_mono_l (w1 w2 x : float) :
  fin64 w1 -> fin64 w2 -> rk w1 <= rk w2 -> fin64 x -> 0 <= rk x ->
  rk (mul w1 x) <= rk (mul w2 x).
Proof.
  intros F1 F2 H Fx Hx.
  destruct (mul_finite w1 x F1 Fx) as [_ ->]. destruct (mul_finite w2 x F2 Fx) as [_ ->].
  apply nval64_mono. nia.
Qed.

(** The per-metric score is a float between -1 and 1. *)
Lemma compareMetrics_unit_range (thr : float) (sa sb : Stats) (key : string) :
  wf_MetricStat (metric_at sa key) -> wf_MetricStat (metric_at sb key) ->
  unit_range (num (compareMetrics thr sa sb key)).
Proof.
  intros [Ha1 Ha2] [Hb1 Hb2]. unfold compareMetrics.
  set (a := metric_at sa key) in *. set (b := metric_at sb key) in *.
  destruct (Median a =? Median b); [apply unit_range_one|].
  destruct (eqb (maxmad_of a b) zero) eqn:E1; [apply unit_range_one|].
  destruct (eqb (maxmed_of a b) zero) eqn:E2; [apply unit_range_one|].
  cbn [orb num].
  destruct (relative_deviation_range (Median a) (Median b) Ha1 Hb1 E2) as [F1 R1].
  destruct (relative_deviation_range (MAD a) (MAD b) Ha2 Hb2 E1) as [F2 R2].
  apply mul_unit_range; apply one_minus_range; assumption.
Qed.

(** The weights [2^-k]. *)
Lemma Pow2neg_round (k : Z) :
  Pow2neg k = binary_round prec emax false 4503599627370496 (- 52 + - k).
Proof. reflexivity. Qed.

Lemma rk_Pow2neg (k : Z) : rk (Pow2neg k) = nv 4503599627370496 (- 52 - k).
Proof.
  rewrite Pow2neg_round.
  destruct (rank_binary_round prec emax prec_gt_1 prec_lt_emax 4503599627370496 (- 52 + - k)) as [-> _].
  replace (- 52 + - k) with (- 52 - k) by lia.
  symmetry. apply (nval_pos prec emax prec_gt_1 prec_lt_emax).
Qed.

Lemma Pow2neg_antitone (k1 k2 : Z) : k1 <= k2 -> rk (Pow2neg k2) <= rk (Pow2neg k1).
Proof.
  intros H. rewrite !rk_Pow2neg.
  apply (nval_mono_gen prec emax prec_gt_1 prec_lt_emax _ _ _ _ (- 52 - k2)); try lia.
  rewrite Z.sub_diag, Z.pow_0_r.
  pose proof (Zpow2_pos (- 52 - k1 - (- 52 - k2)) ltac:(lia)). nia.
Qed.

Lemma Pow2neg_weight (k : Z) :
  1 <= k -> fin64 (Pow2neg k) /\ 0 <= rk (Pow2neg k) <= rk (Pow2neg 1).
Proof.
  intros Hk.
  assert (N : num64 (Pow2neg k)).
  { rewrite Pow2neg_round. apply (binary_round_number prec emax prec_gt_1 prec_lt_emax). }
  assert (L : 0 <= rk (Pow2neg k)).
  { rewrite rk_Pow2neg. apply (nval_sign prec emax prec_gt_1 prec_lt_emax). lia. }
  pose proof (Pow2neg_antitone 1 k Hk) as U.
  split; [|lia]. apply num64_fin64; [exact N|].
  assert (rk (Pow2neg 1) < inf64) by (vm_compute; reflexivity).
  pose proof (INF_pos prec emax prec_gt_1 prec_lt_emax). lia.
Qed.

Lemma term_unit_range (k : Z) (x : float) :
  1 <= k -> unit_range x -> unit_range (mul (Pow2neg k) x).
Proof.
  intros Hk Hx. destruct (Pow2neg_weight k Hk) as [F [L U]].
  apply mul_unit_range; [|exact Hx].
  split; [exact F|].
  assert (rk (Pow2neg 1) <= rk one) by (vm_compute; discriminate).
  assert (0 < rk one) by (vm_compute; reflexivity). lia.
Qed.

(** Two score lists of the same length, the first pointwise below the
    second. *)
Definition scores_le (l1 l2 : list cmpScore) : Prop :=
  Forall2 (fun c1 c2 => unit_range (num c1) /\ unit_range (num c2) /\
                        rk (num c1) <= rk (num c2)) l1 l2.

(** The weighted sum is monotone in the starting value and in every score. *)
Lemma weigh_from_mono (l1 l2 : list cmpScore) :
  scores_le l1 l2 ->
  forall (i : Z) (a1 a2 : float),
    0 <= i -> num64 a1 -> num64 a2 -> rk a1 <= rk a2 ->
    num64 (weigh_from i a1 l1) /\ num64 (weigh_from i a2 l2) /\
    rk (weigh_from i a1 l1) <= rk (weigh_from i a2 l2).
Proof.
  induction 1 as [|c1 c2 l1 l2 (U1 & U2 & Hc) Hl IH]; intros i a1 a2 Hi N1 N2 Ha.
  - cbn [weigh_from]. auto.
  - cbn [weigh_from].
    destruct (Pow2neg_weight (i + 1) ltac:(lia)) as [Fw [Lw _]].
    pose proof (term_unit_range (i + 1) (num c1) ltac:(lia) U1) as [T1 _].
    pose proof (term_unit_range (i + 1) (num c2) ltac:(lia) U2) as [T2 _].
    pose proof (mul_mono_r (Pow2neg (i + 1)) (num c1) (num c2) Fw Lw (proj1 U1) (proj1 U2) Hc) as Ht.
    destruct (add_mono a1 a2 _ _ N1 N2 T1 T2 Ha Ht) as (M1 & M2 & Hm).
    apply IH; [lia | assumption ..].
Qed.

(** Adding scores that are not negative never lowers the weighted sum. *)
Lemma weigh_from_grows (l : list cmpScore) :
  Forall (fun c => unit_range (num c) /\ 0 <= rk (num c)) l ->
  forall (i : Z) (a : float),
    0 <= i -> num64 a ->
    num64 (weigh_from i a l) /\ rk a <= rk (weigh_from i a l).
Proof.
  induction 1 as [|c l [U Hc] Hl IH]; intros i a Hi N.
  - cbn [weigh_from]. split; [assumption | lia].
  - cbn [weigh_from].
    destruct (Pow2neg_weight (i + 1) ltac:(lia)) as [Fw [Lw _]].
    pose proof (term_unit_range (i + 1) (num c) ltac:(lia) U) as [T _].
    assert (Ht : 0 <= rk (mul (Pow2neg (i + 1)) (num c))).
    { destruct (mul_finite (Pow2neg (i + 1)) (num c) Fw (proj1 U)) as [_ ->].
      apply (nval_sign prec emax prec_gt_1 prec_lt_emax). nia. }
    destruct (add_mono a a zero _ N N fin64_zero T ltac:(lia) Ht) as (M1 & M2 & Hm).
    destruct (IH (i + 1) _ ltac:(lia) M2) as [M3 Hg].
    split; [exact M3|].
    assert (Ha0 : rk a <= rk (add a zero)).
    { destruct N as [Va Na]. destruct a as [s|s| |s m e]; try congruence.
      - destruct s; cbn; lia.
      - cbn. lia.
      - change (add (S754_finite s m e) zero) with (S754_finite s m e). lia. }
    lia.
Qed.

Lemma weigh_from_app (l1 l2 : list cmpScore) (i : Z) (a : float) :
  weigh_from i a (l1 ++ l2) =
  weigh_from (i + Z.of_nat (length l1)) (weigh_from i a l1) l2.
Proof.
  revert i a; induction l1 as [|c l1 IH]; intros i a.
  - cbn [app length weigh_from]. f_equal. cbn. lia.
  - cbn [app weigh_from]. rewrite IH. f_equal.
    cbn [length]. lia.
Qed.

End Scores.

(** ** The aggregate *)

Section Aggregate.

Local Abbreviation rk := (rank prec emax).
Local Abbreviation num64 := (number prec emax).
Local Abbreviation fin64 := (finite prec emax).
Local Abbreviation inf64 := (INF prec emax).
Local Abbreviation emin64 := (SpecFloat.emin prec emax).
Local Abbreviation nv := (nval prec emax).

(** [n] scores of a perfect match. *)
Definition ones (n : nat) : list cmpScore :=
  repeat {| num := one; msg := EmptyString |} n.

Lemma rk_one_pos : 0 < rk one.
Proof. vm_compute. reflexivity. Qed.

Lemma ones_grow (n : nat) :
  Forall (fun c => unit_range (num c) /\ 0 <= rk (num c)) (ones n).
Proof.
  induction n as [|n IH]; [constructor|].
  cbn [ones repeat]. constructor; [|exact IH].
  cbn [num]. split; [apply unit_range_one|]. pose proof rk_one_pos. lia.
Qed.

Lemma weigh_ones_54 : weigh_from 0 zero (ones 54) = one.
Proof. vm_compute. reflexivity. Qed.

(** From the 55th weight on, adding a weight to at most 1 rounds to at
    most 1. *)
Lemma weigh_ones_tail (m : nat) :
  forall (i : Z) (a : float),
    54 <= i -> fin64 a -> 0 <= rk a <= rk one ->
    fin64 (weigh_from i a (ones m)) /\ 0 <= rk (weigh_from i a (ones m)) <= rk one.
Proof.
  induction m as [|m IH]; intros i a Hi Fa Ha.
  - cbn [ones repeat weigh_from]. split; assumption.
  - cbn [ones repeat weigh_from]. fold (ones m). cbn [num].
    apply IH; [lia | |].
    + set (t := mul (Pow2neg (i + 1)) one).
      destruct (term_unit_range (i + 1) one ltac:(lia) unit_range_one) as [Ft _]. fold t in Ft.
      destruct (add_finite a t Fa Ft) as [N E].
      apply num64_fin64; [exact N|]. rewrite E.
      destruct (Pow2neg_weight (i + 1) ltac:(lia)) as [Fw [Lw _]].
      destruct (Pow2neg_weight 55 ltac:(lia)) as [F55 _].
      pose proof (mul_mono_l (Pow2neg (i + 1)) (Pow2neg 55) one Fw F55
                    (Pow2neg_antitone 55 (i + 1) ltac:(lia)) fin64_one
                    ltac:(pose proof rk_one_pos; lia)) as Ht. fold t in Ht.
      assert (T0 : 0 <= rk t).
      { unfold t. destruct (mul_finite (Pow2neg (i + 1)) one Fw fin64_one) as [_ ->].
        apply (nval_sign prec emax prec_gt_1 prec_lt_emax). pose proof rk_one_pos. nia. }
      pose proof (nval64_mono (rk a + rk t) (rk one + rk (mul (Pow2neg 55) one)) emin64 ltac:(lia)) as U.
      destruct (term_unit_range 55 one ltac:(lia) unit_range_one) as [F55t _].
      destruct (add_finite one (mul (Pow2neg 55) one) fin64_one F55t) as [_ E55].
      rewrite <- E55 in U.
      assert (C : rk (add one (mul (Pow2neg 55) one)) = rk one) by (vm_compute; reflexivity).
      pose proof (nval64_mono 0 (rk a + rk t) emin64 ltac:(lia)) as L.
      change (nv 0 emin64) with 0 in L.
      pose proof (fin64_range one fin64_one). lia.
    + set (t := mul (Pow2neg (i + 1)) one).
      destruct (term_unit_range (i + 1) one ltac:(lia) unit_range_one) as [Ft _]. fold t in Ft.
      destruct (add_finite a t Fa Ft) as [N E]. rewrite E.
      destruct (Pow2neg_weight (i + 1) ltac:(lia)) as [Fw [Lw _]].
      destruct (Pow2neg_weight 55 ltac:(lia)) as [F55 _].
      pose proof (mul_mono_l (Pow2neg (i + 1)) (Pow2neg 55) one Fw F55
                    (Pow2neg_antitone 55 (i + 1) ltac:(lia)) fin64_one
                    ltac:(pose proof rk_one_pos; lia)) as Ht. fold t in Ht.
      assert (T0 : 0 <= rk t).
      { unfold t. destruct (mul_finite (Pow2neg (i + 1)) one Fw fin64_one) as [_ ->].
        apply (nval_sign prec emax prec_gt_1 prec_lt_emax). pose proof rk_one_pos. nia. }
      pose proof (nval64_mono (rk a + rk t) (rk one + rk (mul (Pow2neg 55) one)) emin64 ltac:(lia)) as U.
      destruct (term_unit_range 55 one ltac:(lia) unit_range_one) as [F55t _].
      destruct (add_finite one (mul (Pow2neg 55) one) fin64_one F55t) as [_ E55].
      rewrite <- E55 in U.
      assert (C : rk (add one (mul (Pow2neg 55) one)) = rk one) by (vm_compute; reflexivity).
      pose proof (nval64_mono 0 (rk a + rk t) emin64 ltac:(lia)) as L.
      change (nv 0 emin64) with 0 in L. lia.
Qed.

Lemma ones_app (n m : nat) : ones (n + m) = ones n ++ ones m.
Proof. unfold ones. apply repeat_app. Qed.

Lemma length_ones (n : nat) : length (ones n) = n.
Proof. apply repeat_length. Qed.

(** The weighted sum of any number of perfect scores lies in [0, 1]. *)
Lemma weigh_ones_range (n : nat) :
  num64 (weigh zero (ones n)) /\ 0 <= rk (weigh zero (ones n)) <= rk one.
Proof.
  assert (Nz : num64 zero) by (apply fin64_num64, fin64_zero).
  unfold weigh.
  destruct (weigh_from_grows (ones n) (ones_grow n) 0 zero ltac:(lia) Nz) as [N L].
  change (rk zero) with 0 in L.
  split; [exact N|]. split; [exact L|].
  destruct (Nat.le_gt_cases n 54) as [Hle|Hgt].
  - (* the sum of the first 54 weights is 1 and the sum only grows *)
    pose proof weigh_ones_54 as H54.
    replace 54%nat with (n + (54 - n))%nat in H54 by lia.
    rewrite ones_app, weigh_from_app, length_ones in H54.
    destruct (weigh_from_grows (ones (54 - n)) (ones_grow _) (0 + Z.of_nat n)
                (weigh_from 0 zero (ones n)) ltac:(lia) N) as [_ G].
    rewrite H54 in G. exact G.
  - replace n with (54 + (n - 54))%nat by lia.
    rewrite ones_app, weigh_from_app, length_ones, weigh_ones_54.
    apply weigh_ones_tail; [lia | apply fin64_one |].
    pose proof rk_one_pos. lia.
Qed.

Lemma scores_le_ones (l : list cmpScore) :
  Forall (fun c => unit_range (num c)) l -> scores_le l (ones (length l)).
Proof.
  induction 1 as [|c l Hc Hl IH]; [constructor|].
  cbn [length ones repeat]. constructor; [|exact IH].
  cbn [num]. split; [exact Hc|]. split; [apply unit_range_one|]. apply Hc.
Qed.

(** Whatever the scores, the weighted sum started at zero or at the
    penalty is a number not above 1. *)
Lemma weigh_le_one (a : float) (l : list cmpScore) :
  num64 a -> rk a <= 0 -> Forall (fun c => unit_range (num c)) l ->
  num64 (weigh a l) /\ rk (weigh a l) <= rk one.
Proof.
  intros Na Ha Hl.
  assert (Nz : num64 zero) by (apply fin64_num64, fin64_zero).
  destruct (weigh_from_mono l (ones (length l)) (scores_le_ones l Hl) 0 a zero
              ltac:(lia) Na Nz Ha) as (N1 & _ & H).
  destruct (weigh_ones_range (length l)) as [_ [_ U]].
  unfold weigh in *. split; [exact N1 | lia].
Qed.

(** Square roots. *)
Lemma sqrt_mono (x1 x2 : float) :
  num64 x1 -> num64 x2 -> 0 <= rk x1 <= rk x2 ->
  num64 (sqrt x1) /\ num64 (sqrt x2) /\ 0 <= rk (sqrt x1) <= rk (sqrt x2).
Proof. apply (SFsqrt_mono prec emax prec_gt_1 prec_lt_emax). Qed.

Lemma sqrt_negative (x : float) : ltb x zero = true -> sqrt x = S754_nan.
Proof. destruct x as [s|[]| |[] m e]; try discriminate; reflexivity. Qed.

Lemma sqrt_not_negative (x : float) : ltb (sqrt x) zero = false.
Proof. apply (SFsqrt_sign prec emax prec_gt_1 prec_lt_emax). Qed.

Lemma leb_nan_r (x : float) : leb x S754_nan = false.
Proof. destruct x; reflexivity. Qed.

Lemma num64_badTimePenalty : num64 badTimePenalty /\ rk badTimePenalty <= 0.
Proof. split; [split; [reflexivity | discriminate] | vm_compute; discriminate]. Qed.

End Aggregate.
(** ** Properties of the metric filter *)

Section Filter.

Lemma isCmpMetric_from_true (s : list string) (n i : nat) :
  isCmpMetric_from s i n = true <->
  exists j, (i <= j < i + n)%nat /\ listed (join_dot (take (S j) s)) = true.
Proof.
  revert i; induction n as [|n IH]; intros i; cbn [isCmpMetric_from].
  - split; [discriminate | intros (j & Hj & _); lia].
  - destruct (listed (join_dot (take (S i) s))) eqn:Hl.
    + split; [intros _; exists i; split; [lia | exact Hl] | reflexivity].
    + rewrite IH; split; intros (j & Hj & Hlj).
      * exists j; split; [lia | exact Hlj].
      * exists j; split; [| exact Hlj].
        destruct (Nat.eq_dec j i) as [->|]; [congruence | lia].
Qed.

Lemma listed_true (p : string) : listed p = true <-> is_Some (cmpMetrics !! p).
Proof. unfold listed; apply bool_decide_eq_true. Qed.

Lemma split_dot_nonempty (key : string) : split_dot key <> [].
Proof.
  destruct key as [|c rest]; simpl; [discriminate |].
  destruct (Ascii.eqb c "."); [discriminate |].
  destruct (split_dot rest); discriminate.
Qed.

End Filter.


(** ** Executions of Proximal *)

Section Runs.

Local Abbreviation rk := (rank prec emax).
Local Abbreviation num64 := (number prec emax).
Local Abbreviation fin64 := (finite prec emax).

Lemma collect_from (thr : float) (a b : Stats) (ks : list string) (acc : list cmpScore) :
  fold_left
    (fun scores key =>
       if compared b key then scores ++ [compareMetrics thr a b key] else scores)
    ks acc
  = acc ++ map (compareMetrics thr a b) (List.filter (compared b) ks).
Proof.
  revert acc; induction ks as [|k ks IH]; intros acc; cbn [fold_left List.filter map].
  - now rewrite app_nil_r.
  - rewrite IH. destruct (compared b k); cbn [map].
    + now rewrite <- app_assoc.
    + reflexivity.
Qed.

(** The collected scores are those of the compared keys, in the order of
    the enumeration. *)
Lemma collect_map (thr : float) (a b : Stats) (ks : list string) :
  collect thr a b ks = map (compareMetrics thr a b) (List.filter (compared b) ks).
Proof. unfold collect. now rewrite collect_from. Qed.

(** The threshold decides the messages only. *)
Lemma num_compareMetrics_thr (t1 t2 : float) (a b : Stats) (k : string) :
  num (compareMetrics t1 a b k) = num (compareMetrics t2 a b k).
Proof.
  unfold compareMetrics.
  destruct (Median (metric_at a k) =? Median (metric_at b k)); [reflexivity|].
  destruct (eqb (maxmad_of (metric_at a k) (metric_at b k)) zero
            || eqb (maxmed_of (metric_at a k) (metric_at b k)) zero); reflexivity.
Qed.

Lemma Permutation_filter {A : Type} (f : A -> bool) (l1 l2 : list A) :
  Permutation l1 l2 -> Permutation (List.filter f l1) (List.filter f l2).
Proof.
  induction 1 as [|x l1 l2 H IH|x y l|l1 l2 l3 H1 IH1 H2 IH2]; cbn [List.filter].
  - constructor.
  - destruct (f x); [now constructor | assumption].
  - destruct (f x), (f y); try reflexivity. constructor.
  - now transitivity (List.filter f l2).
Qed.

Lemma metric_at_wf (s : Stats) (k : string) :
  wf_Stats s -> wf_MetricStat (metric_at s k).
Proof.
  intros [_ H]. unfold metric_at. destruct (Metrics s !! k) as [m|] eqn:E; cbn [default].
  - exact (H k m E).
  - split; cbn [Median MAD]; unfold is_int, int_min, int_max; lia.
Qed.

Lemma collect_unit_range (thr : float) (a b : Stats) (ks : list string) :
  wf_Stats a -> wf_Stats b ->
  Forall (fun c => unit_range (num c)) (collect thr a b ks).
Proof.
  intros Ha Hb. rewrite collect_map.
  induction (List.filter (compared b) ks) as [|k l IH]; cbn [map]; constructor; [|exact IH].
  apply compareMetrics_unit_range; apply metric_at_wf; assumption.
Qed.

(** *** The insertion sort meets the contract of [sort.Sort] *)

Lemma Less_trans (x y z : cmpScore) :
  Less x y = true -> Less y z = true -> Less x z = true.
Proof. apply SFltb_trans. Qed.

Lemma Less_asym (x y : cmpScore) : Less x y = true -> Less y x = false.
Proof. apply SFltb_asym. Qed.

Lemma insert_score_perm (c : cmpScore) (l : list cmpScore) :
  Permutation (c :: l) (insert_score c l).
Proof.
  induction l as [|x l IH]; cbn [insert_score]; [reflexivity|].
  destruct (Less c x); [reflexivity|].
  rewrite <- IH. apply perm_swap.
Qed.

Lemma insert_score_ascending (c : cmpScore) (l : list cmpScore) :
  ascending l -> ascending (insert_score c l).
Proof.
  unfold ascending. induction 1 as [|x l Hl IH Hx]; cbn [insert_score].
  - repeat constructor.
  - destruct (Less c x) eqn:E.
    + constructor; [constructor; assumption|].
      constructor; [now apply Less_asym|].
      eapply List.Forall_impl; [|exact Hx]. cbn beta. intros y Hy.
      destruct (Less y c) eqn:E'; [|reflexivity].
      rewrite (Less_trans y c x E' E) in Hy. discriminate.
    + constructor; [exact IH|].
      eapply Permutation_Forall; [apply insert_score_perm|].
      constructor; assumption.
Qed.

Lemma sort_scores_from (l acc : list cmpScore) :
  ascending acc ->
  Permutation (l ++ acc) (fold_left (fun acc c => insert_score c acc) l acc) /\
  ascending (fold_left (fun acc c => insert_score c acc) l acc).
Proof.
  revert acc; induction l as [|c l IH]; intros acc Hacc; cbn [fold_left app].
  - split; [reflexivity | assumption].
  - destruct (IH (insert_score c acc) (insert_score_ascending c acc Hacc)) as [P S].
    split; [|exact S].
    rewrite <- P. rewrite <- insert_score_perm. apply Permutation_middle.
Qed.

Lemma sort_scores_sorted_of (l : list cmpScore) : sorted_of l (sort_scores l).
Proof.
  destruct (sort_scores_from l [] (SSorted_nil _)) as [P S].
  rewrite app_nil_r in P. split; assumption.
Qed.

(** [Proximal] returns: the function above is one of its executions. *)
Lemma Proximal_is_run (thr : float) (a b : Stats) :
  Proximal_returns thr a b (Proximal thr a b).
Proof.
  exists (map fst (map_to_list (Metrics a))),
         (sort_scores (collect thr a b (map fst (map_to_list (Metrics a))))).
  split; [apply Permutation_refl|]. split; [apply sort_scores_sorted_of | reflexivity].
Qed.

(** *** Two sorted arrangements of the same scores *)

Lemma ascending_ranks (l : list cmpScore) :
  Forall (fun c => unit_range (num c)) l -> ascending l ->
  StronglySorted Z.le (map (fun c => rk (num c)) l).
Proof.
  intros Hu Hs. induction Hs as [|x l Hl IH Hx]; cbn [map]; constructor.
  - apply IH. now inversion Hu.
  - inversion Hu as [|? ? Ux Ul]; subst.
    clear IH Hl Hu. induction Hx as [|y l Hy Hx IH]; cbn [map]; constructor.
    + inversion Ul as [|? ? Uy Ul']; subst.
      unfold Less in Hy.
      rewrite (ltb_rank (num y) (num x)) in Hy
        by (apply fin64_num64; first [apply Uy | apply Ux]).
      apply Z.ltb_ge in Hy. exact Hy.
    + apply IH. now inversion Ul.
Qed.

Lemma scores_le_of_ranks (l1 l2 : list cmpScore) :
  Forall (fun c => unit_range (num c)) l1 ->
  Forall (fun c => unit_range (num c)) l2 ->
  map (fun c => rk (num c)) l1 = map (fun c => rk (num c)) l2 ->
  scores_le l1 l2.
Proof.
  intros H1; revert l2; induction H1 as [|c1 l1 U1 H1 IH]; intros l2 H2 E.
  - destruct l2; [constructor | discriminate].
  - destruct l2 as [|c2 l2]; [discriminate|].
    cbn [map] in E. injection E as Ec El.
    inversion H2 as [|? ? U2 H2']; subst.
    constructor; [|now apply IH].
    split; [exact U1|]. split; [exact U2|]. lia.
Qed.

Lemma sorted_scores_le (l1 l2 : list cmpScore) :
  Forall (fun c => unit_range (num c)) l1 ->
  Forall (fun c => unit_range (num c)) l2 ->
  ascending l1 -> ascending l2 ->
  Permutation (map num l1) (map num l2) ->
  scores_le l1 l2.
Proof.
  intros U1 U2 S1 S2 P.
  apply scores_le_of_ranks; try assumption.
  apply (StronglySorted_unique Z.le).
  - now apply ascending_ranks.
  - now apply ascending_ranks.
  - rewrite <- !(map_map num rk). now apply Permutation_map.
Qed.

End Runs.

(** ** The accumulator and the thresholds *)

Section ScoreRange.

Local Abbreviation rk := (rank prec emax).
Local Abbreviation num64 := (number prec emax).
Local Abbreviation fin64 := (finite prec emax).

Lemma start_number (thr : float) (a b : Stats) :
  num64 (snd (sample_check thr a b)) /\ rk (snd (sample_check thr a b)) <= 0.
Proof.
  unfold sample_check. destruct (count_exceeds thr a b); cbn [snd].
  - apply num64_badTimePenalty.
  - split; [apply fin64_num64, fin64_zero | reflexivity].
Qed.

Lemma sorted_unit_range (thr : float) (a b : Stats) (ks : list string)
      (sorted : list cmpScore) :
  wf_Stats a -> wf_Stats b -> sorted_of (collect thr a b ks) sorted ->
  Forall (fun c => unit_range (num c)) sorted.
Proof.
  intros Wa Wb [Hp _].
  eapply Permutation_Forall; [exact Hp|]. now apply collect_unit_range.
Qed.

Lemma sqrt_one : sqrt one = one.
Proof. vm_compute. reflexivity. Qed.

End ScoreRange.

Section Threshold.

Local Abbreviation rk := (rank prec emax).
Local Abbreviation num64 := (number prec emax).
Local Abbreviation fin64 := (finite prec emax).

(** A valid float strictly between 0 and 1 is finite. *)
Lemma threshold_finite (t : float) :
  valid_binary prec emax t = true -> ltb zero t = true -> ltb t one = true -> fin64 t.
Proof.
  intros Hv H0 H1. split; [exact Hv|].
  destruct t as [s|[]| |s m e]; try discriminate; exact I.
Qed.

Lemma start_mono (t1 t2 : float) (a b : Stats) :
  ltb t1 t2 = true ->
  rk (snd (sample_check t1 a b)) <= rk (snd (sample_check t2 a b)).
Proof.
  intros Ht. destruct (start_number t1 a b) as [_ R1].
  unfold sample_check in *. unfold count_exceeds in *.
  destruct (ltb t2 (count_ratio a b)) eqn:E2; cbn [snd].
  - assert (E1 : ltb t1 (count_ratio a b) = true) by apply (SFltb_trans _ _ _ Ht E2).
    rewrite E1. cbn [snd]. lia.
  - exact R1.
Qed.

Lemma nums_permutation (t1 t2 : float) (a b : Stats) (ks1 ks2 : list string)
      (s1 s2 : list cmpScore) :
  range_of (Metrics a) ks1 -> range_of (Metrics a) ks2 ->
  Permutation (collect t1 a b ks1) s1 -> Permutation (collect t2 a b ks2) s2 ->
  Permutation (map num s1) (map num s2).
Proof.
  intros K1 K2 P1 P2.
  rewrite <- P1, <- P2, !collect_map, !map_map.
  rewrite (map_ext _ _ (fun k => num_compareMetrics_thr t1 t2 a b k)).
  apply Permutation_map, Permutation_filter.
  unfold range_of in *. now rewrite K1, K2.
Qed.

End Threshold.

(** * The claims *)

(** ** C1: a Stats value compared against itself *)

Section ExactMatch.

Local Abbreviation rk := (rank prec emax).
Local Abbreviation num64 := (number prec emax).
Local Abbreviation fin64 := (finite prec emax).

(** The scenario of the spec: one metric on both sides. *)
Definition scenario_stats : Stats :=
  {| NSamples := 100;
     Metrics := {[ "serverStatus.mem.resident"%string := {| Median := 50; MAD := 2 |} ]} |}.



Definition perfect : cmpScore := {| num := one; msg := EmptyString |}.




Lemma sub_self (x : float) : fin64 x -> rk x <> 0 -> sub x x = zero.
Proof.
  intros [Hv Hf] Hr. destruct x as [s| | |s m e]; try contradiction.
  unfold sub. cbn [SFsub]. rewrite Z.sub_diag. reflexivity.
Qed.

Lemma Max_self (x : float) : fin64 x -> rk x <> 0 -> Max x x = x.
Proof.
  intros Fx Hr. pose proof (fin64_num64 x Fx) as Nx.
  assert (Nz : num64 zero) by (apply fin64_num64, fin64_zero).
  unfold Max.
  assert (Ix : is_pos_inf x = false /\ is_nan x = false).
  { destruct Fx as [_ F]. destruct x; try contradiction; split; reflexivity. }
  destruct Ix as [-> ->]. cbn [orb].
  rewrite (eqb_rank x zero Nx Nz), (ltb_rank x x Nx Nx).
  change (rk zero) with 0.
  destruct (Z.eqb_spec (rk x) 0); [contradiction|]. cbn [andb].
  now rewrite Z.ltb_irrefl.
Qed.

(** With equal, non-zero sample counts the sample-count test passes for
    every positive threshold. *)
Lemma sample_check_same (thr : float) (a b : Stats) :
  is_int (NSamples a) -> NSamples a <> 0 -> NSamples b = NSamples a ->
  ltb zero thr = true ->
  sample_check thr a b = (EmptyString, zero).
Proof.
  intros Hi Hn Hb Ht. unfold sample_check, count_exceeds, count_ratio. rewrite Hb.
  pose proof (fin64_of_int _ Hi) as Fn.
  assert (Hr : rk (of_int (NSamples a)) <> 0).
  { destruct (rk_of_int_sign (NSamples a)) as (P & N & _).
    destruct (Z_lt_le_dec 0 (NSamples a)); [specialize (P ltac:(lia)) | specialize (N ltac:(lia))]; lia. }
  rewrite (sub_self _ Fn Hr), (Max_self _ Fn Hr).
  destruct Fn as [_ Ff].
  destruct (of_int (NSamples a)) as [s| | |s m e]; try contradiction.
  destruct thr as [[]|[]| |[] tm te]; try discriminate; destruct s; reflexivity.
Qed.



(** Under the default threshold, two perfect scores are enough and one is
    not. *)
Lemma ok_ones (n : nat) :
  leb (sub one CmpThreshold) (sqrt (weigh zero (ones n))) = true <-> (2 <= n)%nat.
Proof.
  split.
  - intros H. destruct n as [|[|n]]; [vm_compute in H; discriminate .. | lia].
  - intros Hn.
    destruct (weigh_ones_range 2) as [N2 [L2 _]].
    destruct (weigh_ones_range n) as [Nn _].
    assert (G : rk (weigh zero (ones 2)) <= rk (weigh zero (ones n))).
    { unfold weigh in *. replace n with (2 + (n - 2))%nat by lia.
      rewrite ones_app, weigh_from_app, length_ones.
      apply (weigh_from_grows (ones (n - 2)) (ones_grow _)); [lia | exact N2]. }
    destruct (sqrt_mono _ _ N2 Nn (conj L2 G)) as (S2 & Sn & _ & Hs).
    assert (Nc : num64 (sub one CmpThreshold)) by (split; [reflexivity | discriminate]).
    assert (C : leb (sub one CmpThreshold) (sqrt (weigh zero (ones 2))) = true)
      by (vm_compute; reflexivity).
    rewrite (leb_rank _ _ Nc S2) in C. apply Z.leb_le in C.
    rewrite (leb_rank _ _ Nc Sn). apply Z.leb_le. lia.
Qed.

End ExactMatch.




(** ** C2: the aggregation *)

(** The contribution of the score at index [i] of the sorted slice, in
    the words of the spec: [score_i * 2^-(i+1)]. *)
Definition contribution (i : nat) (score : float) : float :=
  mul (Pow2neg (Z.of_nat i + 1)) score.

(** The contributions added one after the other, from the worst score on,
    to the accumulator left by the sample-count test. *)
Definition running_total (start : float) (scores : list float) : float :=
  fold_left add (imap contribution scores) start.

Lemma weigh_from_running_total (l : list cmpScore) :
  forall (j : nat) (a : float),
    weigh_from (Z.of_nat j) a l =
    fold_left add (imap (fun i => contribution (j + i)) (map num l)) a.
Proof.
  induction l as [|c l IH]; intros j a; [reflexivity|].
  cbn [weigh_from map imap fold_left].
  replace (Z.of_nat j + 1) with (Z.of_nat (S j)) by lia.
  rewrite IH. unfold contribution at 3.
  replace (Z.of_nat (j + 0) + 1) with (Z.of_nat (S j)) by lia.
  f_equal. apply imap_ext. intros i x _. cbn. unfold contribution.
  do 2 f_equal. lia.
Qed.

Lemma weigh_running_total (start : float) (l : list cmpScore) :
  weigh start l = running_total start (map num l).
Proof.
  unfold weigh, running_total. change 0 with (Z.of_nat 0).
  rewrite weigh_from_running_total. f_equal.
Qed.

Lemma ascending_lookup (l : list cmpScore) :
  ascending l ->
  forall (i j : nat) (x y : cmpScore),
    (i < j)%nat -> l !! i = Some x -> l !! j = Some y -> ltb (num y) (num x) = false.
Proof.
  unfold ascending. induction 1 as [|c l Hl IH Hc]; intros i j x y Hij Hi Hj.
  - destruct i; discriminate.
  - destruct j as [|j]; [lia|]. cbn in Hj.
    destruct i as [|i]; cbn in Hi.
    + injection Hi as <-.
      rewrite List.Forall_forall in Hc. apply (Hc y).
      apply list_elem_of_In. eapply list_elem_of_lookup_2; exact Hj.
    + apply (IH i j x y); [lia | assumption ..].
Qed.

(** Three metrics whose scores are 1, 0.9 and 0.5 in the order in which
    the map yields them. *)
Definition three_a : Stats :=
  {| NSamples := 100;
     Metrics := {[ "start"%string := {| Median := 100; MAD := 10 |};
                   "end"%string := {| Median := 100; MAD := 10 |};
                   "serverStatus.asserts"%string := {| Median := 100; MAD := 10 |} ]} |}.

Definition three_b : Stats :=
  {| NSamples := 100;
     Metrics := {[ "start"%string := {| Median := 90; MAD := 10 |};
                   "end"%string := {| Median := 50; MAD := 10 |};
                   "serverStatus.asserts"%string := {| Median := 100; MAD := 10 |} ]} |}.

Definition c0_9 : float := S754_finite false 8106479329266893 (-53).
Definition c0_5 : float := S754_finite false 4503599627370496 (-53).

(** C2.  [Proximal] sorts the collected scores ascending: the slice it
    weighs is a permutation of the collected scores in which no score is
    less than an earlier one (for well-formed Stats: every score is at
    most each later one).  The score at index [i] contributes
    [score_i * 2^-(i+1)] to a running total that starts from the
    accumulator of the sample-count test (-0.1 when the test fails, 0
    otherwise), the final score is the square root of that total, and the
    verdict is [score >= 1 - threshold].  The same holds of every
    execution, whatever the order of the map and of tied scores. *)
Theorem C2_rank_weighted_aggregate (thr : float) (a b : Stats) :
  (let scores := collect thr a b (map fst (map_to_list (Metrics a))) in
   let sorted := sort_scores scores in
   let start := if count_exceeds thr a b then SFopp c0_1 else zero in
   let score := sqrt (running_total start (map num sorted)) in
   Permutation scores sorted /\
   (forall (i j : nat) (x y : cmpScore),
       (i < j)%nat -> sorted !! i = Some x -> sorted !! j = Some y ->
       ltb (num y) (num x) = false) /\
   (wf_Stats a -> wf_Stats b ->
    forall (i j : nat) (x y : cmpScore),
      (i < j)%nat -> sorted !! i = Some x -> sorted !! j = Some y ->
      leb (num x) (num y) = true) /\
   snd (fst (Proximal thr a b)) = score /\
   snd (Proximal thr a b) = leb (sub one thr) score) /\
  (forall res : string * float * bool,
      Proximal_returns thr a b res ->
      exists (ks : list string) (sorted : list cmpScore),
        range_of (Metrics a) ks /\
        Permutation (collect thr a b ks) sorted /\
        (forall (i j : nat) (x y : cmpScore),
            (i < j)%nat -> sorted !! i = Some x -> sorted !! j = Some y ->
            ltb (num y) (num x) = false) /\
        let start := if count_exceeds thr a b then SFopp c0_1 else zero in
        let score := sqrt (running_total start (map num sorted)) in
        snd (fst res) = score /\
        snd res = leb (sub one thr) score).
Proof.
  split.
  - cbv zeta.
    set (scores := collect thr a b (map fst (map_to_list (Metrics a)))).
    destruct (sort_scores_sorted_of scores) as [Hp Hs].
    split; [exact Hp|]. split; [apply ascending_lookup; exact Hs|]. split.
    + intros Wa Wb i j x y Hij Hi Hj.
      pose proof (ascending_lookup _ Hs i j x y Hij Hi Hj) as Hlt.
      pose proof (Permutation_Forall Hp (collect_unit_range thr a b _ Wa Wb)) as U.
      pose proof (fin64_num64 _ (proj1 (Forall_lookup_1 _ _ _ _ U Hi))) as Nx.
      pose proof (fin64_num64 _ (proj1 (Forall_lookup_1 _ _ _ _ U Hj))) as Ny.
      rewrite (ltb_rank _ _ Ny Nx) in Hlt. apply Z.ltb_ge in Hlt.
      rewrite (leb_rank _ _ Nx Ny). now apply Z.leb_le.
    + unfold Proximal, finish, sample_check. fold scores. cbn [fst snd].
      rewrite weigh_running_total.
      destruct (count_exceeds thr a b); cbn [snd]; split; reflexivity.
  - intros res (ks & sorted & Hks & [Hp Hs] & ->).
    exists ks, sorted. split; [exact Hks|]. split; [exact Hp|].
    split; [apply ascending_lookup; exact Hs|].
    cbv zeta. unfold finish, sample_check. cbn [fst snd].
    rewrite weigh_running_total.
    destruct (count_exceeds thr a b); cbn [snd]; split; reflexivity.
Qed.

(** On [three_a] and [three_b] the map yields the scores 1, 0.9, 0.5;
    they are weighed as 0.5, 0.9, 1. *)
Lemma C2_rank_weighted_aggregate_witness :
  let scores := collect CmpThreshold three_a three_b
                  (map fst (map_to_list (Metrics three_a))) in
  map num scores = [one; c0_9; c0_5] /\
  map num (sort_scores scores) = [c0_5; c0_9; one] /\
  snd (fst (Proximal CmpThreshold three_a three_b)) =
    sqrt (add (add (add zero (mul (Pow2neg 1) c0_5)) (mul (Pow2neg 2) c0_9))
              (mul (Pow2neg 3) one)) /\
  snd (Proximal CmpThreshold three_a three_b) =
    leb (sub one CmpThreshold)
        (sqrt (add (add (add zero (mul (Pow2neg 1) c0_5)) (mul (Pow2neg 2) c0_9))
                   (mul (Pow2neg 3) one))).
Proof.
  intros scores.
  assert (E1 : map num scores = [one; c0_9; c0_5]) by (vm_compute; reflexivity).
  assert (E2 : map num (sort_scores scores) = [c0_5; c0_9; one]) by (vm_compute; reflexivity).
  assert (E3 : count_exceeds CmpThreshold three_a three_b = false) by (vm_compute; reflexivity).
  destruct (C2_rank_weighted_aggregate CmpThreshold three_a three_b) as [H _].
  cbv zeta in H. fold scores in H. rewrite E2, E3 in H.
  destruct H as (_ & _ & _ & H4 & H5).
  split; [exact E1|]. split; [exact E2|]. split; [exact H4 | exact H5].
Defined.

(** ** C3: the per-metric comparator *)

(** The relative deviation of two integer statistics, in the words of the
    spec: the absolute difference between the two values divided by the
    larger of their absolute values.  The difference and the maximum are
    those of the integers themselves; the quotient is taken in float64. *)
Definition relative_deviation (x y : Z) : float :=
  div (of_int (Z.abs (x - y))) (of_int (Z.max (Z.abs x) (Z.abs y))).

Lemma metric_at_Some (s : Stats) (key : string) (m : MetricStat) :
  Metrics s !! key = Some m -> metric_at s key = m.
Proof. intros H. unfold metric_at. now rewrite H. Qed.

(** Medians at the two ends of Go's [int], MADs 4 and 3. *)
Definition overflow_a : Stats :=
  {| NSamples := 100;
     Metrics := {[ "start"%string := {| Median := int_max; MAD := 4 |} ]} |}.

Definition overflow_b : Stats :=
  {| NSamples := 100;
     Metrics := {[ "start"%string := {| Median := int_min; MAD := 3 |} ]} |}.

Definition c0_75 : float := S754_finite false 6755399441055744 (-53).

(** C3.  The comparator takes the difference of the medians in Go's
    [int] before it converts it (line 149), so the difference wraps
    around: for the medians [MaxInt64] and [MinInt64] and the MADs 4 and
    3 it is -1, the relative deviation the code uses is [2^-63] and the
    score is 0.75, where the relative deviation of the medians is 2 and
    the formula [(1 - relMedian) * (1 - relMAD)] gives -0.75.  (The
    sample-count test of [Proximal], lines 85-87, converts before it
    subtracts.) *)
Theorem C3_compareMetrics_overflow :
  let a := {| Median := int_max; MAD := 4 |} in
  let b := {| Median := int_min; MAD := 3 |} in
  Metrics overflow_a !! "start"%string = Some a /\
  Metrics overflow_b !! "start"%string = Some b /\
  wf_Stats overflow_a /\ wf_Stats overflow_b /\
  int_sub (Median a) (Median b) = - 1 /\
  relative_deviation (Median a) (Median b) = two /\
  num (compareMetrics CmpThreshold overflow_a overflow_b "start") = c0_75 /\
  mul (sub one (relative_deviation (Median a) (Median b)))
      (sub one (relative_deviation (MAD a) (MAD b))) = SFopp c0_75.
Proof.
  cbv zeta.
  split; [vm_compute; reflexivity|]. split; [vm_compute; reflexivity|].
  split; [split; [vm_compute; split; discriminate|];
          apply map_Forall_singleton; vm_compute; split; split; discriminate|].
  split; [split; [vm_compute; split; discriminate|];
          apply map_Forall_singleton; vm_compute; split; split; discriminate|].
  repeat split; vm_compute; reflexivity.
Qed.

(** ** C4: the metric filter *)

(** C4. The filter accepts a key exactly when the key's first [n]
    dot-separated segments, joined by dots, form an entry of the
    allow-list for some [n] from 1 to the number of segments; it accepts
    "serverStatus.mem.resident" and "serverStatus.mem.resident.extra" and
    rejects "notAMetric.foo". *)
Theorem C4_filter_prefix_semantics :
  (forall key : string,
      isCmpMetric key = true <->
      exists n, (1 <= n <= length (split_dot key))%nat /\
                is_Some (cmpMetrics !! join_dot (take n (split_dot key)))) /\
  isCmpMetric "serverStatus.mem.resident" = true /\
  isCmpMetric "serverStatus.mem.resident.extra" = true /\
  isCmpMetric "notAMetric.foo" = false.
Proof.
  split; [| split; [| split]; vm_compute; reflexivity].
  intros key; unfold isCmpMetric; rewrite isCmpMetric_from_true; split.
  - intros (j & Hj & Hl); exists (S j); split; [lia | now apply listed_true].
  - intros (n & Hn & Hl); destruct n as [|j]; [lia |].
    exists j; split; [lia | now apply listed_true].
Qed.

Lemma int_sub_exact (x y : Z) : is_int (x - y) -> int_sub x y = x - y.
Proof. apply wrap_exact. Qed.

(** ** C5: both sample counts zero *)

(** C5.  With both sample counts zero the ratio of the sample-count test
    is 0/0, a NaN and not a failure; NaN does not exceed any threshold, so
    no sample-count line is written and the accumulator starts at 0; and
    Proximal returns a result. *)
Theorem C5_zero_sample_counts (thr : float) (a b : Stats) :
  NSamples a = 0 -> NSamples b = 0 ->
  count_ratio a b = S754_nan /\
  count_exceeds thr a b = false /\
  sample_check thr a b = (EmptyString, zero) /\
  Proximal_returns thr a b (Proximal thr a b) /\
  (forall res, Proximal_returns thr a b res ->
               exists sorted, res = finish thr (EmptyString, zero) sorted).
Proof.
  intros Ha Hb.
  assert (Hr : count_ratio a b = S754_nan).
  { unfold count_ratio. rewrite Ha, Hb. reflexivity. }
  assert (He : count_exceeds thr a b = false).
  { unfold count_exceeds. rewrite Hr. destruct thr; reflexivity. }
  assert (Hs : sample_check thr a b = (EmptyString, zero)).
  { unfold sample_check. now rewrite He. }
  repeat split; try assumption.
  - apply Proximal_is_run.
  - intros res (ks & sorted & _ & _ & ->). exists sorted. now rewrite Hs.
Qed.

Lemma C5_zero_sample_counts_witness :
  let z := {| NSamples := 0; Metrics := Metrics scenario_stats |} in
  count_ratio z z = S754_nan /\
  count_exceeds CmpThreshold z z = false /\
  sample_check CmpThreshold z z = (EmptyString, zero) /\
  Proximal_returns CmpThreshold z z (Proximal CmpThreshold z z) /\
  (forall res, Proximal_returns CmpThreshold z z res ->
               exists sorted, res = finish CmpThreshold (EmptyString, zero) sorted).
Proof.
  apply (C5_zero_sample_counts CmpThreshold
           {| NSamples := 0; Metrics := Metrics scenario_stats |}
           {| NSamples := 0; Metrics := Metrics scenario_stats |}); reflexivity.
Defined.


(** ** C6: monotonicity in the threshold *)

(** C6.  For well-formed Stats and two thresholds t1 < t2 strictly between
    0 and 1: if an execution under t1 returns ok = true, then every
    execution under t2 on the same inputs returns ok = true. *)
Theorem C6_threshold_monotone (t1 t2 : float) (a b : Stats)
        (res1 res2 : string * float * bool) :
  wf_Stats a -> wf_Stats b ->
  valid_binary prec emax t1 = true -> valid_binary prec emax t2 = true ->
  ltb zero t1 = true -> ltb t1 t2 = true -> ltb t2 one = true ->
  Proximal_returns t1 a b res1 -> Proximal_returns t2 a b res2 ->
  snd res1 = true -> snd res2 = true.
Proof.
  intros Wa Wb V1 V2 H0 H12 H1
         (ks1 & s1 & K1 & S1 & ->) (ks2 & s2 & K2 & S2 & ->) Hok.
  unfold finish in *. cbn [fst snd] in *.
  (* the thresholds *)
  assert (H01 : ltb t1 one = true) by (apply (SFltb_trans _ _ _ H12 H1)).
  assert (H02 : ltb zero t2 = true) by (apply (SFltb_trans _ _ _ H0 H12)).
  pose proof (threshold_finite t1 V1 H0 H01) as F1.
  pose proof (threshold_finite t2 V2 H02 H1) as F2.
  rewrite (ltb_rank t1 t2 (fin64_num64 _ F1) (fin64_num64 _ F2)) in H12.
  apply Z.ltb_lt in H12.
  destruct (sub_finite one t1 fin64_one F1) as [Nc1 Ec1].
  destruct (sub_finite one t2 fin64_one F2) as [Nc2 Ec2].
  assert (Hc : rank prec emax (sub one t2) <= rank prec emax (sub one t1)).
  { rewrite Ec1, Ec2. apply nval64_mono. lia. }
  (* the accumulators *)
  destruct (start_number t1 a b) as [Na1 _]. destruct (start_number t2 a b) as [Na2 _].
  assert (Ha : rank prec emax (snd (sample_check t1 a b))
               <= rank prec emax (snd (sample_check t2 a b))).
  { apply start_mono. apply Z.ltb_lt in H12.
    now rewrite (ltb_rank t1 t2 (fin64_num64 _ F1) (fin64_num64 _ F2)). }
  pose proof (sorted_unit_range t1 a b ks1 s1 Wa Wb S1) as U1.
  pose proof (sorted_unit_range t2 a b ks2 s2 Wa Wb S2) as U2.
  destruct S1 as [P1 A1], S2 as [P2 A2].
  pose proof (nums_permutation t1 t2 a b ks1 ks2 s1 s2 K1 K2 P1 P2) as Pn.
  pose proof (sorted_scores_le s1 s2 U1 U2 A1 A2 Pn) as Hle.
  destruct (weigh_from_mono s1 s2 Hle 0 _ _ ltac:(lia) Na1 Na2 Ha) as (Nw1 & Nw2 & Hw).
  fold (weigh (snd (sample_check t1 a b)) s1) in Nw1, Hw.
  fold (weigh (snd (sample_check t2 a b)) s2) in Nw2, Hw.
  set (w1 := weigh (snd (sample_check t1 a b)) s1) in *.
  set (w2 := weigh (snd (sample_check t2 a b)) s2) in *.
  (* the square roots *)
  assert (Nz : number prec emax zero) by (apply fin64_num64, fin64_zero).
  assert (Hw1 : 0 <= rank prec emax w1).
  { destruct (ltb w1 zero) eqn:E.
    - rewrite (sqrt_negative w1 E), leb_nan_r in Hok. discriminate Hok.
    - rewrite (ltb_rank w1 zero Nw1 Nz) in E. apply Z.ltb_ge in E. exact E. }
  destruct (sqrt_mono w1 w2 Nw1 Nw2 (conj Hw1 Hw)) as (Ns1 & Ns2 & _ & Hs).
  rewrite (leb_rank _ _ Nc1 Ns1) in Hok. apply Z.leb_le in Hok.
  rewrite (leb_rank _ _ Nc2 Ns2). apply Z.leb_le. lia.
Qed.

(** Two metrics, the same on both sides; one half as a threshold. *)
Definition stats_2 : Stats :=
  {| NSamples := 100;
     Metrics := {[ "start"%string := {| Median := 5; MAD := 1 |};
                   "end"%string := {| Median := 7; MAD := 2 |} ]} |}.

Definition half : float := S754_finite false 4503599627370496 (-53).

Lemma C6_threshold_monotone_witness :
  snd (Proximal CmpThreshold stats_2 stats_2) = true /\
  snd (Proximal half stats_2 stats_2) = true.
Proof.
  assert (W : wf_Stats stats_2).
  { split; [vm_compute; split; discriminate | apply (bool_decide_unpack _); vm_compute; exact I]. }
  assert (R1 : Proximal_returns CmpThreshold stats_2 stats_2
                 (Proximal CmpThreshold stats_2 stats_2)).
  { exists (map fst (map_to_list (Metrics stats_2))), [perfect; perfect].
    split; [apply Permutation_refl|].
    split; [|vm_compute; reflexivity].
    split; [vm_compute; apply Permutation_refl | repeat constructor]. }
  assert (R2 : Proximal_returns half stats_2 stats_2 (Proximal half stats_2 stats_2)).
  { exists (map fst (map_to_list (Metrics stats_2))), [perfect; perfect].
    split; [apply Permutation_refl|].
    split; [|vm_compute; reflexivity].
    split; [vm_compute; apply Permutation_refl | repeat constructor]. }
  assert (H1 : snd (Proximal CmpThreshold stats_2 stats_2) = true) by (vm_compute; reflexivity).
  split; [exact H1|].
  apply (C6_threshold_monotone CmpThreshold half stats_2 stats_2
           (Proximal CmpThreshold stats_2 stats_2) (Proximal half stats_2 stats_2)
           W W eq_refl eq_refl eq_refl eq_refl eq_refl R1 R2 H1).
Defined.

(** ** C7: the message *)

(** The relative deviations are defined when the medians differ and
    neither maximum of absolute values is zero. *)
Definition reaches_deviation (a b : MetricStat) : bool :=
  negb (Median a =? Median b) &&
  negb ((Z.max (Z.abs (MAD a)) (Z.abs (MAD b)) =? 0)
        || (Z.max (Z.abs (Median a)) (Z.abs (Median b)) =? 0)).

(** relMAD and relMedian: the relative deviations of the two MADs and of
    the two medians. *)
Definition relMAD (a b : MetricStat) : option float :=
  if reaches_deviation a b then Some (relative_deviation (MAD a) (MAD b)) else None.

Definition relMedian (a b : MetricStat) : option float :=
  if reaches_deviation a b then Some (relative_deviation (Median a) (Median b)) else None.

(** [r > threshold] for a relative deviation that may not be defined. *)
Definition exceeds (thr : float) (r : option float) : bool :=
  match r with
  | Some x => ltb thr x
  | None => false
  end.

(** A diagnostic line, naming the metric, the two values and the
    threshold percentage. *)
Definition diagnostic_line (key what : string) (x y : Z) (thr : float) : string :=
  ("metric '" ++ key ++ "' not proximal: " ++ what ++ " (" ++ fmt_d x ++ ", " ++ fmt_d y
   ++ ") are not within threshold (" ++ fmt_d (to_int (mul thr hundred)) ++ ")" ++ nl)%string.

(** The diagnostic fragment of one metric: a MAD line when relMAD exceeds
    the threshold, then a median line when relMedian exceeds it. *)
Definition fragment (thr : float) (sa sb : Stats) (key : string) : string :=
  let a := metric_at sa key in
  let b := metric_at sb key in
  ((if exceeds thr (relMAD a b)
    then diagnostic_line key "deviations" (MAD a) (MAD b) thr else EmptyString)
   ++ (if exceeds thr (relMedian a b)
       then diagnostic_line key "medians" (Median a) (Median b) thr else EmptyString))%string.

Definition cat_all (l : list string) : string :=
  fold_right String.append EmptyString l.

Lemma string_app_assoc (x y z : string) : ((x ++ y) ++ z = x ++ (y ++ z))%string.
Proof.
  induction x as [|c x IH]; [reflexivity|].
  change (String c ((x ++ y) ++ z) = String c (x ++ (y ++ z)))%string.
  now rewrite IH.
Qed.

Lemma string_app_nil_r (x : string) : (x ++ EmptyString = x)%string.
Proof.
  induction x as [|c x IH]; [reflexivity|].
  change (String c (x ++ EmptyString) = String c x)%string.
  now rewrite IH.
Qed.

Lemma buffer_cat_all (l : list cmpScore) : buffer l = cat_all (map msg l).
Proof.
  unfold buffer.
  assert (H : forall acc, fold_left (fun buf c => (buf ++ msg c)%string) l acc
                          = (acc ++ cat_all (map msg l))%string).
  { induction l as [|c l IH]; intros acc; cbn [fold_left map cat_all fold_right].
    - now rewrite string_app_nil_r.
    - rewrite IH. apply string_app_assoc. }
  apply H.
Qed.

Lemma range_of_keys (m : gmap string MetricStat) (ks : list string) :
  range_of m ks -> List.NoDup ks /\ (forall k, In k ks <-> is_Some (m !! k)).
Proof.
  intros H. split.
  - eapply Permutation_NoDup; [symmetry; exact H|].
    apply NoDup_ListNoDup. exact (NoDup_fst_map_to_list m).
  - intros k. split.
    + intros Hk. apply (Permutation_in _ H) in Hk.
      apply in_map_iff in Hk as [[k' v] [<- Hkv]].
      apply list_elem_of_In, elem_of_map_to_list in Hkv. now exists v.
    + intros [v Hv]. apply (Permutation_in _ (Permutation_sym H)).
      apply in_map_iff. exists (k, v). split; [reflexivity|].
      apply list_elem_of_In, elem_of_map_to_list. exact Hv.
Qed.

(** C7.  On the medians [MaxInt64] and [MinInt64] (MADs 4 and 3, equal
    sample counts) relMedian is 2 and exceeds the threshold 0.2, yet the
    message of [Proximal] is the MAD line alone: the comparator tests the
    ratio that it computes from the wrapped difference of the medians
    (line 149), which is [2^-63].  This is the defect of C3. *)
Theorem C7_message_overflow :
  let a := {| Median := int_max; MAD := 4 |} in
  let b := {| Median := int_min; MAD := 3 |} in
  relMAD a b = Some (S754_finite false 4503599627370496 (-54)) /\
  relMedian a b = Some two /\
  exceeds CmpThreshold (relMAD a b) = true /\
  exceeds CmpThreshold (relMedian a b) = true /\
  fragment CmpThreshold overflow_a overflow_b "start" =
    ("metric 'start' not proximal: deviations (4, 3) are not within threshold (20)" ++ nl ++
     "metric 'start' not proximal: medians (9223372036854775807, -9223372036854775808) are not within threshold (20)"
     ++ nl)%string /\
  fst (fst (Proximal CmpThreshold overflow_a overflow_b)) =
    ("metric 'start' not proximal: deviations (4, 3) are not within threshold (20)" ++ nl)%string.
Proof. cbv zeta. repeat split; vm_compute; reflexivity. Qed.

(** The scenario of the spec with a median of 100 and 130 samples on the
    second side. *)
Definition scenario_far : Stats :=
  {| NSamples := 130;
     Metrics := {[ "serverStatus.mem.resident"%string := {| Median := 100; MAD := 2 |} ]} |}.

(** The message of that comparison: the sample-count line, then the
    median line of the one metric. *)
Example Proximal_far_message :
  fst (fst (Proximal CmpThreshold scenario_stats scenario_far)) =
  ("sample count not proximal: (100, 130) are not within threshold (20%)" ++ nl ++
   "metric 'serverStatus.mem.resident' not proximal: medians (50, 100) are not within threshold (20)"
   ++ nl)%string.
Proof. vm_compute. reflexivity. Qed.

(** ** C8: the range of a per-metric score *)

(** Medians 1 and -1, MADs 1 and 2: relMedian is 2 and relMAD is 1/2. *)
Definition opposite_a : Stats :=
  {| NSamples := 100; Metrics := {[ "start"%string := {| Median := 1; MAD := 1 |} ]} |}.

Definition opposite_b : Stats :=
  {| NSamples := 100; Metrics := {[ "start"%string := {| Median := - 1; MAD := 2 |} ]} |}.

(** C8, as the spec states it, fails when the medians have opposite
    signs: the score of the metric is (1 - 2) * (1 - 1/2) = -1/2, below
    the penalty -0.1. *)
Lemma C8_score_below_penalty_counterexample :
  Metrics opposite_a !! "start"%string = Some {| Median := 1; MAD := 1 |} /\
  Metrics opposite_b !! "start"%string = Some {| Median := - 1; MAD := 2 |} /\
  num (compareMetrics CmpThreshold opposite_a opposite_b "start")
    = S754_finite true 4503599627370496 (-53) /\
  leb badTimePenalty (num (compareMetrics CmpThreshold opposite_a opposite_b "start")) = false.
Proof. repeat split; vm_compute; reflexivity. Qed.

(** C8 (amended).  For every key present in both Stats, the score that
    the per-metric comparator produces lies in [-1, 1]. *)
Theorem C8_score_range (thr : float) (sa sb : Stats) (key : string) (a b : MetricStat) :
  wf_MetricStat a -> wf_MetricStat b ->
  Metrics sa !! key = Some a -> Metrics sb !! key = Some b ->
  leb (SFopp one) (num (compareMetrics thr sa sb key)) = true /\
  leb (num (compareMetrics thr sa sb key)) one = true.
Proof.
  intros Wa Wb Ha Hb.
  destruct (compareMetrics_unit_range thr sa sb key) as [F [L U]].
  - now rewrite (metric_at_Some sa key a Ha).
  - now rewrite (metric_at_Some sb key b Hb).
  - assert (N : number prec emax (num (compareMetrics thr sa sb key)))
      by (apply fin64_num64; exact F).
    assert (N1 : number prec emax one) by (split; [reflexivity | discriminate]).
    assert (N2 : number prec emax (SFopp one)) by (split; [reflexivity | discriminate]).
    rewrite (leb_rank _ _ N2 N), (leb_rank _ _ N N1).
    rewrite (rank_SFopp prec emax prec_gt_1 prec_lt_emax).
    split; apply Z.leb_le; lia.
Qed.

Lemma C8_score_range_witness :
  leb (SFopp one) (num (compareMetrics CmpThreshold opposite_a opposite_b "start")) = true /\
  leb (num (compareMetrics CmpThreshold opposite_a opposite_b "start")) one = true.
Proof.
  apply (C8_score_range CmpThreshold opposite_a opposite_b "start"
           {| Median := 1; MAD := 1 |} {| Median := - 1; MAD := 2 |});
    first [ vm_compute; reflexivity
          | split; vm_compute; split; discriminate ].
Defined.

(** ** C9: the sign of the returned score *)

(** The penalty applies and no metric is compared. *)
Definition empty_100 : Stats := {| NSamples := 100; Metrics := ∅ |}.
Definition empty_130 : Stats := {| NSamples := 130; Metrics := ∅ |}.

(** C9, as the spec states it, fails: the score is a square root, and no
    input makes it less than zero. *)
Lemma C9_no_negative_score_counterexample :
  ~ (exists (thr : float) (a b : Stats) (res : string * float * bool),
        Proximal_returns thr a b res /\ ltb (snd (fst res)) zero = true).
Proof.
  intros (thr & a & b & res & (ks & sorted & _ & _ & ->) & H).
  unfold finish in H. cbn [fst snd] in H.
  rewrite sqrt_not_negative in H. discriminate H.
Qed.

(** C9 (amended).  The score returned by Proximal is never less than
    zero; it may be NaN, which is what the square root of a negative
    accumulator is: with 100 against 130 samples and no compared metric
    the score is NaN. *)
Theorem C9_score_sign (thr : float) (a b : Stats) (res : string * float * bool) :
  Proximal_returns thr a b res ->
  ltb (snd (fst res)) zero = false /\
  (forall r, Proximal_returns CmpThreshold empty_100 empty_130 r ->
             snd (fst r) = S754_nan).
Proof.
  intros (ks & sorted & _ & _ & ->). split.
  - unfold finish. cbn [fst snd]. apply sqrt_not_negative.
  - intros r (ks' & sorted' & Hks & [Hp _] & ->).
    rewrite collect_map in Hp.
    assert (E : ks' = []).
    { apply Permutation_nil. symmetry. exact Hks. }
    subst ks'. apply Permutation_nil in Hp. subst sorted'. reflexivity.
Qed.

Lemma C9_score_sign_witness :
  ltb (snd (fst (Proximal CmpThreshold empty_100 empty_130))) zero = false /\
  (forall r, Proximal_returns CmpThreshold empty_100 empty_130 r ->
             snd (fst r) = S754_nan).
Proof.
  apply (C9_score_sign CmpThreshold empty_100 empty_130).
  exists [], [].
  split; [vm_compute; apply Permutation_refl|].
  split; [|vm_compute; reflexivity].
  split; [vm_compute; apply Permutation_refl | constructor].
Defined.

(** ** C10: the score and the accumulator under the square root *)

(** 54 metrics under the listed prefix "start", the same on both sides. *)
Definition stats_54 : Stats :=
  {| NSamples := 100;
     Metrics :=
       list_to_map
         (map (fun i => (("start." ++ fmt_d (Z.of_nat i))%string, {| Median := 5; MAD := 1 |}))
              (seq 0 54)) |}.

(** C10, as stated, fails in its second half: with 54 compared metrics
    that all score 1, the sum of the weights rounds to exactly 1, the
    returned score is exactly 1 and so not below 1. *)
Lemma C10_score_reaches_one_counterexample :
  Proximal_returns CmpThreshold stats_54 stats_54 (EmptyString, one, true) /\
  is_nan one = false /\ ltb one one = false.
Proof.
  split; [|split; reflexivity].
  assert (E : Proximal CmpThreshold stats_54 stats_54 = (EmptyString, one, true))
    by (vm_compute; reflexivity).
  rewrite <- E. apply Proximal_is_run.
Qed.

(** C10 (amended).  In every execution on well-formed Stats: when the
    accumulator under the square root is negative -- as it is when the
    penalty applies and no metric is compared -- the score is NaN and the
    verdict is false; otherwise the score lies in [0, 1]. *)
Theorem C10_score_range (thr : float) (a b : Stats) (ks : list string)
        (sorted : list cmpScore) :
  wf_Stats a -> wf_Stats b ->
  range_of (Metrics a) ks -> sorted_of (collect thr a b ks) sorted ->
  let acc := weigh (snd (sample_check thr a b)) sorted in
  let res := finish thr (sample_check thr a b) sorted in
  (ltb acc zero = true -> snd (fst res) = S754_nan /\ snd res = false) /\
  (ltb acc zero = false ->
   leb zero (snd (fst res)) = true /\ leb (snd (fst res)) one = true) /\
  (count_exceeds thr a b = true -> sorted = [] -> ltb acc zero = true).
Proof.
  intros Wa Wb Hks Hs acc res.
  destruct (start_number thr a b) as [N0 R0].
  pose proof (sorted_unit_range thr a b ks sorted Wa Wb Hs) as Hu.
  destruct (weigh_le_one _ sorted N0 R0 Hu) as [Na Ua]. fold acc in Na, Ua.
  assert (Nz : number prec emax zero) by (apply fin64_num64, fin64_zero).
  assert (N1 : number prec emax one) by (apply fin64_num64, fin64_one).
  subst res. unfold finish. cbn [fst snd]. fold acc.
  split; [|split].
  - intros Hneg. rewrite (sqrt_negative acc Hneg). split; [reflexivity | apply leb_nan_r].
  - intros Hpos. rewrite (ltb_rank acc zero Na Nz) in Hpos. apply Z.ltb_ge in Hpos.
    change (rank prec emax zero) with 0 in Hpos.
    destruct (sqrt_mono acc one Na N1 (conj Hpos Ua)) as (Ns & _ & L & U).
    rewrite sqrt_one in U.
    rewrite (leb_rank _ _ Nz Ns), (leb_rank _ _ Ns N1).
    split; apply Z.leb_le; [exact L | exact U].
  - intros He ->. subst acc. unfold sample_check. rewrite He. reflexivity.
Qed.

Lemma C10_score_range_witness :
  let acc := weigh (snd (sample_check CmpThreshold empty_100 empty_130)) [] in
  let res := finish CmpThreshold (sample_check CmpThreshold empty_100 empty_130) [] in
  (ltb acc zero = true -> snd (fst res) = S754_nan /\ snd res = false) /\
  (ltb acc zero = false ->
   leb zero (snd (fst res)) = true /\ leb (snd (fst res)) one = true) /\
  (count_exceeds CmpThreshold empty_100 empty_130 = true -> @nil cmpScore = [] ->
   ltb acc zero = true).
Proof.
  apply (C10_score_range CmpThreshold empty_100 empty_130 [] []).
  - split; [vm_compute; split; discriminate | apply (bool_decide_unpack _); vm_compute; exact I].
  - split; [vm_compute; split; discriminate | apply (bool_decide_unpack _); vm_compute; exact I].
  - vm_compute. apply Permutation_refl.
  - split; [vm_compute; apply Permutation_refl | constructor].
Defined.


(** * Further properties of the code *)

(** ** The metric filter: prefixes and subtrees *)

Section FilterMore.

Lemma join_dot_cons (x y : string) (l : list string) :
  join_dot (x :: y :: l) = (x ++ "." ++ join_dot (y :: l))%string.
Proof. reflexivity. Qed.

Lemma ascii_eqb_dot (c : ascii) : Ascii.eqb c "."%char = true -> c = "."%char.
Proof. apply Ascii.eqb_eq. Qed.

(** [strings.Join(strings.Split(key, "."), ".")] is [key]. *)
Lemma join_split_dot (key : string) : join_dot (split_dot key) = key.
Proof.
  induction key as [|c rest IH]; [reflexivity|].
  cbn [split_dot]. destruct (Ascii.eqb c ".") eqn:E.
  - apply ascii_eqb_dot in E. subst c.
    destruct (split_dot rest) as [|seg segs] eqn:Es;
      [now apply split_dot_nonempty in Es|].
    rewrite join_dot_cons, IH. reflexivity.
  - destruct (split_dot rest) as [|seg segs] eqn:Es;
      [now apply split_dot_nonempty in Es|].
    rewrite <- IH. destruct segs as [|seg' segs]; [reflexivity|].
    rewrite !join_dot_cons. reflexivity.
Qed.

(** Splitting a key followed by a dot and a suffix gives the segments of
    the key followed by those of the suffix. *)
Lemma split_dot_app (key rest : string) :
  split_dot (key ++ "." ++ rest) = split_dot key ++ split_dot rest.
Proof.
  induction key as [|c key IH]; [reflexivity|].
  change (String c key ++ "." ++ rest)%string with (String c (key ++ "." ++ rest))%string.
  cbn [split_dot]. rewrite IH.
  destruct (Ascii.eqb c "."); [reflexivity|].
  destruct (split_dot key) as [|seg segs] eqn:Es;
    [now apply split_dot_nonempty in Es|].
  reflexivity.
Qed.

Lemma isCmpMetric_true (key : string) :
  isCmpMetric key = true <->
  exists n, (1 <= n <= length (split_dot key))%nat /\
            listed (join_dot (take n (split_dot key))) = true.
Proof.
  unfold isCmpMetric. rewrite isCmpMetric_from_true. split.
  - intros (j & Hj & Hl). exists (S j). split; [lia | exact Hl].
  - intros (n & Hn & Hl). destruct n as [|j]; [lia|].
    exists j. split; [lia | exact Hl].
Qed.

End FilterMore.

(** X1.  Every entry of the allow-list passes the filter: the last prefix
    that the loop builds is the key itself. *)
Theorem X1_listed_keys_accepted (key : string) :
  is_Some (cmpMetrics !! key) -> isCmpMetric key = true.
Proof.
  intros H. apply isCmpMetric_true.
  exists (length (split_dot key)). split.
  - pose proof (split_dot_nonempty key).
    destruct (split_dot key); [contradiction | cbn [length]; lia].
  - rewrite firstn_all, join_split_dot. now apply listed_true.
Qed.

Lemma X1_listed_keys_accepted_witness :
  isCmpMetric "serverStatus.wiredTiger.block-manager" = true.
Proof.
  apply X1_listed_keys_accepted. vm_compute. eexists. reflexivity.
Defined.

(** X2.  The accepted keys are closed under extension: when a key passes
    the filter, so does the key followed by a dot and any further text. *)
Theorem X2_descendants_accepted (key rest : string) :
  isCmpMetric key = true -> isCmpMetric (key ++ "." ++ rest) = true.
Proof.
  rewrite !isCmpMetric_true. intros (n & Hn & Hl).
  exists n. rewrite split_dot_app. split.
  - rewrite length_app. lia.
  - rewrite take_app_le by lia. exact Hl.
Qed.

Lemma X2_descendants_accepted_witness :
  isCmpMetric ("serverStatus.opcounters" ++ "." ++ "insert.total") = true.
Proof. apply X2_descendants_accepted. vm_compute. reflexivity. Defined.

Section FilterSegments.

(** A segment produced by [strings.Split(key, ".")] holds no dot. *)
Fixpoint dotfree (s : string) : bool :=
  match s with
  | EmptyString => true
  | String c rest => negb (Ascii.eqb c "."%char) && dotfree rest
  end.

Lemma split_dot_dotfree (key : string) :
  List.Forall (fun seg => dotfree seg = true) (split_dot key).
Proof.
  induction key as [|c rest IH]; [repeat constructor|].
  cbn [split_dot]. destruct (Ascii.eqb c ".") eqn:E.
  - constructor; [reflexivity | exact IH].
  - destruct (split_dot rest) as [|seg segs]; [repeat constructor; cbn; now rewrite E|].
    inversion IH; subst. constructor; [cbn [dotfree]; rewrite E; assumption | assumption].
Qed.

Lemma split_dot_single (seg : string) : dotfree seg = true -> split_dot seg = [seg].
Proof.
  induction seg as [|c rest IH]; [reflexivity|].
  cbn [dotfree split_dot]. intros H. apply andb_true_iff in H as [Hc Hr].
  apply negb_true_iff in Hc. rewrite Hc, (IH Hr). reflexivity.
Qed.

Lemma split_join_dot (segs : list string) :
  segs <> [] -> List.Forall (fun seg => dotfree seg = true) segs ->
  split_dot (join_dot segs) = segs.
Proof.
  induction segs as [|x l IH]; [congruence|]. intros _ H.
  inversion H as [|? ? Hx Hl]; subst.
  destruct l as [|y l]; [now apply split_dot_single|].
  rewrite join_dot_cons, split_dot_app, (split_dot_single _ Hx), IH;
    [reflexivity | congruence | assumption].
Qed.

(** The keys of the allow-list, as written in the source. *)
Definition cmpMetrics_keys : list string :=
  [ "end"; "start"; "serverStatus.start"; "serverStatus.end";
    "serverStatus.asserts"; "serverStatus.mem.mapped";
    "serverStatus.mem.mappedWithJournal"; "serverStatus.mem.resident";
    "serverStatus.mem.supported"; "serverStatus.mem.virtual";
    "serverStatus.metrics.commands"; "serverStatus.metrics.cursor.open";
    "serverStatus.metrics.document"; "serverStatus.metrics.operation";
    "serverStatus.metrics.queryExecutor"; "serverStatus.metrics.record";
    "serverStatus.metrics.repl"; "serverStatus.metrics.storage";
    "serverStatus.metrics.ttl"; "serverStatus.opcounters";
    "serverStatus.opcountersRepl"; "serverStatus.wiredTiger.LSM";
    "serverStatus.wiredTiger.async"; "serverStatus.wiredTiger.block-manager";
    "serverStatus.wiredTiger.cache";
    "serverStatus.wiredTiger.concurrentTransactions";
    "serverStatus.wiredTiger.data-handle";
    "serverStatus.wiredTiger.reconciliation";
    "serverStatus.wiredTiger.session"; "serverStatus.writeBacksQueued" ]%string.

Lemma cmpMetrics_keys_eq :
  cmpMetrics = list_to_map (map (fun k => (k, true)) cmpMetrics_keys).
Proof. reflexivity. Qed.

Lemma listed_cases (e : string) : listed e = true -> In e cmpMetrics_keys.
Proof.
  unfold listed. intros H. apply bool_decide_eq_true in H. destruct H as [v Hv].
  rewrite cmpMetrics_keys_eq in Hv. apply elem_of_list_to_map_2 in Hv.
  apply list_elem_of_In in Hv. apply in_map_iff in Hv as (k & Hk & Hin).
  injection Hk as <- _. exact Hin.
Qed.

Definition top_level (seg : string) : bool :=
  (String.eqb seg "end" || String.eqb seg "start" || String.eqb seg "serverStatus")%bool.

Lemma listed_top_level (e : string) :
  listed e = true -> exists seg rest, split_dot e = seg :: rest /\ top_level seg = true.
Proof.
  intros H. apply listed_cases in H.
  assert (A : forallb (fun e => match split_dot e with
                                | seg :: _ => top_level seg | [] => false end)
                cmpMetrics_keys = true) by (vm_compute; reflexivity).
  rewrite forallb_forall in A. specialize (A e H).
  destruct (split_dot e) as [|seg rest]; [discriminate|]. now exists seg, rest.
Qed.

End FilterSegments.

(** X3.  Only keys under [end], [start] or [serverStatus] pass the filter:
    the first dot-separated segment of an accepted key is one of the
    three. *)
Theorem X3_accepted_top_level (key : string) :
  isCmpMetric key = true ->
  exists seg rest, split_dot key = seg :: rest /\
    (seg = "end" \/ seg = "start" \/ seg = "serverStatus")%string.
Proof.
  rewrite isCmpMetric_true. intros (n & Hn & Hl).
  apply listed_top_level in Hl as (seg & rest & Hs & Ht).
  pose proof (split_dot_dotfree key) as Hd.
  rewrite split_join_dot in Hs.
  - destruct (split_dot key) as [|seg' rest'] eqn:Ek; [cbn in Hn; lia|].
    destruct n as [|n]; [lia|]. cbn [take] in Hs. injection Hs as <- _.
    exists seg', rest'. split; [reflexivity|].
    unfold top_level in Ht. apply orb_true_iff in Ht as [Ht|Ht];
      [apply orb_true_iff in Ht as [Ht|Ht]|]; apply String.eqb_eq in Ht; tauto.
  - destruct (split_dot key); [cbn in Hn; lia|]. destruct n; [lia | discriminate].
  - clear -Hd. revert n. induction Hd; intros [|n]; cbn [take]; constructor; auto.
Qed.

Lemma X3_accepted_top_level_witness :
  exists seg rest, split_dot "start.local" = seg :: rest /\
    (seg = "end" \/ seg = "start" \/ seg = "serverStatus")%string.
Proof. apply X3_accepted_top_level. vm_compute. reflexivity. Defined.

(** ** Floats with the same rank *)

Section SameRank.

Local Abbreviation rk := (rank prec emax).
Local Abbreviation num64 := (number prec emax).
Local Abbreviation fin64 := (finite prec emax).
Local Abbreviation inf64 := (INF prec emax).
Local Abbreviation emin64 := (SpecFloat.emin prec emax).
Local Abbreviation nv := (nval prec emax).

(** Two numbers of the same rank are the same float, signed zeros apart. *)
Lemma rk_inj (x y : float) :
  num64 x -> num64 y -> rk x = rk y ->
  x = y \/ exists s1 s2, x = S754_zero s1 /\ y = S754_zero s2.
Proof.
  intros [Vx Nx] [Vy Ny] E.
  pose proof (INF_pos prec emax prec_gt_1 prec_lt_emax) as HI.
  destruct x as [sx|sx| |sx mx ex]; try congruence;
    destruct y as [sy|sy| |sy my ey]; try congruence;
    cbn [rank valid_binary] in *;
    try pose proof (finite_rank_bounds prec emax prec_gt_1 prec_lt_emax sx mx ex Vx) as Bx;
    try pose proof (finite_rank_bounds prec emax prec_gt_1 prec_lt_emax sy my ey Vy) as By.
  all: try lazymatch goal with
           | |- S754_finite _ _ _ = S754_finite _ _ _ \/ _ => fail
           | |- S754_zero _ = S754_zero _ \/ _ =>
               right; exists sx, sy; split; reflexivity
           | |- _ => destruct sx, sy; first [left; reflexivity | exfalso; lia]
           end.
  - left.
    assert (Es : sx = sy) by (destruct sx, sy; try reflexivity; lia).
    subst sy.
    assert (Em : Z.pos mx * 2 ^ (ex - emin64) = Z.pos my * 2 ^ (ey - emin64))
      by (destruct sx; lia).
    pose proof (compare_finite_pos prec emax prec_gt_1 prec_lt_emax mx my ex ey Vx Vy) as C.
    rewrite Em, Z.compare_refl in C.
    destruct (Z.compare_spec ex ey) as [He|He|He]; try discriminate.
    rewrite compare_cont_eq in C. apply Pos.compare_eq in C. now subst.
Qed.

Lemma abs_same (x y : float) :
  num64 x -> num64 y -> Z.abs (rk x) = Z.abs (rk y) -> abs x = abs y.
Proof.
  intros Nx Ny E.
  destruct (rk_inj (abs x) (abs y)) as [H|(s1 & s2 & H1 & H2)].
  - now apply (number_SFabs prec emax prec_gt_1 prec_lt_emax).
  - now apply (number_SFabs prec emax prec_gt_1 prec_lt_emax).
  - unfold abs. rewrite !(rank_SFabs prec emax prec_gt_1 prec_lt_emax) by assumption. exact E.
  - exact H.
  - rewrite H1, H2. destruct x, y; cbn in H1, H2; congruence.
Qed.

Lemma abs_of_int_opp (n : Z) : abs (of_int (- n)) = abs (of_int n).
Proof.
  apply abs_same; try apply num64_of_int.
  rewrite !rk_of_int, (nval_opp prec emax prec_gt_1 prec_lt_emax). lia.
Qed.

(** The wrapped difference changes sign with the order of the operands,
    unless it is the least integer, which is its own opposite. *)
Lemma wrap_opp (z : Z) : wrap (- z) = - wrap z \/ wrap (- z) = wrap z.
Proof.
  unfold wrap.
  change (2 ^ 63) with 9223372036854775808.
  change (2 ^ 64) with 18446744073709551616.
  Z.to_euclidean_division_equations. lia.
Qed.

Lemma abs_int_sub_comm (u v : Z) :
  abs (of_int (int_sub u v)) = abs (of_int (int_sub v u)).
Proof.
  unfold int_sub. replace (v - u) with (- (u - v)) by lia.
  destruct (wrap_opp (u - v)) as [-> | ->]; [now rewrite abs_of_int_opp | reflexivity].
Qed.

Lemma Max_comm (x y : float) : fin64 x -> fin64 y -> Max x y = Max y x.
Proof.
  intros Fx Fy.
  pose proof (fin64_num64 x Fx) as Nx. pose proof (fin64_num64 y Fy) as Ny.
  assert (Nz : num64 zero) by (split; [reflexivity | discriminate]).
  unfold Max.
  assert (Px : is_pos_inf x = false) by (destruct Fx as [_ Fx]; destruct x; try contradiction; reflexivity).
  assert (Py : is_pos_inf y = false) by (destruct Fy as [_ Fy]; destruct y; try contradiction; reflexivity).
  assert (Qx : is_nan x = false) by (destruct Fx as [_ Fx]; destruct x; try contradiction; reflexivity).
  assert (Qy : is_nan y = false) by (destruct Fy as [_ Fy]; destruct y; try contradiction; reflexivity).
  rewrite Px, Py, Qx, Qy. cbn [orb].
  rewrite (eqb_rank x zero Nx Nz), (eqb_rank y zero Ny Nz),
    (eqb_rank x y Nx Ny), (eqb_rank y x Ny Nx), (ltb_rank y x Ny Nx), (ltb_rank x y Nx Ny).
  change (rk zero) with 0.
  destruct (Z.lt_total (rk x) (rk y)) as [L|[E|G]].
  - replace (rk x =? rk y) with false by (symmetry; apply Z.eqb_neq; lia).
    replace (rk y =? rk x) with false by (symmetry; apply Z.eqb_neq; lia).
    replace (rk y <? rk x) with false by (symmetry; apply Z.ltb_ge; lia).
    replace (rk x <? rk y) with true by (symmetry; apply Z.ltb_lt; lia).
    rewrite !andb_false_r. reflexivity.
  - destruct (rk_inj x y Nx Ny E) as [H|(s1 & s2 & H1 & H2)].
    + subst y. reflexivity.
    + subst x y. destruct s1, s2; reflexivity.
  - replace (rk x =? rk y) with false by (symmetry; apply Z.eqb_neq; lia).
    replace (rk y =? rk x) with false by (symmetry; apply Z.eqb_neq; lia).
    replace (rk y <? rk x) with true by (symmetry; apply Z.ltb_lt; lia).
    replace (rk x <? rk y) with false by (symmetry; apply Z.ltb_ge; lia).
    rewrite !andb_false_r. reflexivity.
Qed.

End SameRank.

(** ** The comparator on statistics of one sign *)

Section PerMetric.

Local Abbreviation rk := (rank prec emax).
Local Abbreviation num64 := (number prec emax).
Local Abbreviation fin64 := (finite prec emax).
Local Abbreviation emin64 := (SpecFloat.emin prec emax).
Local Abbreviation nv := (nval prec emax).

Definition same_sign (u v : Z) : Prop := (0 <= u /\ 0 <= v) \/ (u <= 0 /\ v <= 0).

Lemma wrap_same_sign (u v : Z) :
  is_int u -> is_int v -> same_sign u v ->
  Z.abs (wrap (u - v)) <= Z.max (Z.abs u) (Z.abs v).
Proof.
  unfold is_int, int_min, int_max, same_sign, wrap.
  change (2 ^ 63) with 9223372036854775808.
  change (2 ^ 64) with 18446744073709551616.
  intros Hu Hv Hs. Z.to_euclidean_division_equations. lia.
Qed.

(** Between two integers of one sign the relative deviation is at most 1. *)
Lemma relative_deviation_unit (u v : Z) :
  is_int u -> is_int v -> same_sign u v ->
  let M := Max (abs (of_int u)) (abs (of_int v)) in
  eqb M zero = false ->
  let r := div (abs (of_int (int_sub u v))) M in
  fin64 r /\ 0 <= rk r <= rk one.
Proof.
  intros Hu Hv Hs M HM r.
  destruct (abs_of_int u Hu) as [Au Ru]. destruct (abs_of_int v Hv) as [Av Rv].
  destruct (Max_nonneg _ _ Au Av) as [AM RM]. fold M in AM, RM.
  pose proof (wrap_range (u - v)) as Hw.
  destruct (abs_of_int (int_sub u v) Hw) as [Ax Rx].
  set (x := abs (of_int (int_sub u v))) in *.
  assert (Nz : num64 zero) by (split; [reflexivity | discriminate]).
  rewrite (eqb_rank M zero (fin64_num64 M (proj1 AM)) Nz) in HM.
  change (rk zero) with 0 in HM. apply Z.eqb_neq in HM.
  pose proof (nonneg_fin_rk M AM) as HM0.
  destruct AM as [[VM FM] SM].
  destruct M as [sM| | |sM my ey] eqn:EM; try contradiction;
    try (cbn [rank] in HM; lia).
  cbn [signbit] in SM. subst sM. cbn [valid_binary] in VM.
  set (K := Z.max (Z.abs u) (Z.abs v)).
  assert (HK : rk (S754_finite false my ey) = nv K 0).
  { rewrite RM, Ru, Rv. subst K.
    destruct (Z.max_spec (Z.abs u) (Z.abs v)) as [[H ->]|[H ->]].
    - pose proof (nval64_mono (Z.abs u) (Z.abs v) 0 ltac:(lia)). lia.
    - pose proof (nval64_mono (Z.abs v) (Z.abs u) 0 ltac:(lia)). lia. }
  assert (Hx1 : rk x <= rk (S754_finite false my ey)).
  { rewrite Rx, HK. unfold int_sub. apply nval64_mono.
    now apply wrap_same_sign. }
  assert (Hx0 : 0 <= rk x) by (apply nonneg_fin_rk; exact Ax).
  assert (Hxs : rk x <> 0 \/ x = S754_zero false).
  { destruct Ax as [[Vx Fx] Sx]. destruct x as [s| | |s m e]; try contradiction.
    - right. cbn [signbit] in Sx. now subst s.
    - left. cbn [valid_binary] in Vx.
      pose proof (finite_rank_bounds prec emax prec_gt_1 prec_lt_emax s m e Vx).
      cbn [signbit] in Sx. subst s. cbn [rank]. lia. }
  assert (Hone : rk one = 2 ^ (- emin64)) by (vm_compute; reflexivity).
  destruct (SFdiv_upper prec emax prec_gt_1 prec_lt_emax x one my ey
              (proj1 Ax) Hx0 Hxs VM fin64_one) as [Nr Rr].
  - vm_compute. reflexivity.
  - rewrite Hone. cbn [rank] in Hx1.
    pose proof (Zpow2_pos (- emin64) ltac:(vm_compute; discriminate)).
    rewrite (Z.mul_comm (2 ^ (- emin64))). apply Z.mul_le_mono_nonneg_r; lia.
  - fold (div x (S754_finite false my ey)) in Nr, Rr. fold r in Nr, Rr.
    split; [|exact Rr].
    apply num64_fin64; [exact Nr|].
    pose proof (fin64_range one fin64_one). lia.
Qed.

(** [1 - r] for a ratio [r] between 0 and 1. *)
Lemma one_minus_unit (r : float) :
  fin64 r -> 0 <= rk r <= rk one ->
  fin64 (sub one r) /\ 0 <= rk (sub one r) <= rk one.
Proof.
  intros Fr Hr. destruct (sub_finite one r fin64_one Fr) as [N E].
  pose proof (nval64_mono 0 (rk one - rk r) emin64 ltac:(lia)) as H1.
  pose proof (nval64_mono (rk one - rk r) (rk one) emin64 ltac:(lia)) as H2.
  rewrite (nval64_exact one fin64_one) in H2.
  change (nv 0 emin64) with 0 in H1.
  assert (B : 0 <= rk (sub one r) <= rk one) by lia.
  split; [|exact B].
  apply num64_fin64; [exact N|].
  pose proof (fin64_range one fin64_one). lia.
Qed.

Lemma mul_unit (x y : float) :
  fin64 x -> 0 <= rk x <= rk one -> fin64 y -> 0 <= rk y <= rk one ->
  fin64 (mul x y) /\ 0 <= rk (mul x y) <= rk one.
Proof.
  intros Fx Rx Fy Ry.
  assert (Ux : unit_range x) by (split; [exact Fx | lia]).
  assert (Uy : unit_range y) by (split; [exact Fy | lia]).
  destruct (mul_unit_range x y Ux Uy) as [F [_ U]].
  split; [exact F|]. split; [|exact U].
  destruct (mul_finite x y Fx Fy) as [_ ->].
  pose proof (nval64_mono 0 (rk x * rk y) (2 * emin64)
                ltac:(apply Z.mul_nonneg_nonneg; lia)) as H.
  exact H.
Qed.

(** Monotonicity of [1 - r] and of a product of non-negative factors. *)
Lemma one_minus_antitone (r1 r2 : float) :
  fin64 r1 -> fin64 r2 -> rk r1 <= rk r2 -> rk (sub one r2) <= rk (sub one r1).
Proof.
  intros F1 F2 H.
  destruct (sub_finite one r1 fin64_one F1) as [_ ->].
  destruct (sub_finite one r2 fin64_one F2) as [_ ->].
  apply nval64_mono. lia.
Qed.

Lemma mul_mono_nonneg (x1 x2 y1 y2 : float) :
  fin64 x1 -> fin64 x2 -> fin64 y1 -> fin64 y2 ->
  0 <= rk x1 <= rk x2 -> 0 <= rk y1 <= rk y2 ->
  rk (mul x1 y1) <= rk (mul x2 y2).
Proof.
  intros Fx1 Fx2 Fy1 Fy2 Hx Hy.
  destruct (mul_finite x1 y1 Fx1 Fy1) as [_ ->].
  destruct (mul_finite x2 y2 Fx2 Fy2) as [_ ->].
  apply nval64_mono. apply Z.mul_le_mono_nonneg; lia.
Qed.

Lemma append_empty (s1 s2 : string) :
  (s1 ++ s2)%string = EmptyString -> s1 = EmptyString /\ s2 = EmptyString.
Proof. destruct s1; [intros H; split; [reflexivity | exact H] | discriminate]. Qed.

Lemma mad_line_nonempty (key : string) (a b : MetricStat) (thr : float) :
  mad_line key a b thr <> EmptyString.
Proof. discriminate. Qed.

Lemma median_line_nonempty (key : string) (a b : MetricStat) (thr : float) :
  median_line key a b thr <> EmptyString.
Proof. discriminate. Qed.

Lemma maxmad_of_comm (a b : MetricStat) :
  wf_MetricStat a -> wf_MetricStat b -> maxmad_of b a = maxmad_of a b.
Proof. intros [_ Ha] [_ Hb]. unfold maxmad_of. apply Max_comm; apply abs_of_int; assumption. Qed.

Lemma maxmed_of_comm (a b : MetricStat) :
  wf_MetricStat a -> wf_MetricStat b -> maxmed_of b a = maxmed_of a b.
Proof. intros [Ha _] [Hb _]. unfold maxmed_of. apply Max_comm; apply abs_of_int; assumption. Qed.

Lemma relmad_of_comm (a b : MetricStat) :
  wf_MetricStat a -> wf_MetricStat b -> relmad_of b a = relmad_of a b.
Proof.
  intros Ha Hb. unfold relmad_of.
  now rewrite (maxmad_of_comm a b Ha Hb), (abs_int_sub_comm (MAD b) (MAD a)).
Qed.

Lemma relmed_of_comm (a b : MetricStat) :
  wf_MetricStat a -> wf_MetricStat b -> relmed_of b a = relmed_of a b.
Proof.
  intros Ha Hb. unfold relmed_of.
  now rewrite (maxmed_of_comm a b Ha Hb), (abs_int_sub_comm (Median b) (Median a)).
Qed.

Lemma compareMetrics_num_comm (thr : float) (sa sb : Stats) (key : string) :
  wf_MetricStat (metric_at sa key) -> wf_MetricStat (metric_at sb key) ->
  num (compareMetrics thr sa sb key) = num (compareMetrics thr sb sa key).
Proof.
  intros Ha Hb. unfold compareMetrics.
  set (a := metric_at sa key) in *. set (b := metric_at sb key) in *.
  rewrite (Z.eqb_sym (Median b) (Median a)).
  destruct (Median a =? Median b); [reflexivity|].
  rewrite (maxmad_of_comm a b Ha Hb), (maxmed_of_comm a b Ha Hb),
    (relmad_of_comm a b Ha Hb), (relmed_of_comm a b Ha Hb).
  destruct (eqb (maxmad_of a b) zero || eqb (maxmed_of a b) zero); reflexivity.
Qed.

End PerMetric.

(** X4.  The comparison of one metric is symmetric in the two Stats: the
    score is the same whichever is given first, and a message is written
    for the one order exactly when one is written for the other (the
    lines themselves print the two values in the order of the
    arguments). *)
Theorem X4_compareMetrics_symmetric (thr : float) (sa sb : Stats) (key : string) :
  wf_MetricStat (metric_at sa key) -> wf_MetricStat (metric_at sb key) ->
  num (compareMetrics thr sa sb key) = num (compareMetrics thr sb sa key) /\
  (msg (compareMetrics thr sa sb key) = EmptyString <->
   msg (compareMetrics thr sb sa key) = EmptyString).
Proof.
  intros Ha Hb. split; [now apply compareMetrics_num_comm|].
  unfold compareMetrics.
  set (a := metric_at sa key) in *. set (b := metric_at sb key) in *.
  rewrite (Z.eqb_sym (Median b) (Median a)).
  destruct (Median a =? Median b); [reflexivity|].
  rewrite (maxmad_of_comm a b Ha Hb), (maxmed_of_comm a b Ha Hb),
    (relmad_of_comm a b Ha Hb), (relmed_of_comm a b Ha Hb).
  destruct (eqb (maxmad_of a b) zero || eqb (maxmed_of a b) zero); [reflexivity|].
  cbn [msg].
  destruct (ltb thr (relmad_of a b)), (ltb thr (relmed_of a b));
    split; intros H; apply append_empty in H as [H1 H2];
    try (now apply mad_line_nonempty in H1);
    try (now apply median_line_nonempty in H2); reflexivity.
Qed.

Lemma X4_compareMetrics_symmetric_witness :
  let sa := {| NSamples := 10; Metrics := {[ "start"%string := {| Median := 7; MAD := 3 |} ]} |} in
  let sb := {| NSamples := 10; Metrics := {[ "start"%string := {| Median := - 5; MAD := 4 |} ]} |} in
  num (compareMetrics CmpThreshold sa sb "start") =
    num (compareMetrics CmpThreshold sb sa "start") /\
  (msg (compareMetrics CmpThreshold sa sb "start") = EmptyString <->
   msg (compareMetrics CmpThreshold sb sa "start") = EmptyString).
Proof.
  intros sa sb. apply X4_compareMetrics_symmetric;
    (split; vm_compute; split; discriminate).
Defined.

(** X5.  When the two medians have one sign and the two deviations have
    one sign (as they do for statistics that are never negative), the
    per-metric score lies between 0 and 1. *)
Theorem X5_compareMetrics_same_sign (thr : float) (sa sb : Stats) (key : string) :
  wf_MetricStat (metric_at sa key) -> wf_MetricStat (metric_at sb key) ->
  same_sign (Median (metric_at sa key)) (Median (metric_at sb key)) ->
  same_sign (MAD (metric_at sa key)) (MAD (metric_at sb key)) ->
  leb zero (num (compareMetrics thr sa sb key)) = true /\
  leb (num (compareMetrics thr sa sb key)) one = true.
Proof.
  intros [Ha1 Ha2] [Hb1 Hb2] S1 S2.
  assert (G : finite prec emax (num (compareMetrics thr sa sb key)) /\
              0 <= rank prec emax (num (compareMetrics thr sa sb key))
                <= rank prec emax one).
  { unfold compareMetrics.
    set (a := metric_at sa key) in *. set (b := metric_at sb key) in *.
    assert (O : finite prec emax one /\ 0 <= rank prec emax one <= rank prec emax one).
    { split; [apply fin64_one|]. pose proof rk_one_pos. lia. }
    destruct (Median a =? Median b); [exact O|].
    destruct (eqb (maxmad_of a b) zero) eqn:E1; [exact O|].
    destruct (eqb (maxmed_of a b) zero) eqn:E2; [exact O|].
    cbn [orb num].
    destruct (relative_deviation_unit (Median a) (Median b) Ha1 Hb1 S1 E2) as [F1 R1].
    destruct (relative_deviation_unit (MAD a) (MAD b) Ha2 Hb2 S2 E1) as [F2 R2].
    destruct (one_minus_unit _ F1 R1) as [G1 B1].
    destruct (one_minus_unit _ F2 R2) as [G2 B2].
    now apply mul_unit. }
  destruct G as [F B].
  assert (Nz : number prec emax zero) by (split; [reflexivity | discriminate]).
  rewrite !leb_rank by (first [apply fin64_num64; first [exact F | apply fin64_one] | exact Nz]).
  change (rank prec emax zero) with 0.
  split; apply Z.leb_le; lia.
Qed.

Lemma X5_compareMetrics_same_sign_witness :
  let sa := {| NSamples := 10; Metrics := {[ "start"%string := {| Median := 7; MAD := 3 |} ]} |} in
  let sb := {| NSamples := 10; Metrics := {[ "start"%string := {| Median := 5; MAD := 4 |} ]} |} in
  leb zero (num (compareMetrics CmpThreshold sa sb "start")) = true /\
  leb (num (compareMetrics CmpThreshold sa sb "start")) one = true.
Proof.
  intros sa sb. apply X5_compareMetrics_same_sign.
  - vm_compute. split; split; discriminate.
  - vm_compute. split; split; discriminate.
  - left. vm_compute. split; discriminate.
  - left. vm_compute. split; discriminate.
Defined.

(** X6.  A metric for which [compareMetrics] writes no line scores at
    least [(1 - thr) * (1 - thr)], for a threshold between 0 and 1: an
    empty message bounds both relative deviations by the threshold. *)
Theorem X6_silent_metric_score (thr : float) (sa sb : Stats) (key : string) :
  valid_binary prec emax thr = true -> ltb zero thr = true -> ltb thr one = true ->
  wf_MetricStat (metric_at sa key) -> wf_MetricStat (metric_at sb key) ->
  msg (compareMetrics thr sa sb key) = EmptyString ->
  leb (mul (sub one thr) (sub one thr)) (num (compareMetrics thr sa sb key)) = true.
Proof.
  intros Hv H0 H1 [Ha1 Ha2] [Hb1 Hb2].
  pose proof (threshold_finite thr Hv H0 H1) as Ft.
  pose proof (fin64_num64 thr Ft) as Nt.
  assert (Nz : number prec emax zero) by (split; [reflexivity | discriminate]).
  rewrite (ltb_rank zero thr Nz Nt) in H0. rewrite (ltb_rank thr one Nt (fin64_num64 one fin64_one)) in H1.
  apply Z.ltb_lt in H0, H1. change (rank prec emax zero) with 0 in H0.
  destruct (one_minus_unit thr Ft ltac:(lia)) as [Fc Bc].
  destruct (mul_unit _ _ Fc Bc Fc Bc) as [Fcc Bcc].
  unfold compareMetrics.
  set (a := metric_at sa key) in *. set (b := metric_at sb key) in *.
  assert (O : leb (mul (sub one thr) (sub one thr)) one = true).
  { rewrite leb_rank by (apply fin64_num64; first [exact Fcc | apply fin64_one]).
    apply Z.leb_le. lia. }
  destruct (Median a =? Median b); [intros _; exact O|].
  destruct (eqb (maxmad_of a b) zero) eqn:E1; [intros _; exact O|].
  destruct (eqb (maxmed_of a b) zero) eqn:E2; [intros _; exact O|].
  cbn [orb num msg]. intros Hm.
  apply append_empty in Hm as [M1 M2].
  destruct (relative_deviation_range (Median a) (Median b) Ha1 Hb1 E2) as [F1 R1].
  destruct (relative_deviation_range (MAD a) (MAD b) Ha2 Hb2 E1) as [F2 R2].
  destruct (ltb thr (relmad_of a b)) eqn:L1; [now apply mad_line_nonempty in M1|].
  destruct (ltb thr (relmed_of a b)) eqn:L2; [now apply median_line_nonempty in M2|].
  unfold relmad_of, relmed_of, maxmad_of, maxmed_of in *.
  rewrite (ltb_rank _ _ Nt (fin64_num64 _ F2)) in L1.
  rewrite (ltb_rank _ _ Nt (fin64_num64 _ F1)) in L2.
  apply Z.ltb_ge in L1, L2.
  pose proof (one_minus_antitone _ _ F1 Ft L2) as A1.
  pose proof (one_minus_antitone _ _ F2 Ft L1) as A2.
  destruct (one_minus_range _ F1 R1) as [G1 _].
  destruct (one_minus_range _ F2 R2) as [G2 _].
  destruct (mul_finite _ _ G1 G2) as [Nm _].
  rewrite leb_rank by (first [apply fin64_num64; exact Fcc | exact Nm]).
  apply Z.leb_le. apply mul_mono_nonneg; try assumption; lia.
Qed.

Lemma X6_silent_metric_score_witness :
  let sa := {| NSamples := 10; Metrics := {[ "start"%string := {| Median := 100; MAD := 10 |} ]} |} in
  let sb := {| NSamples := 10; Metrics := {[ "start"%string := {| Median := 90; MAD := 9 |} ]} |} in
  leb (mul (sub one CmpThreshold) (sub one CmpThreshold))
      (num (compareMetrics CmpThreshold sa sb "start")) = true.
Proof.
  intros sa sb. apply X6_silent_metric_score.
  - vm_compute. reflexivity.
  - vm_compute. reflexivity.
  - vm_compute. reflexivity.
  - vm_compute. split; split; discriminate.
  - vm_compute. split; split; discriminate.
  - vm_compute. reflexivity.
Defined.

(** ** The accumulated score does not depend on the order of ties *)

Section Accumulate.

Local Abbreviation rk := (rank prec emax).
Local Abbreviation num64 := (number prec emax).
Local Abbreviation fin64 := (finite prec emax).
Local Abbreviation emin64 := (SpecFloat.emin prec emax).
Local Abbreviation nv := (nval prec emax).

Definition neg_zero : float := S754_zero true.

(** Adding either of two terms of the same rank gives the same float,
    unless the accumulator is the negative zero. *)
Lemma add_same (acc t1 t2 : float) :
  num64 acc -> acc <> neg_zero -> fin64 t1 -> fin64 t2 -> rk t1 = rk t2 ->
  add acc t1 = add acc t2.
Proof.
  intros Na Hz F1 F2 E.
  destruct (rk_inj t1 t2 (fin64_num64 _ F1) (fin64_num64 _ F2) E)
    as [->|(s1 & s2 & -> & ->)]; [reflexivity|].
  destruct Na as [_ Na]. unfold neg_zero in Hz.
  destruct acc as [[]| | |]; try congruence; destruct s1, s2; reflexivity.
Qed.

Lemma nv_nonzero (z e : Z) : z <> 0 -> emin64 <= e -> nv z e <> 0.
Proof.
  intros Hz He.
  assert (U : nv 1 emin64 = 1) by (vm_compute; reflexivity).
  assert (P : forall z, 0 < z -> 1 <= nv z e).
  { intros z' Hz'. rewrite <- U.
    apply (nval_mono_gen prec emax prec_gt_1 prec_lt_emax _ _ _ _ emin64); [lia | lia |].
    rewrite Z.sub_diag, Z.pow_0_r.
    pose proof (Zpow2_pos (e - emin64) ltac:(lia)).
    apply Z.le_trans with (z' * 1); [lia|].
    apply Z.mul_le_mono_nonneg_l; lia. }
  destruct (Z.lt_total z 0) as [L|[E|G]]; [|contradiction|].
  - pose proof (P (- z) ltac:(lia)) as H.
    rewrite (nval_opp prec emax prec_gt_1 prec_lt_emax) in H. lia.
  - pose proof (P z G). lia.
Qed.

(** A sum is the negative zero only when both operands are. *)
Lemma add_not_neg_zero (acc t : float) :
  num64 acc -> acc <> neg_zero -> fin64 t -> add acc t <> neg_zero.
Proof.
  intros [Va Na] Hz [Vt Ft]. unfold neg_zero in *.
  destruct acc as [[]| | |sa ma ea]; try congruence;
    destruct t as [st| | |st mt et]; try contradiction;
    try (destruct st; discriminate); try discriminate.
  unfold add. cbn [SFadd].
  cbn [valid_binary] in Va, Vt.
  destruct (bounded_facts prec emax prec_gt_1 prec_lt_emax ma ea Va) as (Hea & _).
  destruct (bounded_facts prec emax prec_gt_1 prec_lt_emax mt et Vt) as (Het & _).
  match goal with
  | |- binary_normalize _ _ ?z ?e _ <> _ => set (s := z); set (ez := e)
  end.
  destruct (Z.eq_dec s 0) as [E0|N0].
  - rewrite E0. discriminate.
  - intros H.
    pose proof (rank_binary_normalize prec emax prec_gt_1 prec_lt_emax s ez false) as R.
    rewrite H in R. cbn [rank] in R. symmetry in R.
    revert R. apply nv_nonzero; [exact N0 | subst ez; lia].
Qed.

Definition scores_same (l1 l2 : list cmpScore) : Prop :=
  Forall2 (fun c1 c2 => unit_range (num c1) /\ unit_range (num c2) /\
                        rk (num c1) = rk (num c2)) l1 l2.

Lemma weigh_from_same (l1 l2 : list cmpScore) :
  scores_same l1 l2 ->
  forall (i : Z) (acc : float),
    0 <= i -> num64 acc -> acc <> neg_zero ->
    weigh_from i acc l1 = weigh_from i acc l2.
Proof.
  induction 1 as [|c1 c2 l1 l2 (U1 & U2 & E) _ IH]; intros i acc Hi Na Hz;
    [reflexivity|].
  cbn [weigh_from].
  destruct (Pow2neg_weight (i + 1) ltac:(lia)) as [Fw Rw].
  destruct (term_unit_range (i + 1) (num c1) ltac:(lia) U1) as [F1 _].
  destruct (term_unit_range (i + 1) (num c2) ltac:(lia) U2) as [F2 _].
  assert (Et : rk (mul (Pow2neg (i + 1)) (num c1)) = rk (mul (Pow2neg (i + 1)) (num c2))).
  { destruct (mul_finite _ _ Fw (proj1 U1)) as [_ ->].
    destruct (mul_finite _ _ Fw (proj1 U2)) as [_ ->]. now rewrite E. }
  rewrite (add_same acc _ _ Na Hz F1 F2 Et).
  apply IH; [lia | | now apply add_not_neg_zero].
  destruct (add_mono acc acc _ _ Na Na F2 F2 ltac:(lia) ltac:(lia)) as [N _]. exact N.
Qed.

Lemma scores_same_of_ranks (l1 l2 : list cmpScore) :
  Forall (fun c => unit_range (num c)) l1 ->
  Forall (fun c => unit_range (num c)) l2 ->
  map (fun c => rk (num c)) l1 = map (fun c => rk (num c)) l2 ->
  scores_same l1 l2.
Proof.
  intros H1; revert l2; induction H1 as [|c1 l1 U1 H1 IH]; intros l2 H2 E.
  - destruct l2; [constructor | discriminate].
  - destruct l2 as [|c2 l2]; [discriminate|].
    cbn [map] in E. injection E as Ec El.
    inversion H2 as [|? ? U2 H2']; subst.
    constructor; [|now apply IH].
    split; [exact U1|]. split; [exact U2|]. exact Ec.
Qed.

Lemma sorted_scores_same (l1 l2 : list cmpScore) :
  Forall (fun c => unit_range (num c)) l1 ->
  Forall (fun c => unit_range (num c)) l2 ->
  ascending l1 -> ascending l2 ->
  Permutation (map num l1) (map num l2) ->
  scores_same l1 l2.
Proof.
  intros U1 U2 S1 S2 P.
  apply scores_same_of_ranks; try assumption.
  apply (StronglySorted_unique Z.le).
  - now apply ascending_ranks.
  - now apply ascending_ranks.
  - rewrite <- !(map_map num rk). now apply Permutation_map.
Qed.

Lemma start_not_neg_zero (thr : float) (a b : Stats) :
  snd (sample_check thr a b) <> neg_zero.
Proof. unfold sample_check. destruct (count_exceeds thr a b); discriminate. Qed.

End Accumulate.

(** X7.  Go leaves the iteration order of a map and the order in which
    [sort.Sort] leaves equal scores unspecified; the score and the verdict
    of [Proximal] are nevertheless the same in every execution.  (The
    message may list tied metrics in a different order.) *)
Theorem X7_score_independent_of_order (thr : float) (a b : Stats)
        (r1 r2 : string * float * bool) :
  wf_Stats a -> wf_Stats b ->
  Proximal_returns thr a b r1 -> Proximal_returns thr a b r2 ->
  snd (fst r1) = snd (fst r2) /\ snd r1 = snd r2.
Proof.
  intros Wa Wb (ks1 & s1 & K1 & S1 & ->) (ks2 & s2 & K2 & S2 & ->).
  pose proof (sorted_unit_range thr a b ks1 s1 Wa Wb S1) as U1.
  pose proof (sorted_unit_range thr a b ks2 s2 Wa Wb S2) as U2.
  assert (P : Permutation (map num s1) (map num s2)).
  { apply (nums_permutation thr thr a b ks1 ks2); [assumption .. | apply S1 | apply S2]. }
  pose proof (sorted_scores_same s1 s2 U1 U2 (proj2 S1) (proj2 S2) P) as Hs.
  destruct (start_number thr a b) as [Ns _].
  pose proof (weigh_from_same s1 s2 Hs 0 _ ltac:(lia) Ns (start_not_neg_zero thr a b)) as E.
  unfold finish, weigh. cbn [fst snd]. rewrite E. split; reflexivity.
Qed.

Definition pair_a : Stats :=
  {| NSamples := 10;
     Metrics := {[ "start"%string := {| Median := 7; MAD := 3 |};
                   "end"%string := {| Median := 9; MAD := 2 |} ]} |}.

Definition pair_b : Stats :=
  {| NSamples := 10;
     Metrics := {[ "start"%string := {| Median := 7; MAD := 5 |};
                   "end"%string := {| Median := 9; MAD := 1 |} ]} |}.

Lemma wf_pair_a : wf_Stats pair_a.
Proof.
  split; [vm_compute; split; discriminate|].
  apply map_Forall_insert_2; [vm_compute; split; split; discriminate|].
  apply map_Forall_singleton. vm_compute. split; split; discriminate.
Qed.

Lemma wf_pair_b : wf_Stats pair_b.
Proof.
  split; [vm_compute; split; discriminate|].
  apply map_Forall_insert_2; [vm_compute; split; split; discriminate|].
  apply map_Forall_singleton. vm_compute. split; split; discriminate.
Qed.

(** The execution that ranges over the keys in the opposite order. *)
Definition Proximal_rev (thr : float) (a b : Stats) : string * float * bool :=
  let ks := rev (map fst (map_to_list (Metrics a))) in
  finish thr (sample_check thr a b) (sort_scores (collect thr a b ks)).

Lemma Proximal_rev_is_run (thr : float) (a b : Stats) :
  Proximal_returns thr a b (Proximal_rev thr a b).
Proof.
  exists (rev (map fst (map_to_list (Metrics a)))),
    (sort_scores (collect thr a b (rev (map fst (map_to_list (Metrics a)))))).
  split; [|split; [apply sort_scores_sorted_of | reflexivity]].
  unfold range_of. symmetry. apply Permutation_rev.
Qed.

Lemma X7_score_independent_of_order_witness :
  snd (fst (Proximal CmpThreshold pair_a pair_b)) =
    snd (fst (Proximal_rev CmpThreshold pair_a pair_b)) /\
  snd (Proximal CmpThreshold pair_a pair_b) =
    snd (Proximal_rev CmpThreshold pair_a pair_b).
Proof.
  apply (X7_score_independent_of_order CmpThreshold pair_a pair_b
           (Proximal CmpThreshold pair_a pair_b)
           (Proximal_rev CmpThreshold pair_a pair_b)).
  - exact wf_pair_a.
  - exact wf_pair_b.
  - apply Proximal_is_run.
  - apply Proximal_rev_is_run.
Defined.

(** ** Exchanging the two arguments of Proximal *)

Section Symmetry.

Local Abbreviation rk := (rank prec emax).
Local Abbreviation num64 := (number prec emax).
Local Abbreviation fin64 := (finite prec emax).
Local Abbreviation emin64 := (SpecFloat.emin prec emax).
Local Abbreviation nv := (nval prec emax).

Lemma count_ratio_comm (a b : Stats) :
  is_int (NSamples a) -> is_int (NSamples b) -> count_ratio b a = count_ratio a b.
Proof.
  intros Ha Hb. unfold count_ratio.
  pose proof (fin64_of_int _ Ha) as Fa. pose proof (fin64_of_int _ Hb) as Fb.
  rewrite (Max_comm _ _ Fb Fa). f_equal.
  destruct (sub_finite _ _ Fa Fb) as [N1 R1]. destruct (sub_finite _ _ Fb Fa) as [N2 R2].
  apply abs_same; [exact N2 | exact N1 |].
  rewrite R1, R2.
  replace (rk (of_int (NSamples b)) - rk (of_int (NSamples a)))
    with (- (rk (of_int (NSamples a)) - rk (of_int (NSamples b)))) by lia.
  rewrite (nval_opp prec emax prec_gt_1 prec_lt_emax). lia.
Qed.

Lemma sample_check_comm (thr : float) (a b : Stats) :
  is_int (NSamples a) -> is_int (NSamples b) ->
  snd (sample_check thr b a) = snd (sample_check thr a b).
Proof.
  intros Ha Hb. unfold sample_check, count_exceeds.
  rewrite (count_ratio_comm a b Ha Hb).
  destruct (ltb thr (count_ratio a b)); reflexivity.
Qed.

Lemma compared_true (b : Stats) (k : string) :
  compared b k = true <-> is_Some (Metrics b !! k) /\ isCmpMetric k = true.
Proof.
  unfold compared. rewrite andb_true_iff, bool_decide_eq_true. reflexivity.
Qed.

(** The keys compared are those that both maps hold and the filter
    accepts, whichever map is ranged over. *)
Lemma compared_keys_comm (a b : Stats) (ks ks' : list string) :
  range_of (Metrics a) ks -> range_of (Metrics b) ks' ->
  Permutation (List.filter (compared b) ks) (List.filter (compared a) ks').
Proof.
  intros K K'.
  destruct (range_of_keys _ _ K) as [D I]. destruct (range_of_keys _ _ K') as [D' I'].
  apply Permutation.NoDup_Permutation; try (now apply List.NoDup_filter).
  intros k. rewrite !filter_In, !compared_true, I, I'. tauto.
Qed.

Lemma ascending_nums (l1 l2 : list cmpScore) :
  map num l1 = map num l2 -> ascending l1 -> ascending l2.
Proof.
  unfold ascending. intros E H. revert l2 E.
  induction H as [|x l Hl IH Hx]; intros [|y l2] E; try discriminate; constructor.
  - apply IH. now injection E.
  - cbn [map] in E. injection E as Ex El. clear IH Hl.
    revert l2 El. induction Hx as [|z l Hz Hx IH]; intros [|w l2] El;
      try discriminate; constructor.
    + cbn [map] in El. injection El as Ez _. unfold Less in *. now rewrite <- Ex, <- Ez.
    + apply IH. now injection El.
Qed.

Lemma weigh_from_nums (l1 l2 : list cmpScore) :
  map num l1 = map num l2 ->
  forall (i : Z) (acc : float), weigh_from i acc l1 = weigh_from i acc l2.
Proof.
  revert l2. induction l1 as [|c1 l1 IH]; intros [|c2 l2] E i acc; try discriminate;
    [reflexivity|].
  cbn [map] in E. injection E as Ec El. cbn [weigh_from]. rewrite Ec. now apply IH.
Qed.

End Symmetry.

(** X8.  The score and the verdict of [Proximal] do not depend on which
    Stats is given first: every execution on [(a, b)] has a counterpart
    on [(b, a)] with the same score and the same verdict. *)
Theorem X8_Proximal_symmetric (thr : float) (a b : Stats) (res : string * float * bool) :
  wf_Stats a -> wf_Stats b -> Proximal_returns thr a b res ->
  exists res', Proximal_returns thr b a res' /\
               snd (fst res') = snd (fst res) /\ snd res' = snd res.
Proof.
  intros Wa Wb (ks & sorted & K & [P A] & ->).
  rewrite collect_map in P.
  apply Permutation_sym, Permutation_map_inv in P as (order & -> & Po).
  set (ks' := map fst (map_to_list (Metrics b))).
  assert (K' : range_of (Metrics b) ks') by apply Permutation_refl.
  assert (En : map num (map (compareMetrics thr a b) order) =
               map num (map (compareMetrics thr b a) order)).
  { rewrite !map_map. apply map_ext. intros k.
    apply compareMetrics_num_comm; now apply metric_at_wf. }
  exists (finish thr (sample_check thr b a) (map (compareMetrics thr b a) order)).
  split; [|split].
  - exists ks', (map (compareMetrics thr b a) order).
    split; [exact K'|]. split; [|reflexivity]. split.
    + rewrite collect_map. apply Permutation_map.
      rewrite <- Po. symmetry. now apply compared_keys_comm.
    + exact (ascending_nums _ _ En A).
  - unfold finish, weigh. cbn [fst snd].
    rewrite (sample_check_comm thr a b (proj1 Wa) (proj1 Wb)).
    now rewrite (weigh_from_nums _ _ En).
  - unfold finish, weigh. cbn [fst snd].
    rewrite (sample_check_comm thr a b (proj1 Wa) (proj1 Wb)).
    now rewrite (weigh_from_nums _ _ En).
Qed.

Lemma X8_Proximal_symmetric_witness :
  exists res', Proximal_returns CmpThreshold pair_b pair_a res' /\
               snd (fst res') = snd (fst (Proximal CmpThreshold pair_a pair_b)) /\
               snd res' = snd (Proximal CmpThreshold pair_a pair_b).
Proof.
  apply (X8_Proximal_symmetric CmpThreshold pair_a pair_b
           (Proximal CmpThreshold pair_a pair_b)).
  - exact wf_pair_a.
  - exact wf_pair_b.
  - apply Proximal_is_run.
Defined.

(** ** Metrics that are not compared *)

Section Irrelevant.

Lemma filter_idem {A : Type} (f : A -> bool) (l : list A) :
  List.filter f (List.filter f l) = List.filter f l.
Proof.
  induction l as [|x l IH]; [reflexivity|]. cbn [List.filter].
  destruct (f x) eqn:E; [cbn [List.filter]; rewrite E, IH; reflexivity | exact IH].
Qed.

Lemma filter_negb_nil {A : Type} (f : A -> bool) (l : list A) :
  List.filter f (List.filter (fun x => negb (f x)) l) = [].
Proof.
  induction l as [|x l IH]; [reflexivity|]. cbn [List.filter].
  destruct (f x) eqn:E; cbn [negb List.filter]; [exact IH | rewrite E; exact IH].
Qed.

Lemma filter_split_perm {A : Type} (f : A -> bool) (l : list A) :
  Permutation (List.filter f l ++ List.filter (fun x => negb (f x)) l) l.
Proof.
  induction l as [|x l IH]; [constructor|]. cbn [List.filter].
  destruct (f x); cbn [negb].
  - cbn [app]. now constructor.
  - symmetry. apply Permutation_cons_app. now symmetry.
Qed.

Lemma sample_check_counts (thr : float) (a a' b b' : Stats) :
  NSamples a = NSamples a' -> NSamples b = NSamples b' ->
  sample_check thr a b = sample_check thr a' b'.
Proof.
  intros Ea Eb. unfold sample_check, count_exceeds, count_ratio, count_line.
  now rewrite Ea, Eb.
Qed.

Lemma compareMetrics_lookup (thr : float) (a a' b b' : Stats) (k : string) :
  Metrics a !! k = Metrics a' !! k -> Metrics b !! k = Metrics b' !! k ->
  compareMetrics thr a b k = compareMetrics thr a' b' k.
Proof. intros Ea Eb. unfold compareMetrics, metric_at. now rewrite Ea, Eb. Qed.

End Irrelevant.

(** X9.  Only the metrics that are compared matter on the side of the
    first argument: metrics of [a] that [b] lacks, or that the filter
    rejects, may be added, removed or changed without changing any result
    that [Proximal] may return. *)
Theorem X9_uncompared_metrics_of_a (thr : float) (a a' b : Stats)
        (res : string * float * bool) :
  NSamples a = NSamples a' ->
  (forall k, compared b k = true -> Metrics a !! k = Metrics a' !! k) ->
  Proximal_returns thr a b res -> Proximal_returns thr a' b res.
Proof.
  intros En Hk (ks & sorted & K & S & ->).
  set (F := List.filter (compared b) ks).
  set (K' := map fst (map_to_list (Metrics a'))).
  set (ks' := F ++ List.filter (fun k => negb (compared b k)) K').
  assert (R' : range_of (Metrics a') K') by apply Permutation_refl.
  assert (PF : Permutation F (List.filter (compared b) K')).
  { destruct (range_of_keys _ _ K) as [D I]. destruct (range_of_keys _ _ R') as [D' I'].
    apply Permutation.NoDup_Permutation; try (now apply List.NoDup_filter).
    intros k. subst F. rewrite !filter_In, I, I'.
    split; intros [H1 H2]; (split; [|exact H2]).
    - now rewrite <- (Hk k H2).
    - now rewrite (Hk k H2). }
  assert (EF : List.filter (compared b) ks' = F).
  { subst ks'. rewrite List.filter_app, filter_negb_nil, app_nil_r. apply filter_idem. }
  assert (EC : collect thr a' b ks' = collect thr a b ks).
  { rewrite !collect_map, EF. fold F. apply map_ext_in. intros k Hin.
    apply filter_In in Hin as [_ Hc].
    apply compareMetrics_lookup; [symmetry; now apply Hk | reflexivity]. }
  exists ks', sorted. split; [|split].
  - unfold range_of. fold K'. subst ks'. rewrite PF. apply filter_split_perm.
  - rewrite EC. exact S.
  - now rewrite (sample_check_counts thr a a' b b En eq_refl).
Qed.

(** [pair_a] with a metric that [pair_b] does not have and one that the
    filter rejects. *)
Definition pair_a_more : Stats :=
  {| NSamples := 10;
     Metrics := <[ "serverStatus.asserts"%string := {| Median := 1; MAD := 1 |} ]>
                  (<[ "local.uptime"%string := {| Median := 50; MAD := 5 |} ]>
                     (Metrics pair_a)) |}.

Lemma X9_uncompared_metrics_of_a_witness :
  Proximal_returns CmpThreshold pair_a_more pair_b (Proximal CmpThreshold pair_a pair_b).
Proof.
  apply (X9_uncompared_metrics_of_a CmpThreshold pair_a pair_a_more pair_b).
  - reflexivity.
  - intros k Hk. apply compared_true in Hk as [Hs Hc].
    unfold pair_a_more. cbn [Metrics].
    destruct (decide (k = "serverStatus.asserts"%string)) as [->|N1];
      [vm_compute in Hs; destruct Hs; discriminate|].
    destruct (decide (k = "local.uptime"%string)) as [->|N2];
      [vm_compute in Hc; discriminate|].
    rewrite !lookup_insert_ne by congruence. reflexivity.
  - apply Proximal_is_run.
Defined.

(** X10.  Likewise on the side of the second argument: metrics of [b]
    that [a] lacks, or that the filter rejects, do not influence any
    result. *)
Theorem X10_uncompared_metrics_of_b (thr : float) (a b b' : Stats)
        (res : string * float * bool) :
  NSamples b = NSamples b' ->
  (forall k, is_Some (Metrics a !! k) -> isCmpMetric k = true ->
             Metrics b !! k = Metrics b' !! k) ->
  Proximal_returns thr a b res -> Proximal_returns thr a b' res.
Proof.
  intros En Hk (ks & sorted & K & S & ->).
  destruct (range_of_keys _ _ K) as [_ I].
  assert (EF : List.filter (compared b') ks = List.filter (compared b) ks).
  { apply filter_ext_in. intros k Hin. apply I in Hin. unfold compared.
    destruct (isCmpMetric k) eqn:Ec; [|now rewrite !andb_false_r].
    now rewrite (Hk k Hin Ec). }
  assert (EC : collect thr a b' ks = collect thr a b ks).
  { rewrite !collect_map, EF. apply map_ext_in. intros k Hin.
    apply filter_In in Hin as [Hin Hc]. apply compared_true in Hc as [_ Hc].
    apply compareMetrics_lookup; [reflexivity | symmetry; apply Hk; [now apply I | exact Hc]]. }
  exists ks, sorted. split; [exact K|]. split.
  - rewrite EC. exact S.
  - now rewrite (sample_check_counts thr a a b b' eq_refl En).
Qed.

Definition pair_b_more : Stats :=
  {| NSamples := 10;
     Metrics := <[ "serverStatus.asserts"%string := {| Median := 1; MAD := 1 |} ]>
                  (<[ "local.uptime"%string := {| Median := 50; MAD := 5 |} ]>
                     (Metrics pair_b)) |}.

Lemma X10_uncompared_metrics_of_b_witness :
  Proximal_returns CmpThreshold pair_a pair_b_more (Proximal CmpThreshold pair_a pair_b).
Proof.
  apply (X10_uncompared_metrics_of_b CmpThreshold pair_a pair_b pair_b_more).
  - reflexivity.
  - intros k Hs Hc. unfold pair_b_more. cbn [Metrics].
    destruct (decide (k = "serverStatus.asserts"%string)) as [->|N1];
      [vm_compute in Hs; destruct Hs; discriminate|].
    destruct (decide (k = "local.uptime"%string)) as [->|N2];
      [vm_compute in Hc; discriminate|].
    rewrite !lookup_insert_ne by congruence. reflexivity.
  - apply Proximal_is_run.
Defined.

(** ** How many metrics are compared *)

Section Counting.

Local Abbreviation rk := (rank prec emax).
Local Abbreviation num64 := (number prec emax).
Local Abbreviation fin64 := (finite prec emax).
Local Abbreviation emin64 := (SpecFloat.emin prec emax).
Local Abbreviation nv := (nval prec emax).

(** The number of metrics that [Proximal] hands to [compareMetrics]. *)
Definition shared_count (a b : Stats) : nat :=
  length (List.filter (compared b) (map fst (map_to_list (Metrics a)))).

Lemma sorted_length (thr : float) (a b : Stats) (ks : list string) (sorted : list cmpScore) :
  range_of (Metrics a) ks -> sorted_of (collect thr a b ks) sorted ->
  length sorted = shared_count a b.
Proof.
  intros K [P _]. rewrite <- (Permutation_length P), collect_map, length_map.
  unfold shared_count. apply Permutation_length, Permutation_filter. exact K.
Qed.

(** [1 - thr] is positive for a threshold below 1. *)
Lemma one_minus_positive (thr : float) :
  fin64 thr -> rk thr < rk one -> num64 (sub one thr) /\ 0 < rk (sub one thr).
Proof.
  intros Ft Ht. destruct (sub_finite one thr fin64_one Ft) as [N E].
  split; [exact N|]. rewrite E.
  pose proof (nv_nonzero (rk one - rk thr) emin64 ltac:(lia) ltac:(lia)).
  pose proof (proj1 (nval_sign prec emax prec_gt_1 prec_lt_emax (rk one - rk thr) emin64)
                ltac:(lia)).
  lia.
Qed.

(** The verdict is positive only if the weights of as many perfect scores
    reach the threshold. *)
Lemma ok_bounded_by_count (thr : float) (a b : Stats) (res : string * float * bool) :
  num64 (sub one thr) -> wf_Stats a -> wf_Stats b ->
  Proximal_returns thr a b res -> snd res = true ->
  leb (sub one thr) (sqrt (weigh zero (ones (shared_count a b)))) = true.
Proof.
  intros Nc Wa Wb (ks & sorted & K & S & ->) Hok.
  unfold finish in Hok. cbn [snd] in Hok.
  pose proof (sorted_unit_range thr a b ks sorted Wa Wb S) as U.
  destruct (start_number thr a b) as [Ns Rs].
  set (start := snd (sample_check thr a b)) in *.
  assert (Nz : num64 zero) by (split; [reflexivity | discriminate]).
  destruct (weigh_from_mono sorted (ones (length sorted)) (scores_le_ones sorted U)
              0 start zero ltac:(lia) Ns Nz Rs) as (Nw & Nt & Hle).
  rewrite (sorted_length thr a b ks sorted K S) in Nt, Hle.
  fold (weigh start sorted) in Nw, Hle. fold (weigh zero (ones (shared_count a b))) in Nt, Hle.
  destruct (Z_lt_le_dec (rk (weigh start sorted)) 0) as [Hneg|Hpos].
  - rewrite (sqrt_negative (weigh start sorted)), leb_nan_r in Hok; [discriminate|].
    rewrite (ltb_rank _ _ Nw Nz). apply Z.ltb_lt. exact Hneg.
  - destruct (sqrt_mono _ _ Nw Nt (conj Hpos Hle)) as (S1 & S2 & _ & Hs).
    rewrite (leb_rank _ _ Nc S1) in Hok. apply Z.leb_le in Hok.
    rewrite (leb_rank _ _ Nc S2). apply Z.leb_le. lia.
Qed.

Lemma filter_none {A : Type} (f : A -> bool) (l : list A) :
  (forall x, In x l -> f x = false) -> List.filter f l = [].
Proof.
  induction l as [|x l IH]; intros H; [reflexivity|]. cbn [List.filter].
  rewrite (H x (or_introl eq_refl)). apply IH. intros y Hy. apply H. now right.
Qed.

End Counting.

(** X11.  When no metric is compared -- no key of [a] is a key of [b]
    that the filter accepts -- the verdict is negative for every
    threshold between 0 and 1; if the sample counts are proximal the
    score is 0 and the message is empty, and if they are not the score is
    NaN (the square root of the penalty) and the message is the
    sample-count line. *)
Theorem X11_nothing_compared (thr : float) (a b : Stats) (res : string * float * bool) :
  valid_binary prec emax thr = true -> ltb zero thr = true -> ltb thr one = true ->
  (forall k, is_Some (Metrics a !! k) -> compared b k = false) ->
  Proximal_returns thr a b res ->
  res = if ltb thr (count_ratio a b)
        then (("sample count not proximal: (" ++ fmt_d (NSamples a) ++ ", "
               ++ fmt_d (NSamples b) ++ ") are not within threshold ("
               ++ fmt_d (to_int (mul thr hundred)) ++ "%)" ++ nl)%string,
              S754_nan, false)
        else (EmptyString, zero, false).
Proof.
  intros Hv H0 H1 Hn (ks & sorted & K & [P _] & ->).
  destruct (range_of_keys _ _ K) as [_ I].
  rewrite collect_map, (filter_none (compared b) ks) in P
    by (intros k Hk; apply Hn, I, Hk).
  apply Permutation_nil in P. subst sorted.
  pose proof (threshold_finite thr Hv H0 H1) as Ft.
  rewrite (ltb_rank thr one (fin64_num64 _ Ft) (fin64_num64 _ fin64_one)) in H1.
  apply Z.ltb_lt in H1.
  destruct (one_minus_positive thr Ft H1) as [Nc Pc].
  assert (Nz : number prec emax zero) by (split; [reflexivity | discriminate]).
  unfold finish, weigh, sample_check, count_exceeds, buffer.
  cbn [weigh_from fold_left].
  destruct (ltb thr (count_ratio a b)); cbn [fst snd].
  - change (sqrt badTimePenalty) with S754_nan.
    rewrite leb_nan_r, string_app_nil_r. reflexivity.
  - change (sqrt zero) with zero.
    rewrite (leb_rank _ _ Nc Nz).
    replace (rank prec emax (sub one thr) <=? rank prec emax zero) with false
      by (symmetry; apply Z.leb_gt; exact Pc).
    reflexivity.
Qed.

Definition only_local : Stats :=
  {| NSamples := 100;
     Metrics := {[ "local.uptime"%string := {| Median := 50; MAD := 5 |} ]} |}.

Definition only_local_130 : Stats :=
  {| NSamples := 130;
     Metrics := {[ "local.uptime"%string := {| Median := 50; MAD := 5 |} ]} |}.

Lemma only_local_uncompared (b : Stats) (k : string) :
  is_Some (Metrics only_local !! k) -> compared b k = false.
Proof.
  intros [v Hk]. unfold only_local in Hk. cbn [Metrics] in Hk.
  apply lookup_singleton_Some in Hk as [<- _].
  unfold compared. apply andb_false_iff. right. vm_compute. reflexivity.
Qed.

(** With equal sample counts the result is the empty message, 0 and
    false; with 100 and 130 samples it is the sample-count line, NaN and
    false. *)
Lemma X11_nothing_compared_witness :
  Proximal CmpThreshold only_local only_local = (EmptyString, zero, false) /\
  Proximal CmpThreshold only_local only_local_130 =
    (("sample count not proximal: (100, 130) are not within threshold (20%)" ++ nl)%string,
     S754_nan, false).
Proof.
  split.
  - apply (X11_nothing_compared CmpThreshold only_local only_local);
      [reflexivity | reflexivity | reflexivity | apply only_local_uncompared
      | apply Proximal_is_run].
  - apply (X11_nothing_compared CmpThreshold only_local only_local_130);
      [reflexivity | reflexivity | reflexivity | apply only_local_uncompared
      | apply Proximal_is_run].
Defined.

(** X12.  Under the default threshold [Proximal] gives a positive verdict
    only when at least two metrics are compared: a single metric, however
    well it matches, contributes at most a half to the sum. *)
Theorem X12_default_needs_two_metrics (a b : Stats) (res : string * float * bool) :
  wf_Stats a -> wf_Stats b ->
  Proximal_returns CmpThreshold a b res -> snd res = true ->
  (2 <= shared_count a b)%nat.
Proof.
  intros Wa Wb Hr Hok. apply ok_ones.
  apply (ok_bounded_by_count CmpThreshold a b res); try assumption.
  split; [reflexivity | discriminate].
Qed.

Lemma X12_default_needs_two_metrics_witness :
  (2 <= shared_count pair_a pair_a)%nat.
Proof.
  apply (X12_default_needs_two_metrics pair_a pair_a (Proximal CmpThreshold pair_a pair_a)).
  - exact wf_pair_a.
  - exact wf_pair_a.
  - apply Proximal_is_run.
  - vm_compute. reflexivity.
Defined.

(** X13.  Equal sample counts never cost the penalty: for a positive
    threshold every execution starts from a zero score and an empty
    message, whether the common count is zero or not. *)
Theorem X13_equal_sample_counts (thr : float) (a b : Stats) (res : string * float * bool) :
  is_int (NSamples a) -> NSamples b = NSamples a -> ltb zero thr = true ->
  Proximal_returns thr a b res ->
  exists ks sorted,
    range_of (Metrics a) ks /\ sorted_of (collect thr a b ks) sorted /\
    res = finish thr (EmptyString, zero) sorted.
Proof.
  intros Hi Hb Ht (ks & sorted & K & S & ->).
  exists ks, sorted. split; [exact K|]. split; [exact S|]. f_equal.
  destruct (Z.eq_dec (NSamples a) 0) as [E0|N0].
  - unfold sample_check, count_exceeds, count_ratio. rewrite Hb, E0.
    change (div (abs (sub (of_int 0) (of_int 0))) (Max (of_int 0) (of_int 0)))
      with S754_nan.
    destruct thr as [[]|[]| |[] m e]; reflexivity.
  - now apply sample_check_same.
Qed.

Lemma X13_equal_sample_counts_witness :
  exists ks sorted,
    range_of (Metrics pair_a) ks /\
    sorted_of (collect CmpThreshold pair_a pair_b ks) sorted /\
    Proximal CmpThreshold pair_a pair_b = finish CmpThreshold (EmptyString, zero) sorted.
Proof.
  apply (X13_equal_sample_counts CmpThreshold pair_a pair_b).
  - vm_compute. split; discriminate.
  - reflexivity.
  - reflexivity.
  - apply Proximal_is_run.
Defined.

(** ** The sort.Interface of cmpScores *)

(** [s[i]] for a slice [s]: an index out of range panics. *)
Definition at_index (s : list cmpScore) (i : Z) : option cmpScore :=
  if 0 <=? i then s !! Z.to_nat i else None.

(** [cmpScores.Len]. *)
Definition Len (s : list cmpScore) : Z := Z.of_nat (length s).

(** [cmpScores.Less] on two indices. *)
Definition Less_at (s : list cmpScore) (i j : Z) : option bool :=
  match at_index s i, at_index s j with
  | Some x, Some y => Some (Less x y)
  | _, _ => None
  end.

(** [cmpScores.Swap]: both operands are read, then [s[i]] and [s[j]] are
    written; the slice shares its array with the caller's, so the
    updated contents are the result. *)
Definition Swap (s : list cmpScore) (i j : Z) : option (list cmpScore) :=
  match at_index s i, at_index s j with
  | Some x, Some y => Some (<[Z.to_nat j := x]> (<[Z.to_nat i := y]> s))
  | _, _ => None
  end.

Section SortInterface.

Local Abbreviation rk := (rank prec emax).
Local Abbreviation num64 := (number prec emax).

Lemma at_index_Some (s : list cmpScore) (i : Z) :
  0 <= i < Len s -> exists x, at_index s i = Some x /\ s !! Z.to_nat i = Some x.
Proof.
  unfold Len, at_index. intros H.
  destruct (lookup_lt_is_Some_2 s (Z.to_nat i) ltac:(lia)) as [x Hx].
  exists x. destruct (Z.leb_spec 0 i); [now split | lia].
Qed.

Lemma perm_insert_cons {A : Type} (x y : A) (t : list A) (j : nat) :
  t !! j = Some y -> Permutation (x :: t) (y :: <[j := x]> t).
Proof.
  revert j. induction t as [|h t IH]; intros [|j] H; try discriminate.
  - injection H as ->. apply perm_swap.
  - cbn in H. change (<[S j := x]> (h :: t)) with (h :: <[j := x]> t).
    apply perm_trans with (h :: x :: t); [apply perm_swap|].
    apply perm_trans with (h :: y :: <[j := x]> t); [|apply perm_swap].
    apply perm_skip. now apply IH.
Qed.

Lemma perm_swap_entries {A : Type} (s : list A) (i j : nat) (x y : A) :
  s !! i = Some x -> s !! j = Some y ->
  Permutation s (<[j := x]> (<[i := y]> s)).
Proof.
  revert i j. induction s as [|h t IH]; intros [|i] [|j] Hi Hj; try discriminate.
  - injection Hi as ->. injection Hj as ->. apply Permutation_refl.
  - injection Hi as ->. cbn in Hj.
    change (<[S j := x]> (<[0%nat := y]> (x :: t))) with (y :: <[j := x]> t).
    now apply perm_insert_cons.
  - injection Hj as ->. cbn in Hi.
    change (<[0%nat := x]> (<[S i := y]> (y :: t))) with (x :: <[i := y]> t).
    now apply perm_insert_cons.
  - cbn in Hi, Hj.
    change (<[S j := x]> (<[S i := y]> (h :: t))) with (h :: <[j := x]> (<[i := y]> t)).
    apply perm_skip. now apply IH.
Qed.

Lemma lookup_insert_at {A : Type} (l : list A) (i : nat) (x : A) :
  (i < length l)%nat -> <[i := x]> l !! i = Some x.
Proof.
  intros H. rewrite list_lookup_insert.
  destruct (decide (i = i /\ (i < length l)%nat)) as [_|N]; [reflexivity | exfalso; tauto].
Qed.

Lemma swap_lookups {A : Type} (s : list A) (i j : nat) (x y : A) :
  s !! i = Some x -> s !! j = Some y ->
  <[j := x]> (<[i := y]> s) !! i = Some y /\
  <[j := x]> (<[i := y]> s) !! j = Some x.
Proof.
  intros Hi Hj.
  pose proof (lookup_lt_Some _ _ _ Hi) as Li. pose proof (lookup_lt_Some _ _ _ Hj) as Lj.
  split; [|apply lookup_insert_at; now rewrite length_insert].
  destruct (decide (i = j)) as [->|N].
  - rewrite Hi in Hj. injection Hj as ->.
    apply lookup_insert_at. now rewrite length_insert.
  - rewrite list_lookup_insert_ne by congruence. now apply lookup_insert_at.
Qed.

Lemma swap_back {A : Type} (s : list A) (i j : nat) (x y : A) :
  s !! i = Some x -> s !! j = Some y ->
  <[j := y]> (<[i := x]> (<[j := x]> (<[i := y]> s))) = s.
Proof.
  intros Hi Hj.
  pose proof (lookup_lt_Some _ _ _ Hi) as Li. pose proof (lookup_lt_Some _ _ _ Hj) as Lj.
  apply list_eq. intros k.
  destruct (decide (k = j)) as [->|Nj].
  - rewrite lookup_insert_at by (now rewrite !length_insert). now symmetry.
  - rewrite list_lookup_insert_ne by congruence.
    destruct (decide (k = i)) as [->|Ni].
    + rewrite lookup_insert_at by (now rewrite !length_insert). now symmetry.
    + now rewrite !list_lookup_insert_ne by congruence.
Qed.

Lemma Less_irrefl (x : cmpScore) : Less x x = false.
Proof.
  destruct (Less x x) eqn:E; [|reflexivity].
  pose proof (Less_asym x x E). congruence.
Qed.

(** Among scores that are numbers, two scores are unordered by [Less]
    exactly when they are equal numbers. *)
Lemma Less_unordered (x y : cmpScore) :
  num64 (num x) -> num64 (num y) ->
  (Less x y = false /\ Less y x = false <-> rk (num x) = rk (num y)).
Proof.
  intros Nx Ny. unfold Less.
  rewrite (ltb_rank _ _ Nx Ny), (ltb_rank _ _ Ny Nx), !Z.ltb_ge. lia.
Qed.

End SortInterface.

(** X14.  [Swap] exchanges the entries at two valid indices and nothing
    else: each of the two indices holds what the other held, every other
    index holds what it held, the length ([Len]) and the contents up to
    order are kept, and swapping again restores the slice. *)
Theorem X14_Swap_exchanges (s : list cmpScore) (i j : Z) :
  0 <= i < Len s -> 0 <= j < Len s ->
  exists s', Swap s i j = Some s' /\
             at_index s' i = at_index s j /\ at_index s' j = at_index s i /\
             (forall k, k <> i -> k <> j -> at_index s' k = at_index s k) /\
             Len s' = Len s /\ Permutation s s' /\
             Swap s' i j = Some s.
Proof.
  intros Hi Hj.
  destruct (at_index_Some s i Hi) as (x & Ax & Lx).
  destruct (at_index_Some s j Hj) as (y & Ay & Ly).
  destruct (swap_lookups s _ _ x y Lx Ly) as [Si Sj].
  exists (<[Z.to_nat j := x]> (<[Z.to_nat i := y]> s)).
  assert (A' : forall k, at_index (<[Z.to_nat j := x]> (<[Z.to_nat i := y]> s)) k =
                         if 0 <=? k
                         then <[Z.to_nat j := x]> (<[Z.to_nat i := y]> s) !! Z.to_nat k
                         else None) by reflexivity.
  split; [unfold Swap; now rewrite Ax, Ay|].
  split; [rewrite A', Ay, Si; destruct (Z.leb_spec 0 i); [reflexivity | lia]|].
  split; [rewrite A', Ax, Sj; destruct (Z.leb_spec 0 j); [reflexivity | lia]|].
  split.
  { intros k Ni Nj. rewrite A'. unfold at_index.
    destruct (Z.leb_spec 0 k) as [Hk|Hk]; [|reflexivity].
    rewrite !list_lookup_insert_ne by lia. reflexivity. }
  split; [unfold Len; now rewrite !length_insert|].
  split; [now apply perm_swap_entries|].
  unfold Swap. rewrite !A', Si, Sj.
  destruct (Z.leb_spec 0 i); [|lia]. destruct (Z.leb_spec 0 j); [|lia].
  f_equal. now apply swap_back.
Qed.

(** Four scores told apart by their messages. *)
Definition abcd : list cmpScore :=
  [ {| num := zero; msg := "a" |}; {| num := one; msg := "b" |};
    {| num := two; msg := "c" |}; {| num := hundred; msg := "d" |} ].

Lemma X14_Swap_exchanges_witness :
  Swap abcd 0 2 =
    Some [ {| num := two; msg := "c" |}; {| num := one; msg := "b" |};
           {| num := zero; msg := "a" |}; {| num := hundred; msg := "d" |} ] /\
  exists s', Swap abcd 0 2 = Some s' /\
             at_index s' 0 = at_index abcd 2 /\ at_index s' 2 = at_index abcd 0 /\
             (forall k, k <> 0 -> k <> 2 -> at_index s' k = at_index abcd k) /\
             Len s' = Len abcd /\ Permutation abcd s' /\
             Swap s' 0 2 = Some abcd.
Proof.
  split; [vm_compute; reflexivity|].
  apply X14_Swap_exchanges; vm_compute; split; congruence.
Defined.

(** X15.  On the slice that [Proximal] hands to [sort.Sort], however its
    entries have been permuted since, [Less] is a strict weak ordering of
    the valid indices -- irreflexive, transitive, and with a transitive
    "neither is less" -- which is what [sort.Sort] requires of it: no
    score collected from well-formed Stats is NaN. *)
Theorem X15_Less_strict_weak_order (thr : float) (a b : Stats) (ks : list string)
        (s : list cmpScore) (i j k : Z) :
  wf_Stats a -> wf_Stats b -> Permutation (collect thr a b ks) s ->
  0 <= i < Len s -> 0 <= j < Len s -> 0 <= k < Len s ->
  Less_at s i i = Some false /\
  (Less_at s i j = Some true -> Less_at s j k = Some true -> Less_at s i k = Some true) /\
  (Less_at s i j = Some false -> Less_at s j i = Some false ->
   Less_at s j k = Some false -> Less_at s k j = Some false ->
   Less_at s i k = Some false /\ Less_at s k i = Some false).
Proof.
  intros Wa Wb P Hi Hj Hk.
  pose proof (Permutation_Forall P (collect_unit_range thr a b ks Wa Wb)) as U.
  destruct (at_index_Some s i Hi) as (x & Ax & Lx).
  destruct (at_index_Some s j Hj) as (y & Ay & Ly).
  destruct (at_index_Some s k Hk) as (z & Az & Lz).
  pose proof (fin64_num64 _ (proj1 (Forall_lookup_1 _ _ _ _ U Lx))) as Nx.
  pose proof (fin64_num64 _ (proj1 (Forall_lookup_1 _ _ _ _ U Ly))) as Ny.
  pose proof (fin64_num64 _ (proj1 (Forall_lookup_1 _ _ _ _ U Lz))) as Nz.
  unfold Less_at. rewrite Ax, Ay, Az.
  split; [f_equal; apply Less_irrefl|]. split.
  - intros H1 H2. injection H1 as H1. injection H2 as H2. f_equal.
    exact (Less_trans x y z H1 H2).
  - intros H1 H2 H3 H4.
    injection H1 as H1. injection H2 as H2. injection H3 as H3. injection H4 as H4.
    pose proof (proj1 (Less_unordered x y Nx Ny) (conj H1 H2)) as E1.
    pose proof (proj1 (Less_unordered y z Ny Nz) (conj H3 H4)) as E2.
    destruct (proj2 (Less_unordered x z Nx Nz) ltac:(congruence)) as [G1 G2].
    now rewrite G1, G2.
Qed.

Lemma X15_Less_strict_weak_order_witness :
  let s := collect CmpThreshold pair_a pair_b (map fst (map_to_list (Metrics pair_a))) in
  Less_at s 0 0 = Some false /\
  (Less_at s 0 1 = Some true -> Less_at s 1 0 = Some true -> Less_at s 0 0 = Some true) /\
  (Less_at s 0 1 = Some false -> Less_at s 1 0 = Some false ->
   Less_at s 1 0 = Some false -> Less_at s 0 1 = Some false ->
   Less_at s 0 0 = Some false /\ Less_at s 0 0 = Some false).
Proof.
  intros s.
  apply (X15_Less_strict_weak_order CmpThreshold pair_a pair_b
           (map fst (map_to_list (Metrics pair_a))) s 0 1 0).
  - exact wf_pair_a.
  - exact wf_pair_b.
  - apply Permutation_refl.
  - vm_compute. split; congruence.
  - vm_compute. split; congruence.
  - vm_compute. split; congruence.
Defined.

(** ** The aggregate is monotone in the scores of the metrics *)

Section OrderStatistics.














End OrderStatistics.

Section Monotone.

Local Abbreviation rk := (rank prec emax).
Local Abbreviation num64 := (number prec emax).
Local Abbreviation fin64 := (finite prec emax).



End Monotone.


Definition near_a : Stats :=
  {| NSamples := 10;
     Metrics := {[ "start"%string := {| Median := 100; MAD := 10 |};
                   "end"%string := {| Median := 9; MAD := 2 |} ]} |}.

Definition near_b : Stats :=
  {| NSamples := 10;
     Metrics := {[ "start"%string := {| Median := 95; MAD := 10 |};
                   "end"%string := {| Median := 9; MAD := 2 |} ]} |}.

Lemma wf_near_a : wf_Stats near_a.
Proof.
  split; [vm_compute; split; discriminate|].
  apply map_Forall_insert_2; [vm_compute; split; split; discriminate|].
  apply map_Forall_singleton. vm_compute. split; split; discriminate.
Qed.

Lemma wf_near_b : wf_Stats near_b.
Proof.
  split; [vm_compute; split; discriminate|].
  apply map_Forall_insert_2; [vm_compute; split; split; discriminate|].
  apply map_Forall_singleton. vm_compute. split; split; discriminate.
Qed.

Lemma near_keys (k : string) :
  is_Some (Metrics near_a !! k) -> k = "start"%string \/ k = "end"%string.
Proof.
  unfold near_a. cbn [Metrics]. intros [v H].
  apply lookup_insert_Some in H as [[<- _]|[_ H]]; [now left|].
  apply lookup_singleton_Some in H as [<- _]. now right.
Qed.


(** ** When the whole result is determined *)

Section Determined.

Local Abbreviation rk := (rank prec emax).
Local Abbreviation num64 := (number prec emax).
Local Abbreviation fin64 := (finite prec emax).

Lemma buffer_msgs (l1 l2 : list cmpScore) :
  map msg l1 = map msg l2 -> buffer l1 = buffer l2.
Proof.
  unfold buffer. generalize EmptyString. revert l2.
  induction l1 as [|c1 l1 IH]; intros [|c2 l2] acc E; try discriminate; [reflexivity|].
  cbn [map] in E. injection E as Ec El. cbn [fold_left]. rewrite Ec. now apply IH.
Qed.

(** The message of the first entry of [l] with the rank [z]. *)
Definition msg_of_rank (l : list cmpScore) (z : Z) : string :=
  match find (fun c => rk (num c) =? z) l with
  | Some c => msg c
  | None => EmptyString
  end.

Lemma msg_of_rank_spec (l : list cmpScore) (x : cmpScore) :
  (forall x y, In x l -> In y l -> rk (num x) = rk (num y) -> msg x = msg y) ->
  In x l -> msg_of_rank l (rk (num x)) = msg x.
Proof.
  intros H Hx. unfold msg_of_rank.
  destruct (find (fun c => rk (num c) =? rk (num x)) l) as [c|] eqn:E.
  - apply find_some in E as [Hc Ec]. apply Z.eqb_eq in Ec. now apply H.
  - apply (find_none _ _ E) in Hx. apply Z.eqb_neq in Hx. congruence.
Qed.

(** Two sorted arrangements of one list carry the same messages in the
    same order, when entries of equal rank have equal messages. *)
Lemma sorted_msgs (l s1 s2 : list cmpScore) :
  Forall (fun c => unit_range (num c)) l ->
  (forall x y, In x l -> In y l -> rk (num x) = rk (num y) -> msg x = msg y) ->
  sorted_of l s1 -> sorted_of l s2 -> map msg s1 = map msg s2.
Proof.
  intros U H [P1 A1] [P2 A2].
  assert (R : map (fun c => rk (num c)) s1 = map (fun c => rk (num c)) s2).
  { apply (StronglySorted_unique Z.le).
    - apply ascending_ranks; [exact (Permutation_Forall P1 U) | exact A1].
    - apply ascending_ranks; [exact (Permutation_Forall P2 U) | exact A2].
    - apply Permutation_map. now rewrite <- P1, <- P2. }
  assert (M : forall s, Permutation l s ->
                        map msg s = map (msg_of_rank l) (map (fun c => rk (num c)) s)).
  { intros s P. rewrite map_map. apply map_ext_in. intros x Hx.
    symmetry. apply msg_of_rank_spec; [exact H|].
    exact (Permutation_in _ (Permutation_sym P) Hx). }
  now rewrite (M s1 P1), (M s2 P2), R.
Qed.

End Determined.

(** X17.  The result of [Proximal] is fully determined -- message, score
    and verdict -- as soon as compared metrics with equal scores have
    equal messages (for instance when only perfect scores tie): the
    iteration order of the map and the instability of the sort can only
    reorder the lines of metrics that tie. *)
Theorem X17_result_determined (thr : float) (a b : Stats)
        (r1 r2 : string * float * bool) :
  wf_Stats a -> wf_Stats b ->
  (forall k1 k2,
      is_Some (Metrics a !! k1) -> compared b k1 = true ->
      is_Some (Metrics a !! k2) -> compared b k2 = true ->
      eqb (num (compareMetrics thr a b k1)) (num (compareMetrics thr a b k2)) = true ->
      msg (compareMetrics thr a b k1) = msg (compareMetrics thr a b k2)) ->
  Proximal_returns thr a b r1 -> Proximal_returns thr a b r2 -> r1 = r2.
Proof.
  intros Wa Wb Ht (ks1 & s1 & K1 & S1 & ->) (ks2 & s2 & K2 & S2 & ->).
  pose proof (sorted_unit_range thr a b ks1 s1 Wa Wb S1) as U1.
  pose proof (sorted_unit_range thr a b ks2 s2 Wa Wb S2) as U2.
  assert (P : Permutation (map num s1) (map num s2)).
  { apply (nums_permutation thr thr a b ks1 ks2); [assumption .. | apply S1 | apply S2]. }
  pose proof (sorted_scores_same s1 s2 U1 U2 (proj2 S1) (proj2 S2) P) as Hs.
  destruct (start_number thr a b) as [Ns _].
  pose proof (weigh_from_same s1 s2 Hs 0 _ ltac:(lia) Ns (start_not_neg_zero thr a b)) as E.
  assert (PC : Permutation (collect thr a b ks1) (collect thr a b ks2)).
  { rewrite !collect_map. apply Permutation_map, Permutation_filter.
    unfold range_of in *. now rewrite K1, K2. }
  assert (M : map msg s1 = map msg s2).
  { apply (sorted_msgs (collect thr a b ks1)).
    - now apply collect_unit_range.
    - intros x y Hx Hy Hr. rewrite collect_map in Hx, Hy.
      apply in_map_iff in Hx as (k1 & <- & Hk1). apply in_map_iff in Hy as (k2 & <- & Hk2).
      apply filter_In in Hk1 as [I1 C1]. apply filter_In in Hk2 as [I2 C2].
      destruct (range_of_keys _ _ K1) as [_ I].
      apply Ht; try assumption; try (now apply I).
      pose proof (compareMetrics_unit_range thr a b k1 (metric_at_wf a k1 Wa)
                    (metric_at_wf b k1 Wb)) as [F1 _].
      pose proof (compareMetrics_unit_range thr a b k2 (metric_at_wf a k2 Wa)
                    (metric_at_wf b k2 Wb)) as [F2 _].
      rewrite (eqb_rank _ _ (fin64_num64 _ F1) (fin64_num64 _ F2)).
      now apply Z.eqb_eq.
    - exact S1.
    - destruct S2 as [P2 A2]. split; [now rewrite PC | exact A2]. }
  unfold finish, weigh. now rewrite E, (buffer_msgs s1 s2 M).
Qed.

Lemma X17_result_determined_witness :
  Proximal CmpThreshold near_a near_b = Proximal_rev CmpThreshold near_a near_b.
Proof.
  apply (X17_result_determined CmpThreshold near_a near_b).
  - exact wf_near_a.
  - exact wf_near_b.
  - intros k1 k2 H1 _ H2 _.
    destruct (near_keys k1 H1) as [-> | ->]; destruct (near_keys k2 H2) as [-> | ->];
      vm_compute; congruence.
  - apply Proximal_is_run.
  - apply Proximal_rev_is_run.
Defined.

(** ** The accepted keys, as strings *)

Section FilterStrings.

Lemma join_dot_app (l1 l2 : list string) :
  l1 <> [] -> l2 <> [] ->
  join_dot (l1 ++ l2) = (join_dot l1 ++ "." ++ join_dot l2)%string.
Proof.
  intros H1 H2. induction l1 as [|x l1 IH]; [congruence|].
  destruct l1 as [|y l1].
  - destruct l2 as [|z l2]; [congruence|]. reflexivity.
  - cbn [app]. rewrite (join_dot_cons x y (l1 ++ l2)), (join_dot_cons x y l1).
    change (y :: l1 ++ l2) with ((y :: l1) ++ l2).
    rewrite IH by congruence.
    now rewrite !string_app_assoc.
Qed.

End FilterStrings.

(** X18.  A key that passes the filter is an entry of the allow-list or an
    entry followed by a dot and further text: a prefix only counts when
    it ends where a segment ends. *)
Theorem X18_accepted_extends_entry (key : string) :
  isCmpMetric key = true ->
  exists entry, is_Some (cmpMetrics !! entry) /\
    (key = entry \/ exists rest, key = (entry ++ "." ++ rest)%string).
Proof.
  rewrite isCmpMetric_true. intros (n & Hn & Hl).
  exists (join_dot (take n (split_dot key))).
  split; [unfold listed in Hl; now apply bool_decide_eq_true in Hl|].
  destruct (Nat.eq_dec n (length (split_dot key))) as [E|N].
  - left. now rewrite E, firstn_all, join_split_dot.
  - right. exists (join_dot (drop n (split_dot key))).
    rewrite <- (join_split_dot key) at 1.
    rewrite <- (take_drop n (split_dot key)) at 1.
    apply join_dot_app.
    + intros H. apply (f_equal length) in H. rewrite length_take in H. cbn in H. lia.
    + intros H. apply (f_equal length) in H. rewrite length_drop in H. cbn in H. lia.
Qed.

Lemma X18_accepted_extends_entry_witness :
  exists entry, is_Some (cmpMetrics !! entry) /\
    ("serverStatus.mem.resident.max"%string = entry \/
     exists rest, "serverStatus.mem.resident.max"%string = (entry ++ "." ++ rest)%string).
Proof. apply X18_accepted_extends_entry. vm_compute. reflexivity. Defined.

(** ** The comparator and the message when no difference overflows *)

Section SpecFormula.

Local Abbreviation rk := (rank prec emax).
Local Abbreviation num64 := (number prec emax).
Local Abbreviation fin64 := (finite prec emax).
Local Abbreviation nv := (nval prec emax).

Lemma of_int_zero_inv (m : Z) (s : bool) : of_int m = S754_zero s -> m = 0.
Proof.
  intros H. destruct (rk_of_int_sign m) as (P & N & _).
  assert (R : rk (of_int m) = 0) by now rewrite H.
  destruct (Z.lt_total m 0) as [L|[E|G]]; [specialize (N L); lia | exact E | specialize (P G); lia].
Qed.

Lemma eqb_of_int_zero (m : Z) : eqb (of_int m) zero = (m =? 0).
Proof.
  assert (Nz : num64 zero) by (split; [reflexivity | discriminate]).
  rewrite (eqb_rank _ _ (num64_of_int m) Nz). change (rk zero) with 0.
  destruct (rk_of_int_sign m) as (P & N & Z0).
  destruct (Z.eqb_spec m 0) as [E|E].
  - apply Z.eqb_eq. now apply Z0.
  - apply Z.eqb_neq.
    destruct (Z.lt_total m 0) as [L|[E'|G]];
      [specialize (N L); lia | contradiction | specialize (P G); lia].
Qed.

(** Converting and taking the absolute value commute. *)
Lemma abs_of_int_eq (n : Z) : is_int n -> abs (of_int n) = of_int (Z.abs n).
Proof.
  intros Hn. destruct (abs_of_int n Hn) as [[F _] R].
  destruct (rk_inj (abs (of_int n)) (of_int (Z.abs n))) as [H|(s1 & s2 & _ & H2)].
  - now apply fin64_num64.
  - apply num64_of_int.
  - now rewrite R, rk_of_int.
  - exact H.
  - apply of_int_zero_inv in H2. assert (n = 0) by lia. subst n. reflexivity.
Qed.

(** The larger of the two converted absolute values is the converted
    larger absolute value. *)
Lemma Max_of_int (u v : Z) :
  is_int u -> is_int v ->
  Max (abs (of_int u)) (abs (of_int v)) = of_int (Z.max (Z.abs u) (Z.abs v)).
Proof.
  intros Hu Hv.
  destruct (abs_of_int u Hu) as [Au Ru]. destruct (abs_of_int v Hv) as [Av Rv].
  destruct (Max_nonneg _ _ Au Av) as [[FM _] RM].
  destruct (rk_inj (Max (abs (of_int u)) (abs (of_int v)))
              (of_int (Z.max (Z.abs u) (Z.abs v)))) as [H|(s1 & s2 & _ & H2)].
  - now apply fin64_num64.
  - apply num64_of_int.
  - rewrite RM, Ru, Rv, rk_of_int.
    destruct (Z.max_spec (Z.abs u) (Z.abs v)) as [[H ->]|[H ->]].
    + pose proof (nval64_mono (Z.abs u) (Z.abs v) 0 ltac:(lia)). lia.
    + pose proof (nval64_mono (Z.abs v) (Z.abs u) 0 ltac:(lia)). lia.
  - exact H.
  - apply of_int_zero_inv in H2.
    assert (u = 0) by lia. assert (v = 0) by lia. subst u v. reflexivity.
Qed.

(** The ratio that the comparator computes is the relative deviation,
    when the difference of the two integers is a value of [int]. *)
Lemma ratio_relative_deviation (x y : Z) :
  is_int x -> is_int y -> is_int (x - y) ->
  div (abs (of_int (int_sub x y))) (Max (abs (of_int x)) (abs (of_int y))) =
  relative_deviation x y.
Proof.
  intros Hx Hy Hd. unfold relative_deviation.
  now rewrite (int_sub_exact x y Hd), (abs_of_int_eq _ Hd), (Max_of_int x y Hx Hy).
Qed.

Lemma maxmad_zero (a b : MetricStat) :
  wf_MetricStat a -> wf_MetricStat b ->
  eqb (maxmad_of a b) zero = (Z.max (Z.abs (MAD a)) (Z.abs (MAD b)) =? 0).
Proof.
  intros [_ Ha] [_ Hb]. unfold maxmad_of.
  now rewrite (Max_of_int _ _ Ha Hb), eqb_of_int_zero.
Qed.

Lemma maxmed_zero (a b : MetricStat) :
  wf_MetricStat a -> wf_MetricStat b ->
  eqb (maxmed_of a b) zero = (Z.max (Z.abs (Median a)) (Z.abs (Median b)) =? 0).
Proof.
  intros [Ha _] [Hb _]. unfold maxmed_of.
  now rewrite (Max_of_int _ _ Ha Hb), eqb_of_int_zero.
Qed.

(** The message of the comparator is the fragment of the metric. *)
Lemma msg_fragment (thr : float) (sa sb : Stats) (key : string) :
  wf_MetricStat (metric_at sa key) -> wf_MetricStat (metric_at sb key) ->
  is_int (Median (metric_at sa key) - Median (metric_at sb key)) ->
  is_int (MAD (metric_at sa key) - MAD (metric_at sb key)) ->
  msg (compareMetrics thr sa sb key) = fragment thr sa sb key.
Proof.
  intros Wa Wb Dm Dd.
  unfold compareMetrics, fragment, relMAD, relMedian, reaches_deviation. cbv zeta.
  set (a := metric_at sa key) in *. set (b := metric_at sb key) in *.
  destruct (Median a =? Median b); [reflexivity|].
  rewrite (maxmad_zero a b Wa Wb), (maxmed_zero a b Wa Wb).
  cbn [negb andb].
  destruct ((Z.max (Z.abs (MAD a)) (Z.abs (MAD b)) =? 0)
            || (Z.max (Z.abs (Median a)) (Z.abs (Median b)) =? 0)); [reflexivity|].
  cbn [negb msg exceeds]. unfold relmad_of, relmed_of, maxmad_of, maxmed_of.
  rewrite (ratio_relative_deviation _ _ (proj2 Wa) (proj2 Wb) Dd),
    (ratio_relative_deviation _ _ (proj1 Wa) (proj1 Wb) Dm).
  reflexivity.
Qed.

End SpecFormula.

(** X19.  For a key present in both Stats the comparator returns score 1
    and no message when the medians are equal, whatever the MADs; it
    returns score 1 and no message when the larger absolute MAD or the
    larger absolute median is zero; and otherwise, when the differences
    of the two medians and of the two MADs are values of [int], its score
    is [(1 - relMedian) * (1 - relMAD)] for the relative deviations of
    the integers themselves. *)
Theorem X19_compareMetrics_formula (thr : float) (sa sb : Stats) (key : string)
        (a b : MetricStat) :
  Metrics sa !! key = Some a -> Metrics sb !! key = Some b ->
  wf_MetricStat a -> wf_MetricStat b ->
  let c := compareMetrics thr sa sb key in
  (Median a = Median b -> c = {| num := one; msg := EmptyString |}) /\
  (Median a <> Median b ->
   Z.max (Z.abs (MAD a)) (Z.abs (MAD b)) = 0 \/
   Z.max (Z.abs (Median a)) (Z.abs (Median b)) = 0 ->
   c = {| num := one; msg := EmptyString |}) /\
  (Median a <> Median b ->
   Z.max (Z.abs (MAD a)) (Z.abs (MAD b)) <> 0 ->
   Z.max (Z.abs (Median a)) (Z.abs (Median b)) <> 0 ->
   is_int (Median a - Median b) -> is_int (MAD a - MAD b) ->
   num c = mul (sub one (relative_deviation (Median a) (Median b)))
               (sub one (relative_deviation (MAD a) (MAD b)))).
Proof.
  intros Ha Hb Wa Wb. cbv zeta. unfold compareMetrics.
  rewrite (metric_at_Some sa key a Ha), (metric_at_Some sb key b Hb).
  cbv zeta. rewrite (maxmad_zero a b Wa Wb), (maxmed_zero a b Wa Wb).
  split; [|split].
  - intros E. apply Z.eqb_eq in E. now rewrite E.
  - intros N H. apply Z.eqb_neq in N. rewrite N.
    destruct H as [H|H]; apply Z.eqb_eq in H; rewrite H;
      [reflexivity | now rewrite orb_true_r].
  - intros N H1 H2 Dm Dd. apply Z.eqb_neq in N, H1, H2. rewrite N, H1, H2.
    cbn [orb num]. unfold relmad_of, relmed_of, maxmad_of, maxmed_of.
    now rewrite (ratio_relative_deviation _ _ (proj2 Wa) (proj2 Wb) Dd),
      (ratio_relative_deviation _ _ (proj1 Wa) (proj1 Wb) Dm).
Qed.

(** Medians 100 and 95, MADs 10 and 8: relMedian is 5/100 and relMAD is
    2/10. *)
Lemma X19_compareMetrics_formula_witness :
  let sa := {| NSamples := 10; Metrics := {[ "start"%string := {| Median := 100; MAD := 10 |} ]} |} in
  let sb := {| NSamples := 10; Metrics := {[ "start"%string := {| Median := 95; MAD := 8 |} ]} |} in
  relative_deviation 100 95 = div (of_int 5) (of_int 100) /\
  relative_deviation 10 8 = div (of_int 2) (of_int 10) /\
  num (compareMetrics CmpThreshold sa sb "start") =
    mul (sub one (relative_deviation 100 95)) (sub one (relative_deviation 10 8)).
Proof.
  intros sa sb. split; [vm_compute; reflexivity|]. split; [vm_compute; reflexivity|].
  destruct (X19_compareMetrics_formula CmpThreshold sa sb "start"
              {| Median := 100; MAD := 10 |} {| Median := 95; MAD := 8 |})
    as (_ & _ & H).
  - vm_compute. reflexivity.
  - vm_compute. reflexivity.
  - vm_compute. split; split; discriminate.
  - vm_compute. split; split; discriminate.
  - cbn [Median MAD] in H.
    assert (H1 : 100 <> 95) by discriminate.
    assert (H2 : Z.max (Z.abs 10) (Z.abs 8) <> 0) by discriminate.
    assert (H3 : Z.max (Z.abs 100) (Z.abs 95) <> 0) by discriminate.
    assert (H4 : is_int (100 - 95)) by (vm_compute; split; discriminate).
    assert (H5 : is_int (10 - 8)) by (vm_compute; split; discriminate).
    exact (H H1 H2 H3 H4 H5).
Defined.

(** X20.  When no difference of two compared medians or MADs overflows
    [int], the message of every execution is the sample-count line,
    present exactly when the ratio of the sample-count test exceeds the
    threshold, followed by the fragments of the compared metrics in
    ascending order of score; the fragment of a metric has a MAD line
    exactly when relMAD exceeds the threshold and then a median line
    exactly when relMedian exceeds it, each line naming the metric, the
    two values and the threshold percentage. *)
Theorem X20_message_assembly (thr : float) (a b : Stats) (res : string * float * bool) :
  wf_Stats a -> wf_Stats b ->
  (forall k, is_Some (Metrics a !! k) -> compared b k = true ->
             is_int (Median (metric_at a k) - Median (metric_at b k)) /\
             is_int (MAD (metric_at a k) - MAD (metric_at b k))) ->
  Proximal_returns thr a b res ->
  exists order : list string,
    List.NoDup order /\
    (forall k, In k order <->
               is_Some (Metrics a !! k) /\ is_Some (Metrics b !! k) /\ isCmpMetric k = true) /\
    (forall (i j : nat) (ki kj : string),
        (i < j)%nat -> order !! i = Some ki -> order !! j = Some kj ->
        ltb (num (compareMetrics thr a b kj)) (num (compareMetrics thr a b ki)) = false) /\
    fst (fst res) =
      ((if ltb thr (count_ratio a b)
        then "sample count not proximal: (" ++ fmt_d (NSamples a) ++ ", "
             ++ fmt_d (NSamples b) ++ ") are not within threshold ("
             ++ fmt_d (to_int (mul thr hundred)) ++ "%)" ++ nl
        else EmptyString)
       ++ cat_all (map (fragment thr a b) order))%string.
Proof.
  intros Wa Wb Hd (ks & sorted & Hks & [Hp Hs] & ->).
  rewrite collect_map in Hp.
  destruct (Permutation_map_inv _ _ (Permutation_sym Hp)) as (order & -> & Ho).
  destruct (range_of_keys _ _ Hks) as [Nd Hin].
  assert (Hm : forall k, In k order <->
                         is_Some (Metrics a !! k) /\ compared b k = true).
  { intros k. now rewrite <- (Permutation_in' eq_refl Ho), filter_In, Hin. }
  exists order. split; [|split; [|split]].
  - eapply Permutation_NoDup; [exact Ho|]. now apply List.NoDup_filter.
  - intros k. rewrite Hm, compared_true. tauto.
  - intros i j ki kj Hij Hi Hj.
    apply (ascending_lookup _ Hs i j); [exact Hij | |].
    + now rewrite list_lookup_fmap, Hi.
    + now rewrite list_lookup_fmap, Hj.
  - unfold finish, sample_check, count_exceeds. cbn [fst].
    rewrite buffer_cat_all, map_map.
    rewrite (map_ext_in _ (fragment thr a b)).
    + destruct (ltb thr (count_ratio a b)); reflexivity.
    + intros k Hk. apply Hm in Hk as [H1 H2]. destruct (Hd k H1 H2) as [Dm Dd].
      apply msg_fragment; try assumption; now apply metric_at_wf.
Qed.

(** Three metrics that the map yields with the scores 1, 0.7 and 0.5; the
    two that miss the threshold are reported worst first. *)
Definition lines_a : Stats :=
  {| NSamples := 100;
     Metrics := {[ "start"%string := {| Median := 100; MAD := 10 |};
                   "end"%string := {| Median := 100; MAD := 10 |};
                   "serverStatus.asserts"%string := {| Median := 100; MAD := 10 |} ]} |}.

Definition lines_b : Stats :=
  {| NSamples := 100;
     Metrics := {[ "start"%string := {| Median := 70; MAD := 10 |};
                   "end"%string := {| Median := 50; MAD := 10 |};
                   "serverStatus.asserts"%string := {| Median := 100; MAD := 10 |} ]} |}.

Lemma wf_lines_a : wf_Stats lines_a.
Proof.
  split; [vm_compute; split; discriminate|].
  apply map_Forall_insert_2; [vm_compute; split; split; discriminate|].
  apply map_Forall_insert_2; [vm_compute; split; split; discriminate|].
  apply map_Forall_singleton. vm_compute. split; split; discriminate.
Qed.

Lemma wf_lines_b : wf_Stats lines_b.
Proof.
  split; [vm_compute; split; discriminate|].
  apply map_Forall_insert_2; [vm_compute; split; split; discriminate|].
  apply map_Forall_insert_2; [vm_compute; split; split; discriminate|].
  apply map_Forall_singleton. vm_compute. split; split; discriminate.
Qed.

Lemma lines_keys (k : string) :
  is_Some (Metrics lines_a !! k) ->
  k = "start"%string \/ k = "end"%string \/ k = "serverStatus.asserts"%string.
Proof.
  unfold lines_a. cbn [Metrics]. intros [v H].
  apply lookup_insert_Some in H as [[<- _]|[_ H]]; [now left|].
  apply lookup_insert_Some in H as [[<- _]|[_ H]]; [now right; left|].
  apply lookup_singleton_Some in H as [<- _]. now right; right.
Qed.

Lemma X20_message_assembly_witness :
  map fst (map_to_list (Metrics lines_a)) = ["serverStatus.asserts"; "start"; "end"]%string /\
  fst (fst (Proximal CmpThreshold lines_a lines_b)) =
    ("metric 'end' not proximal: medians (100, 50) are not within threshold (20)" ++ nl ++
     "metric 'start' not proximal: medians (100, 70) are not within threshold (20)" ++ nl)%string /\
  exists order : list string,
    List.NoDup order /\
    (forall k, In k order <->
               is_Some (Metrics lines_a !! k) /\ is_Some (Metrics lines_b !! k) /\
               isCmpMetric k = true) /\
    (forall (i j : nat) (ki kj : string),
        (i < j)%nat -> order !! i = Some ki -> order !! j = Some kj ->
        ltb (num (compareMetrics CmpThreshold lines_a lines_b kj))
            (num (compareMetrics CmpThreshold lines_a lines_b ki)) = false) /\
    fst (fst (Proximal CmpThreshold lines_a lines_b)) =
      ((if ltb CmpThreshold (count_ratio lines_a lines_b)
        then "sample count not proximal: (" ++ fmt_d (NSamples lines_a) ++ ", "
             ++ fmt_d (NSamples lines_b) ++ ") are not within threshold ("
             ++ fmt_d (to_int (mul CmpThreshold hundred)) ++ "%)" ++ nl
        else EmptyString)
       ++ cat_all (map (fragment CmpThreshold lines_a lines_b) order))%string.
Proof.
  split; [vm_compute; reflexivity|]. split; [vm_compute; reflexivity|].
  apply (X20_message_assembly CmpThreshold lines_a lines_b).
  - exact wf_lines_a.
  - exact wf_lines_b.
  - intros k Hk _. destruct (lines_keys k Hk) as [-> | [-> | ->]];
      vm_compute; split; split; discriminate.
  - apply Proximal_is_run.
Defined.
